(** * find-main-content: a shallow embedding of [src/index.js]

    The module extracts the main content of an HTML page through a Cheerio
    handle [$].  The embedding keeps the shape of the JavaScript:

    - a JS string is a [string] of code units (one [ascii] per code unit, so
      the code units 0..255 are covered, and the statements are about
      strings of such code units); [String.length] is [.length];
    - a JS number that is a count or a length is a [nat]/[Z]; a number that
      goes through [/] or [*] (content scores, link densities) is a binary64
      [float], which is what a JS Number is;
    - the Cheerio document is a forest of nodes in which every element has
      an identity [uid] (the JS object identity): a Cheerio selection is the
      list of the identities it holds, in document order;
    - a markup string (what [.html()] returns, what [prepend]/[append]
      receive) is the forest it denotes, without identities ([markup]); the
      parser gives fresh identities to the nodes it creates;
    - the [readability] property the code attaches to nodes is a finite map
      from identities to the stored [contentScore];
    - the options object is a finite map from property names to values;
    - [throw] is an outcome of its own ([Throw]).

    Of the DOM engine (an external collaborator) the embedding fixes what
    the code relies on: [$(selector)] and [find] return the matching
    elements in document order, each once; [$(null)] is the empty selection;
    [text()] is the data of the text nodes below an element; [html()] is
    [null] on the empty selection and the markup inside the first element
    otherwise; [first()] of an empty selection is empty; [remove] and
    [replaceWith] cut an element off its parent and leave it, with what is
    below it, to the references the code still holds; markup that is parsed
    becomes new elements.

    The handle is the caller's ([findContent] receives [$]).  Its parser is
    taken to keep the markup as written, for the page and for the strings
    the code gives to [prepend] and [append]: this is htmlparser2
    ([cheerio.load(html, { xmlMode: true })]).  The default parser (parse5)
    builds the same tree, up to the [<head>] it adds, but where it
    restructures the markup: it wraps in a [<tbody>] the rows that stand
    directly under a [<table>], and in a [<tr>] the cells that stand
    outside a row.  A statement about a page holds for a handle of the
    default parser too when the page, and the strings the code parses on
    it, are markup that parse5 keeps as it is; the pages of the
    statements are of this kind, but for the table of C6, which is the
    table of a handle of htmlparser2, and for the header of
    [tbody_table_ex].  A text that the code gives to [replaceWith] is
    read as a text: the statements that depend on it say that the text
    holds no [<]. *)

From Stdlib Require Import Floats ZArith Lia List Ascii String Bool.
From stdpp Require Import gmap strings list.

Local Open Scope Z_scope.
Local Open Scope nat_scope.
Local Set Warnings "-register-all".

(* ===================================================================== *)
(** ** JavaScript strings *)
(* ===================================================================== *)

Module JsString.

(** WhiteSpace and LineTerminator code units below 256: TAB, LF, VT, FF,
    CR, SP, NBSP.  This is the class [\s] of a RegExp, what [trim] strips
    and StrWhiteSpace of ToNumber. *)
Definition is_space (c : ascii) : bool :=
  let n := nat_of_ascii c in
  ((9 <=? n) && (n <=? 13)) || (n =? 32) || (n =? 160).

Fixpoint trimStart (s : string) : string :=
  match s with
  | EmptyString => EmptyString
  | String c s' => if is_space c then trimStart s' else s
  end.

Fixpoint rev_append (s acc : string) : string :=
  match s with
  | EmptyString => acc
  | String c s' => rev_append s' (String c acc)
  end.

Definition rev (s : string) : string := rev_append s EmptyString.

(** [s.trim()] *)
Definition trim (s : string) : string := rev (trimStart (rev (trimStart s))).

(** [s.replace(/\s+/g, ' ')]: [in_run] tells that the previous code unit
    belonged to the run of white space being replaced. *)
Fixpoint collapse_spaces (in_run : bool) (s : string) : string :=
  match s with
  | EmptyString => EmptyString
  | String c s' =>
      if is_space c
      then (if in_run then collapse_spaces true s'
            else String " " (collapse_spaces true s'))
      else String c (collapse_spaces false s')
  end.

Definition is_upper (c : ascii) : bool :=
  let n := nat_of_ascii c in (65 <=? n) && (n <=? 90).

Definition is_lower (c : ascii) : bool :=
  let n := nat_of_ascii c in (97 <=? n) && (n <=? 122).

Definition lower_ascii (c : ascii) : ascii :=
  if is_upper c then ascii_of_nat (nat_of_ascii c + 32) else c.

Definition upper_ascii (c : ascii) : ascii :=
  if is_lower c then ascii_of_nat (nat_of_ascii c - 32) else c.

Fixpoint map_string (f : ascii -> ascii) (s : string) : string :=
  match s with
  | EmptyString => EmptyString
  | String c s' => String (f c) (map_string f s')
  end.

(** [s.toUpperCase()] on the letters a..z; the comparison the code makes
    with it (against ['DIV']) cannot be met through any other code unit
    below 256.  Beyond 255 it can: U+0131, the dotless i, has the upper
    case ['I']. *)
Definition toUpperCase (s : string) : string := map_string upper_ascii s.

Definition toLowerCase (s : string) : string := map_string lower_ascii s.

Fixpoint startsWith (p s : string) : bool :=
  match p, s with
  | EmptyString, _ => true
  | String a p', String b s' => Ascii.eqb a b && startsWith p' s'
  | String _ _, EmptyString => false
  end.

(** [s.includes(p)] *)
Fixpoint includes (p s : string) : bool :=
  startsWith p s ||
  match s with
  | EmptyString => false
  | String _ s' => includes p s'
  end.

(** [s.split(sep).length] for a one-character separator: one more than
    the number of separators. *)
Fixpoint split_length (sep : ascii) (s : string) : nat :=
  match s with
  | EmptyString => 1
  | String c s' => (if Ascii.eqb c sep then 1 else 0) + split_length sep s'
  end.

(** [s.split(re)] for a RegExp [re] of the form [[...]+] (a run of
    code units of the class [is_sep]): [cur] is the piece being read,
    [in_sep] tells that the previous code unit was a separator. *)
Fixpoint split_runs (is_sep : ascii -> bool) (in_sep : bool) (cur s : string)
  : list string :=
  match s with
  | EmptyString => [cur]
  | String c s' =>
      if is_sep c
      then (if in_sep then split_runs is_sep true EmptyString s'
            else cur :: split_runs is_sep true EmptyString s')
      else split_runs is_sep false (cur +:+ String c EmptyString) s'
  end.

(** The white-space separated tokens of [s] (the tokens of a [class]
    attribute). *)
Definition words (s : string) : list string :=
  List.filter (fun w => negb (String.eqb w EmptyString))
              (split_runs is_space false EmptyString s).

(** The part of [s] before the first [c], and the part after it when
    there is one. *)
Fixpoint cut (c : ascii) (s : string) : string * option string :=
  match s with
  | EmptyString => (EmptyString, None)
  | String a s' =>
      if Ascii.eqb a c then (EmptyString, Some s')
      else let '(before, after) := cut c s' in (String a before, after)
  end.

Definition join (l : list string) : string :=
  fold_right String.append EmptyString l.

End JsString.

(* ===================================================================== *)
(** ** JavaScript numbers *)
(* ===================================================================== *)

Module JsNumber.

(** The Number of a [nat] (exact below 2^53). *)
Definition of_nat (n : nat) : float :=
  PrimFloat.of_uint63 (Uint63.of_Z (Z.of_nat n)).

(** The Number of an integer (exact for |z| below 2^53). *)
Definition of_Z (z : Z) : float :=
  if (z <? 0)%Z
  then PrimFloat.opp (PrimFloat.of_uint63 (Uint63.of_Z (- z)))
  else PrimFloat.of_uint63 (Uint63.of_Z z).

(** The mathematical value of a StringNumericLiteral, before rounding:
    not a number, an infinity, or [(-1)^negative * mantissa * 10^exp10]. *)
Inductive literal : Type :=
| NotANumber
| Infinite (negative : bool)
| Decimal (negative : bool) (mantissa : N) (exp10 : Z).

Definition digit_value (c : ascii) : option N :=
  let n := nat_of_ascii c in
  if (48 <=? n) && (n <=? 57) then Some (N.of_nat (n - 48))
  else if (97 <=? n) && (n <=? 102) then Some (N.of_nat (n - 87))
  else if (65 <=? n) && (n <=? 70) then Some (N.of_nat (n - 55))
  else None.

(** The longest prefix of digits of [s] in the given base, read as a
    number continuing [acc]; with the count of digits and the rest. *)
Fixpoint digits (base : N) (acc : N) (count : nat) (s : string)
  : N * nat * string :=
  match s with
  | EmptyString => (acc, count, s)
  | String c s' =>
      match digit_value c with
      | Some v => if (v <? base)%N
                  then digits base (base * acc + v)%N (S count) s'
                  else (acc, count, s)
      | None => (acc, count, s)
      end
  end.

(** ExponentPart, then the end of the literal. *)
Definition exponent (negative : bool) (m : N) (e : Z) (s : string) : literal :=
  match s with
  | EmptyString => Decimal negative m e
  | String c s' =>
      if Ascii.eqb c "e" || Ascii.eqb c "E"
      then
        let '(neg_e, s'') :=
          match s' with
          | String "-" t => (true, t)
          | String "+" t => (false, t)
          | _ => (false, s')
          end in
        match digits 10 0 0 s'' with
        | (_, O, _) => NotANumber
        | (x, S _, EmptyString) =>
            Decimal negative m
              (if neg_e then e - Z.of_N x else e + Z.of_N x)%Z
        | (_, S _, String _ _) => NotANumber
        end
      else NotANumber
  end.

(** StrUnsignedDecimalLiteral *)
Definition unsigned_decimal (negative : bool) (s : string) : literal :=
  if String.eqb s "Infinity" then Infinite negative
  else
    let '(ip, n_ip, r1) := digits 10 0 0 s in
    match r1 with
    | String "." r2 =>
        let '(m, n_fp, r3) := digits 10 ip 0 r2 in
        if (n_ip =? 0) && (n_fp =? 0) then NotANumber
        else exponent negative m (- Z.of_nat n_fp)%Z r3
    | _ => if n_ip =? 0 then NotANumber else exponent negative ip 0%Z r1
    end.

(** NonDecimalIntegerLiteral: [0x], [0o], [0b] and their digits. *)
Definition non_decimal (base : N) (s : string) : literal :=
  match digits base 0 0 s with
  | (m, S _, EmptyString) => Decimal false m 0%Z
  | _ => NotANumber
  end.

(** StringToNumber, before rounding: the empty or white string is [+0]. *)
Definition literal_of_string (s : string) : literal :=
  match JsString.trim s with
  | EmptyString => Decimal false 0 0%Z
  | String "0" (String "x" t) | String "0" (String "X" t) => non_decimal 16 t
  | String "0" (String "o" t) | String "0" (String "O" t) => non_decimal 8 t
  | String "0" (String "b" t) | String "0" (String "B" t) => non_decimal 2 t
  | String "-" t => unsigned_decimal true t
  | String "+" t => unsigned_decimal false t
  | t => unsigned_decimal false t
  end.

(** [s < k] for a String [s] and a Number [k] that is an integer with
    [16 < k < 32] (the code compares with 25): the string is converted by
    ToNumber and the comparison is the one of Numbers; it is false for NaN.
    A positive value rounds (to nearest, ties to even) to a Number below
    [k] exactly when it is below [k - 2^-49], half-way between [k] and the
    Number before it. *)
Definition string_lt (s : string) (k : Z) : bool :=
  match literal_of_string s with
  | NotANumber => false
  | Infinite negative => negative
  | Decimal true _ _ => true
  | Decimal false m e =>
      let bound := (k * 2 ^ 49 - 1)%Z in
      if (0 <=? e)%Z
      then (Z.of_N m * 10 ^ e * 2 ^ 49 <? bound)%Z
      else (Z.of_N m * 2 ^ 49 <? bound * 10 ^ (- e))%Z
  end.

End JsNumber.

(* ===================================================================== *)
(** ** The document model behind the Cheerio handle *)
(* ===================================================================== *)

(** A markup string, read as the forest it denotes. *)
Inductive markup : Type :=
| MText (data : string)
| MComment (data : string)
| MElem (name : string) (attribs : list (string * string)) (children : list markup).

(** A node of the parsed document.  [uid] is the identity of the element
    object; [name] is the tag name as the parser stores it (lower case). *)
Inductive node : Type :=
| Text (data : string)
| Comment (data : string)
| Elem (uid : nat) (name : string) (attribs : list (string * string)) (children : list node).

(** The document behind [$]: the children of the root, the subtrees that
    [remove] and [replaceWith] have cut off (the code still holds references
    into them), and the next fresh identity. *)
Record dom : Type := mkDom {
  doc : list node;
  detached : list node;
  fresh : nat
}.

Definition forest (d : dom) : list node := doc d ++ detached d.

Module Dom.

Definition is_elem (n : node) : bool :=
  match n with Elem _ _ _ _ => true | _ => false end.

Definition is_comment (n : node) : bool :=
  match n with Comment _ => true | _ => false end.

Definition has_uid (u : nat) (n : node) : bool :=
  match n with Elem v _ _ _ => u =? v | _ => false end.

Definition uid_of (n : node) : list nat :=
  match n with Elem v _ _ _ => [v] | _ => [] end.

Definition name_of (n : node) : string :=
  match n with Elem _ nm _ _ => nm | _ => EmptyString end.

Definition children_of (n : node) : list node :=
  match n with Elem _ _ _ ch => ch | _ => [] end.

(** The identities of the elements of a tree, in document order. *)
Fixpoint uids (n : node) : list nat :=
  match n with
  | Elem v _ _ ch => v :: flat_map uids ch
  | _ => []
  end.

(** [attribs[key]]: [None] is [undefined]. *)
Fixpoint assoc (key : string) (l : list (string * string)) : option string :=
  match l with
  | [] => None
  | (k, v) :: l' => if String.eqb k key then Some v else assoc key l'
  end.

Definition attr_of (key : string) (n : node) : option string :=
  match n with Elem _ _ a _ => assoc key a | _ => None end.

(** The parser: every element it creates gets the next identity, in
    document order. *)
Fixpoint parse_node (m : markup) (next : nat) : node * nat :=
  match m with
  | MText s => (Text s, next)
  | MComment s => (Comment s, next)
  | MElem nm a ch =>
      let '(ch', next') :=
        (fix parse_list (l : list markup) (k : nat) : list node * nat :=
           match l with
           | [] => ([], k)
           | c :: l' =>
               let '(c', k1) := parse_node c k in
               let '(l'', k2) := parse_list l' k1 in
               (c' :: l'', k2)
           end) ch (S next) in
      (Elem next nm a ch', next')
  end.

Fixpoint parse (ms : list markup) (next : nat) : list node * nat :=
  match ms with
  | [] => ([], next)
  | c :: l' =>
      let '(c', k1) := parse_node c next in
      let '(l'', k2) := parse l' k1 in
      (c' :: l'', k2)
  end.

(** The serializer, [$.html(nodes)]. *)
Fixpoint serialize (n : node) : markup :=
  match n with
  | Text s => MText s
  | Comment s => MComment s
  | Elem _ nm a ch => MElem nm a (map serialize ch)
  end.

(** [cheerio.load(html, { xmlMode: true })]: the tree of the markup as it
    is written.  [cheerio.load(html)] builds this tree for the markup that
    its parser does not restructure. *)
Definition load (html : list markup) : dom :=
  let '(ns, k) := parse html 1 in mkDom ns [] k.

(** [$(e).text()]: the data of the text nodes below the node, in order. *)
Fixpoint text (n : node) : string :=
  match n with
  | Text s => s
  | Comment _ => EmptyString
  | Elem _ _ _ ch => fold_right (fun c acc => text c +:+ acc) EmptyString ch
  end.

(** The first element with identity [u] in a tree, in a forest. *)
Fixpoint lookup_in (u : nat) (n : node) : option node :=
  match n with
  | Elem v _ _ ch =>
      if u =? v then Some n
      else fold_right (fun c acc => match lookup_in u c with
                                 | Some r => Some r
                                 | None => acc
                                 end) None ch
  | _ => None
  end.

Definition lookup (u : nat) (l : list node) : option node :=
  fold_right (fun c acc => match lookup_in u c with
                        | Some r => Some r
                        | None => acc
                        end) None l.

(** The element behind a reference. *)
Definition get (d : dom) (u : nat) : option node := lookup u (forest d).

(** The identity of the element of which [u] is a child. *)
Fixpoint parent_in (u : nat) (n : node) : option nat :=
  match n with
  | Elem v _ _ ch =>
      if existsb (has_uid u) ch then Some v
      else fold_right (fun c acc => match parent_in u c with
                                 | Some r => Some r
                                 | None => acc
                                 end) None ch
  | _ => None
  end.

Definition parent (d : dom) (u : nat) : option nat :=
  fold_right (fun c acc => match parent_in u c with
                        | Some r => Some r
                        | None => acc
                        end) None (forest d).

(** The elements above [u], the nearest first. *)
Fixpoint ancestors_in (u : nat) (n : node) : option (list node) :=
  match n with
  | Elem v _ _ ch =>
      if existsb (has_uid u) ch then Some [n]
      else fold_right (fun c acc => match ancestors_in u c with
                                 | Some r => Some (r ++ [n])
                                 | None => acc
                                 end) None ch
  | _ => None
  end.

Definition ancestors (d : dom) (u : nat) : list node :=
  fold_right (fun c acc => match ancestors_in u c with
                        | Some r => r
                        | None => acc
                        end) [] (forest d).

(** A tree without the elements of identity [u] below its root. *)
Fixpoint remove_in (u : nat) (n : node) : node :=
  match n with
  | Elem v nm a ch =>
      Elem v nm a (flat_map (fun c => if has_uid u c then [] else [remove_in u c]) ch)
  | _ => n
  end.

(** The children of the root are children too. *)
Definition remove_top (u : nat) (l : list node) : list node :=
  flat_map (fun c => if has_uid u c then [] else [remove_in u c]) l.

(** The element [u] when it has a parent: below the root of the
    document, or inside a detached subtree. *)
Definition attached (d : dom) (u : nat) : option node :=
  match lookup u (doc d) with
  | Some n => Some n
  | None => lookup u (flat_map children_of (detached d))
  end.

(** [$(e).remove()] for one element: it leaves the children of its
    parent; an element without a parent stays as it is. *)
Definition remove (d : dom) (u : nat) : dom :=
  match attached d u with
  | None => d
  | Some n =>
      mkDom (remove_top u (doc d))
            (map (remove_in u) (detached d) ++ [n])
            (fresh d)
  end.

(** [$(selection).remove()]: one element after the other. *)
Definition remove_all (d : dom) (us : list nat) : dom := fold_left remove us d.

(** A tree in which the nodes [new] stand where the elements of
    identity [u] stood. *)
Fixpoint replace_in (u : nat) (new : list node) (n : node) : node :=
  match n with
  | Elem v nm a ch =>
      Elem v nm a (flat_map (fun c => if has_uid u c then new
                                   else [replace_in u new c]) ch)
  | _ => n
  end.

Definition replace_top (u : nat) (new : list node) (l : list node) : list node :=
  flat_map (fun c => if has_uid u c then new else [replace_in u new c]) l.

(** [$(e).replaceWith(content)], the content parsed. *)
Definition replaceWith (d : dom) (u : nat) (content : list markup) : dom :=
  match attached d u with
  | None => d
  | Some n =>
      let '(new, k) := parse content (fresh d) in
      mkDom (replace_top u new (doc d))
            (map (replace_in u new) (detached d) ++ [n])
            k
  end.

(** A tree in which the children of the elements of identity [u] are
    changed by [f]. *)
Fixpoint alter_in (u : nat) (f : list node -> list node) (n : node) : node :=
  match n with
  | Elem v nm a ch =>
      let ch' := map (alter_in u f) ch in
      Elem v nm a (if u =? v then f ch' else ch')
  | _ => n
  end.

Definition alter_children (d : dom) (u : nat) (f : list node -> list node) : dom :=
  mkDom (map (alter_in u f) (doc d)) (map (alter_in u f) (detached d)) (fresh d).

(** [$(e).prepend(content)] and [$(e).append(content)]: the content is
    parsed as it is written, as htmlparser2 does (the default parser puts
    a cell that stands outside a row in a [<tr>]). *)
Definition prepend (d : dom) (u : nat) (content : list markup) : dom :=
  let '(new, k) := parse content (fresh d) in
  let d' := alter_children d u (fun ch => new ++ ch) in
  mkDom (doc d') (detached d') k.

Definition append (d : dom) (u : nat) (content : list markup) : dom :=
  let '(new, k) := parse content (fresh d) in
  let d' := alter_children d u (fun ch => ch ++ new) in
  mkDom (doc d') (detached d') k.

(** The comment children of every element of a tree are dropped. *)
Fixpoint drop_comments (n : node) : node :=
  match n with
  | Elem v nm a ch =>
      Elem v nm a (flat_map (fun c => if is_comment c then [] else [drop_comments c]) ch)
  | _ => n
  end.

End Dom.

(* ===================================================================== *)
(** ** Selectors and selections *)
(* ===================================================================== *)

Module Selector.

(** The selectors the module uses: a tag name, [.class], [#id],
    [tag[attr=value]] (or [tag[attr]]), [*]; and lists of them separated
    by commas.  A string outside this grammar is read as a tag name no
    element has: it selects nothing. *)
Inductive simple : Type :=
| Tag (name : string)
| Class (token : string)
| Id (id : string)
| TagAttr (tag attr : string) (val : option string)
| Any.

Definition parse_simple (s : string) : simple :=
  match JsString.trim s with
  | String "." c => Class c
  | String "#" i => Id i
  | String "*" EmptyString => Any
  | t =>
      match JsString.cut "[" t with
      | (_, None) => Tag (JsString.toLowerCase t)
      | (tag, Some rest) =>
          match JsString.cut "=" rest with
          | (a, None) => TagAttr (JsString.toLowerCase tag) (fst (JsString.cut "]" a)) None
          | (a, Some v) => TagAttr (JsString.toLowerCase tag) a (Some (fst (JsString.cut "]" v)))
          end
      end
  end.

Definition parse (s : string) : list simple :=
  map parse_simple (JsString.split_runs (fun c => Ascii.eqb c ",") false EmptyString s).

Definition option_eqb (a b : option string) : bool :=
  match a, b with
  | Some x, Some y => String.eqb x y
  | None, None => true
  | _, _ => false
  end.

Definition matches_simple (n : node) (s : simple) : bool :=
  Dom.is_elem n &&
  match s with
  | Tag t => negb (String.eqb t EmptyString) && String.eqb (Dom.name_of n) t
  | Class c =>
      match Dom.attr_of "class" n with
      | Some cl => existsb (String.eqb c) (JsString.words cl)
      | None => false
      end
  | Id i => option_eqb (Dom.attr_of "id" n) (Some i)
  | TagAttr t a v =>
      (String.eqb t EmptyString || String.eqb (Dom.name_of n) t) &&
      match v with
      | Some _ => option_eqb (Dom.attr_of a n) v
      | None => match Dom.attr_of a n with Some _ => true | None => false end
      end
  | Any => true
  end.

Definition matches (sel : list simple) (n : node) : bool :=
  existsb (matches_simple n) sel.

End Selector.

Module Cheerio.

(** The elements of a tree that match [sel] and stand below an element
    of [ctx] ([inside] tells that such an element has been passed), in
    document order, each once. *)
Fixpoint find_in (sel : list Selector.simple) (ctx : list nat) (inside : bool) (n : node)
  : list nat :=
  match n with
  | Elem v _ _ ch =>
      (if inside && Selector.matches sel n then [v] else []) ++
      flat_map (find_in sel ctx (inside || existsb (Nat.eqb v) ctx)) ch
  | _ => []
  end.

(** [$(selector)]: the elements of the document that match. *)
Definition select (d : dom) (selector : string) : list nat :=
  flat_map (find_in (Selector.parse selector) [] true) (doc d).

(** [selection.find(selector)] *)
Definition find (d : dom) (selection : list nat) (selector : string) : list nat :=
  flat_map (find_in (Selector.parse selector) selection false) (forest d).

Definition node_children (d : dom) (u : nat) : list node :=
  match Dom.get d u with
  | Some n => Dom.children_of n
  | None => []
  end.

(** [$(e).children()]: the element children. *)
Definition children (d : dom) (u : nat) : list nat :=
  flat_map Dom.uid_of (node_children d u).

(** [$(e).children(selector)] *)
Definition children_matching (d : dom) (u : nat) (selector : string) : list nat :=
  flat_map Dom.uid_of
    (List.filter (Selector.matches (Selector.parse selector)) (node_children d u)).

(** [selection.children()] *)
Definition children_all (d : dom) (selection : list nat) : list nat :=
  flat_map (children d) selection.

(** [selection.first()] *)
Definition first (selection : list nat) : list nat :=
  match selection with
  | [] => []
  | u :: _ => [u]
  end.

(** [$(e).parents(selector)] *)
Definition parents (d : dom) (u : nat) (selector : string) : list nat :=
  flat_map Dom.uid_of
    (List.filter (Selector.matches (Selector.parse selector)) (Dom.ancestors d u)).

(** [$(e).text()] *)
Definition text (d : dom) (u : nat) : string :=
  match Dom.get d u with
  | Some n => Dom.text n
  | None => EmptyString
  end.

(** [selection.text()]: the texts of its elements, one after the other. *)
Definition text_all (d : dom) (selection : list nat) : string :=
  JsString.join (map (text d) selection).

(** [e.name] *)
Definition name (d : dom) (u : nat) : string :=
  match Dom.get d u with
  | Some n => Dom.name_of n
  | None => EmptyString
  end.

(** [$(e).attr(key)]; [None] is [undefined]. *)
Definition attr (d : dom) (u : nat) (key : string) : option string :=
  match Dom.get d u with
  | Some n => Dom.attr_of key n
  | None => None
  end.

(** [selection.attr(key)]: of the first element. *)
Definition attr_first (d : dom) (selection : list nat) (key : string) : option string :=
  match selection with
  | [] => None
  | u :: _ => attr d u key
  end.

(** [selection.html()]: the markup inside the first element; [None] is
    the [null] of an empty selection. *)
Definition html (d : dom) (selection : list nat) : option (list markup) :=
  match selection with
  | [] => None
  | u :: _ =>
      match Dom.get d u with
      | Some n => Some (map Dom.serialize (Dom.children_of n))
      | None => None
      end
  end.

(** [`${h}`] for the result of [html()]: [null] prints as the text
    ["null"]. *)
Definition interpolate (h : option (list markup)) : list markup :=
  match h with
  | Some ms => ms
  | None => [MText "null"]
  end.

(** [`${s}`] for a text without markup characters, as markup: a text that
    holds [<] is parsed into elements by [replaceWith], and is outside
    what this definition covers. *)
Definition text_markup (s : string) : list markup :=
  if String.eqb s EmptyString then [] else [MText s].

(** [$('*').contents().filter((i, e) => e.type === 'comment').remove()] *)
Definition remove_comments (d : dom) : dom :=
  mkDom (map Dom.drop_comments (doc d)) (detached d) (fresh d).

End Cheerio.

(* ===================================================================== *)
(** ** Outcomes: a value, or a thrown exception *)
(* ===================================================================== *)

Inductive exn : Type :=
| Error (message : string)
| TypeError.

Inductive outcome (A : Type) : Type :=
| Return (a : A)
| Throw (e : exn).

Arguments Return {A} a.
Arguments Throw {A} e.

#[global] Instance outcome_bind : MBind outcome :=
  fun A B f m => match m with Return a => f a | Throw e => Throw e end.

#[global] Instance outcome_ret : MRet outcome := fun A a => Return a.

(** A loop [list.each(body)] whose body may throw. *)
Fixpoint each {S A : Type} (body : S -> A -> outcome S) (l : list A) (s : S) : outcome S :=
  match l with
  | [] => Return s
  | x :: l' => s' ← body s x; each body l' s'
  end.

(* ===================================================================== *)
(** ** src/index.js *)
(* ===================================================================== *)

Definition HEADERS : string := "h1,h2,h3,h4,h5,h6,h7".
Definition DIV_ARTICLE : string := "article,.article,#article,section,table,.container".
Definition BASIC_CONTENT : string := "p,h1,h2,h3,h4,h5,h6,h7".
Definition BAD_TAGS : string := "script,link,header,style,noscript,object,footer,nav,iframe,br,svg".

Definition N0T_A_GOOD_CLASS : string :=
  ".combx,.comment,.disqus,.foot,.header,.menu,.meta,.nav,.rss,.shoutbox,.sidebar,.sponsor,.ssba,.bctt-click-to-tweet,.promo,.promotion".
Definition N0T_A_GOOD_ID : string :=
  "#combx,#comments,#disqus,#foot,#header,#menu,#meta,#nav,#rss,#shoutbox,#sidebar,#sponsor,#promo,#promotion,#ads".

Definition CLASS_WEIGHT : float := 25.
Definition MIN_LINK_DENSITY : float := 0x1.51eb851eb851fp-2. (* 0.33 *)
Definition VERY_GOOD_SCORE : float := 5.
Definition GOOD_SCORE : float := 3.
Definition BAD_SCORE : float := -3.
Definition VERY_BAD_SCORE : float := -5.

Definition HALF : float := 2.
Definition NBR_CHARS : nat := 100.
Definition EXTRA_SCORE : nat := 3.

Definition MIN_CHARS : Z := 25.

Definition HTML : string := "html".
Definition MD : string := "md".
Definition TXT : string := "txt".

(** [REGEX.positiveRe] and [REGEX.negativeRe]: alternatives of plain words,
    case-insensitive. *)
Definition positiveRe : list string :=
  ["article"; "body"; "content"; "entry"; "hentry"; "page"; "pagination"; "post"; "text"].
Definition negativeRe : list string :=
  ["combx"; "comment"; "contact"; "foot"; "footer"; "footnote"; "link"; "media"; "meta";
   "promo"; "related"; "scroll"; "shoutbox"; "sponsor"; "tags"; "widget"].

(** [s.search(re) !== -1] for such a RegExp. *)
Definition search (re : list string) (s : string) : bool :=
  existsb (fun w => JsString.includes w (JsString.toLowerCase s)) re.

(** The values an option holds. *)
Inductive value : Type :=
| VBool (b : bool)
| VString (s : string).

(** The truth of [options.key]: [None] is [undefined]. *)
Definition truthy (v : option value) : bool :=
  match v with
  | None => false
  | Some (VBool b) => b
  | Some (VString s) => negb (String.eqb s EmptyString)
  end.

(** Every object is truthy, a Cheerio selection too, empty or not. *)
Definition object_truthy {A : Type} (_ : A) : bool := true.

Definition defaultOptions : gmap string value :=
  list_to_map
    [("useFirstH1", VBool true);
     ("removeH1FromContent", VBool true);
     ("removeHeadersWithoutText", VBool true);
     ("removeImages", VBool true);
     ("removeFigcaptions", VBool true);
     ("replaceLinks", VBool true);
     ("removeForm", VBool false);
     ("removeEmptyTag", VBool false)].

(** [{ ...o, ...defaultOptions }]: the properties of [o], then those of
    [defaultOptions] over them. *)
Definition merge_options (o : gmap string value) : gmap string value :=
  defaultOptions ∪ o.

Record image : Type := mkImage { src : option string; alt : option string }.
Record link : Type := mkLink { href : option string; link_text : string }.
Record header : Type := mkHeader { type : string; header_text : string }.

(** [result.content]: the markup, the text, or the markdown the external
    converter makes of the markup. *)
Inductive content : Type :=
| Markup (html : list markup)
| PlainText (s : string)
| Markdown (html : list markup).

Record ExtractionResult : Type := mkResult {
  title : option string;
  description : option string;
  h1 : option string;
  images : list image;
  links : list link;
  headers : list header;
  result_content : content
}.

Definition removeLineBreakTabs {A : Type} (str : A) : A := str.

Definition removeExtraChars (s : string) : string :=
  JsString.trim (JsString.collapse_spaces false s).

Definition getLinkDensity (d : dom) (element : nat) : float :=
  let textLength := String.length (removeExtraChars (Cheerio.text d element)) in
  let linkLength :=
    fold_left (fun linkLength a => linkLength + String.length (Cheerio.text d a))
              (Cheerio.find d [element] "a") 0 in
  (JsNumber.of_nat linkLength / JsNumber.of_nat textLength)%float.

Definition getClassWeight (d : dom) (element : nat) : float :=
  let weight := 0%float in
  let weight :=
    match Cheerio.attr d element "class" with
    | Some c =>
        if negb (String.eqb c EmptyString) then
          let weight := if search negativeRe c then (weight - CLASS_WEIGHT)%float else weight in
          if search positiveRe c then (weight + CLASS_WEIGHT)%float else weight
        else weight
    | None => weight
    end in
  match Cheerio.attr d element "id" with
  | Some id =>
      if negb (String.eqb id EmptyString) then
        let weight := if search negativeRe id then (weight - CLASS_WEIGHT)%float else weight in
        if search positiveRe id then (weight + CLASS_WEIGHT)%float else weight
      else weight
  | None => weight
  end.

Definition includes (l : list string) (x : string) : bool := existsb (String.eqb x) l.

Definition getContentScore (elementName : string) : float :=
  if String.eqb (JsString.toUpperCase elementName) "DIV" then VERY_GOOD_SCORE
  else if includes ["PRE"; "TD"; "BLOCKQUOTE"] elementName then GOOD_SCORE
  else if includes ["ADDRESS"; "OL"; "UL"; "DL"; "DD"; "DT"; "LI"; "FORM"] elementName then BAD_SCORE
  else if includes ["H1"; "H2"; "H3"; "H4"; "H5"; "H6"; "TH"] elementName then VERY_BAD_SCORE
  else 0%float.

(** [e.readability = { contentScore: ... }; e.readability.contentScore += ...] *)
Definition initializeElement (d : dom) (readability : gmap nat float) (e : nat)
  : gmap nat float :=
  let readability := <[e := getContentScore (Cheerio.name d e)]> readability in
  alter (fun contentScore => (contentScore + getClassWeight d e)%float) e readability.

(** What the scoring pass holds: the document, the [readability] of the
    nodes and the array [candidates]. *)
Record scoring : Type := mkScoring {
  page : dom;
  readability : gmap nat float;
  candidates : list nat
}.

(** The body of the loop of [findGoodCandidates], for one [<p>]. *)
Definition scoreParagraph (st : scoring) (p : nat) : outcome scoring :=
  let d := page st in
  let d := if String.length (Cheerio.text d p) =? 0 then Dom.remove d p else d in
  if JsNumber.string_lt (Cheerio.text d p) MIN_CHARS
  then Return (mkScoring d (readability st) (candidates st))
  else
    let '(r, cs) :=
      match readability st !! p with
      | None => (initializeElement d (readability st) p, candidates st ++ [p])
      | Some _ => (readability st, candidates st)
      end in
    match Dom.parent d p with
    | None => Throw TypeError
    | Some parent =>
        let '(r, cs) :=
          match r !! parent with
          | None => (initializeElement d r parent, cs ++ [parent])
          | Some _ => (r, cs)
          end in
        let contentScore := 1 in
        let text := Cheerio.text d p in
        let contentScore := contentScore + JsString.split_length "," text in
        let contentScore :=
          contentScore + Nat.min (String.length text / NBR_CHARS) EXTRA_SCORE in
        let r := alter (fun s => (s + JsNumber.of_nat contentScore)%float) p r in
        let r := alter (fun s => (s + JsNumber.of_nat contentScore / HALF)%float) parent r in
        Return (mkScoring d r cs)
    end.

Definition findGoodCandidates (d : dom) : outcome scoring :=
  each scoreParagraph (Cheerio.find d (Cheerio.select d "body") "p") (mkScoring d ∅ []).

(** The body of the loop of [getTopCandidate]: the stored score of [c] is
    overwritten, then compared with the stored score of the top. *)
Definition scaleCandidate (d : dom) (st : option nat * gmap nat float) (c : nat)
  : outcome (option nat * gmap nat float) :=
  let '(topCandidate, r) := st in
  match r !! c with
  | None => Throw TypeError
  | Some contentScore =>
      let r := <[c := (contentScore * (1 - getLinkDensity d c))%float]> r in
      match topCandidate with
      | None => Return (Some c, r)
      | Some t =>
          match r !! c, r !! t with
          | Some sc, Some stop =>
              Return (if PrimFloat.ltb stop sc then Some c else Some t, r)
          | _, _ => Throw TypeError
          end
      end
  end.

Definition getTopCandidate (d : dom) (r : gmap nat float) (candidates : list nat)
  : outcome (option nat * gmap nat float) :=
  each (scaleCandidate d) candidates (None, r).

Definition nbrParas (d : dom) (s : nat) : nat := length (Cheerio.find d [s] "p").

(** The body of the loop of [findArticle]. *)
Definition selectSection (d : dom) (selectedSection : option nat * nat) (s : nat)
  : option nat * nat :=
  let nbrParas := nbrParas d s in
  if snd selectedSection <? nbrParas then (Some s, nbrParas) else selectedSection.

Definition findArticle (d : dom) : option nat :=
  let selectedSection := (None, 0) in
  let sectionTags := Cheerio.find d (Cheerio.select d "body") DIV_ARTICLE in
  let selectedSection :=
    if 0 <? length sectionTags
    then fold_left (selectSection d) sectionTags selectedSection
    else selectedSection in
  fst selectedSection.

(** The element found ([None] is [null]), and the state the search left. *)
Definition findContentSection (d : dom) : outcome (option nat * scoring) :=
  match findArticle d with
  | Some article => Return (Some article, mkScoring d ∅ [])
  | None =>
      st ← findGoodCandidates d;
      '(topCandidate, r) ← getTopCandidate (page st) (readability st) (candidates st);
      Return (topCandidate, mkScoring (page st) r (candidates st))
  end.

(** [$('title') ? removeLineBreakTabs($('title').text()) : null] *)
Definition getTitle (d : dom) : option string :=
  if object_truthy (Cheerio.select d "title")
  then Some (removeLineBreakTabs (Cheerio.text_all d (Cheerio.select d "title")))
  else None.

(** The [content] of the first [meta[name=description]]; [None] is
    [undefined]. *)
Definition getDescription (d : dom) : option string :=
  if object_truthy (Cheerio.select d "meta[name=description]")
  then removeLineBreakTabs (Cheerio.attr_first d (Cheerio.select d "meta[name=description]") "content")
  else None.

(** [h1s.shift()] of the texts pushed; [None] is [undefined]. *)
Definition getFirstH1 (d : dom) : option string :=
  let h1s :=
    fold_left (fun h1s h1 =>
                 let text := removeLineBreakTabs (Cheerio.text d h1) in
                 if negb (String.eqb text EmptyString) then h1s ++ [text] else h1s)
              (Cheerio.find d (Cheerio.select d "body") "h1") [] in
  head h1s.

Definition getH1 (d : dom) (useFirstH1 : option value) : option string :=
  let nbrH1 := length (Cheerio.find d (Cheerio.select d "body") "h1") in
  if nbrH1 =? 0 then Some EmptyString
  else if (nbrH1 =? 1) || truthy useFirstH1 then getFirstH1 d
  else Some EmptyString.

(** [removeTags]: [split] is a method of strings only. *)
Definition removeTags (d : dom) (tagsToRemoves : option value) : outcome dom :=
  match tagsToRemoves with
  | Some (VString s) =>
      let tags :=
        JsString.split_runs (fun c => Ascii.eqb c "010" || Ascii.eqb c ",") false EmptyString s in
      Return (fold_left (fun d tag =>
                           Dom.remove_all d (Cheerio.find d (Cheerio.select d "body") tag))
                        tags d)
  | _ => Throw TypeError
  end.

Definition removeHeadersWithoutText (d : dom) : dom :=
  fold_left (fun d header =>
               if PrimFloat.ltb (getClassWeight d header) 0
                  || PrimFloat.ltb MIN_LINK_DENSITY (getLinkDensity d header)
               then Dom.remove d header
               else d)
            (Cheerio.find d (Cheerio.select d "body") HEADERS) d.

Definition cleanHTML (d : dom) (options : gmap string value) : outcome dom :=
  d ← (if truthy (options !! "removeTags")
       then removeTags d (options !! "removeTags")
       else Return d);
  let d :=
    Dom.remove_all d
      (Cheerio.find d (Cheerio.select d "body")
         (BAD_TAGS +:+ (if truthy (options !! "removeForm") then ",form" else ""))) in
  let d := Dom.remove_all d (Cheerio.find d (Cheerio.select d "body") N0T_A_GOOD_CLASS) in
  let d := Dom.remove_all d (Cheerio.find d (Cheerio.select d "body") N0T_A_GOOD_ID) in
  let d := Cheerio.remove_comments d in
  Return (if truthy (options !! "removeHeadersWithoutText")
          then removeHeadersWithoutText d
          else d).

Definition findImages (d : dom) (contentSection : list nat) (options : gmap string value)
  : list image * dom :=
  let images :=
    fold_left (fun images img =>
                 images ++ [mkImage (Cheerio.attr d img "src") (Cheerio.attr d img "alt")])
              (Cheerio.find d contentSection "img") [] in
  (images,
   if truthy (options !! "removeImages")
   then Dom.remove_all d (Cheerio.find d (Cheerio.select d "body") "img")
   else d).

Definition findLinks (d : dom) (contentSection : list nat) (options : gmap string value)
  : list link * dom :=
  fold_left (fun acc a =>
               let '(links, d) := acc in
               let links :=
                 links ++ [mkLink (removeLineBreakTabs (Cheerio.attr d a "href"))
                                  (removeLineBreakTabs (Cheerio.text d a))] in
               (links,
                if truthy (options !! "replaceLinks")
                then Dom.replaceWith d a
                       (Cheerio.text_markup (removeLineBreakTabs (Cheerio.text d a)))
                else d))
            (Cheerio.find d contentSection "a") ([], d).

Definition findHeaders (d : dom) (contentSection : list nat) : list header :=
  fold_left (fun headers header =>
               let text := removeLineBreakTabs (Cheerio.text d header) in
               if negb (String.eqb text EmptyString)
                  && negb (String.eqb (JsString.trim text) EmptyString)
               then headers ++ [mkHeader (Cheerio.name d header) text]
               else headers)
            (Cheerio.find d contentSection HEADERS) [].

Definition removeH1FromContent (d : dom) (contentSection : list nat) : dom :=
  let h1 := Cheerio.find d contentSection "h1" in
  if length h1 =? 1 then Dom.remove_all d h1 else d.

(** [firstElement['0'].name] throws when the table has no element child. *)
Definition addTableHeader (d : dom) (t : nat) : outcome dom :=
  let d := Dom.remove_all d (Cheerio.find d [t] "caption") in
  let firstElement := Cheerio.first (Cheerio.children d t) in
  match firstElement with
  | [] => Throw TypeError
  | e0 :: _ =>
      if String.eqb (Cheerio.name d e0) "tbody" then
        let firstRow := Cheerio.first (Cheerio.children_all d firstElement) in
        let d := Dom.prepend d t [MElem "thead" [] (Cheerio.interpolate (Cheerio.html d firstRow))] in
        Return (Dom.remove_all d firstRow)
      else
        let headerHtml := Cheerio.html d firstElement in
        let d := Dom.remove_all d firstElement in
        let rows := Cheerio.html d (Cheerio.children d t) in
        let d := Dom.remove_all d (Cheerio.children d t) in
        Return (Dom.append d t [MElem "thead" [] (Cheerio.interpolate headerHtml);
                                MElem "tbody" [] (Cheerio.interpolate rows)])
  end.

Definition cleanContent (d : dom) (contentSection : list nat) (options : gmap string value)
  : outcome dom :=
  let d := if truthy (options !! "removeH1FromContent")
           then removeH1FromContent d contentSection else d in
  let d := if truthy (options !! "removeImages") && truthy (options !! "removeFigcaptions")
           then fold_left Dom.remove (Cheerio.find d contentSection "figcaption") d
           else d in
  let d := if truthy (options !! "removeEmptyTag")
           then fold_left (fun d dv =>
                             if length (Cheerio.children_matching d dv BASIC_CONTENT) =? 0
                             then Dom.remove d dv else d)
                          (Cheerio.find d contentSection "div") d
           else d in
  let d := fold_left (fun d dv =>
                        if length (Cheerio.children d dv) =? 0
                        then Dom.remove d dv else d)
                     (Cheerio.find d contentSection "div") d in
  let d := fold_left (fun d s =>
                        let parents := Cheerio.parents d s "p" in
                        if object_truthy parents && (length parents =? 0)
                        then Dom.remove d s else d)
                     (Cheerio.find d contentSection "span") d in
  each (fun d t =>
          if length (Cheerio.find d [t] "thead") =? 0
          then addTableHeader d t
          else Return d)
       (Cheerio.find d contentSection "table") d.

Definition getCleanText (d : dom) (contentSection : list nat) : string :=
  let paragraphs :=
    fold_left (fun paragraphs p => paragraphs ++ [Cheerio.text d p])
              (Cheerio.find d contentSection "p") [] in
  JsString.trim (JsString.join paragraphs).

(** [$(options.htmlSelector)]: the elements a selector string selects; a
    truthy value that is not a string selects nothing. *)
Definition select_value (d : dom) (v : option value) : list nat :=
  match v with
  | Some (VString selector) => Cheerio.select d selector
  | _ => []
  end.

(** [$(e)] for an element or [null]: [$(null)] is the empty selection. *)
Definition wrap (e : option nat) : list nat :=
  match e with
  | Some u => [u]
  | None => []
  end.

(** Lines 92-100: [content] starts as [null] ([None]); both branches of
    the [if] store a Cheerio selection in it, and [content ? content :
    $('body')] keeps every object, the empty selection too. *)
Definition locate (d : dom) (options : gmap string value) : outcome (list nat * dom) :=
  let content : option (list nat) := None in
  '(content, d) ←
     (if truthy (options !! "htmlSelector")
      then Return (Some (select_value d (options !! "htmlSelector")), d)
      else '(section, st) ← findContentSection d;
           Return (Some (wrap section), page st));
  let content :=
    match content with
    | Some selection => if object_truthy selection then selection else Cheerio.select d "body"
    | None => Cheerio.select d "body"
    end in
  Return (content, d).

Definition content_not_found : exn :=
  Error "Impossible to find the main content, try with an HTML selector".

Definition findContent (d : dom) (type : string) (o : gmap string value)
  : outcome ExtractionResult :=
  let options := merge_options o in
  let title := getTitle d in
  let description := getDescription d in
  let h1 := getH1 d (options !! "useFirstH1") in
  d ← cleanHTML d options;
  '(content, d) ← locate d options;
  let '(images, d) := findImages d content options in
  let '(links, d) := findLinks d content options in
  let headers := findHeaders d content in
  d ← cleanContent d content options;
  match Cheerio.html d content with
  | None => Throw content_not_found
  | Some html =>
      Return (mkResult title description h1 images links headers
                (if String.eqb type MD then Markdown html
                 else if String.eqb type TXT then PlainText (getCleanText d content)
                 else Markup html))
  end.

(* ===================================================================== *)
(** ** Vocabulary of the statements *)
(* ===================================================================== *)

(** The texts of the [<h1>] of the body, in document order. *)
Definition h1_texts (d : dom) : list string :=
  map (Cheerio.text d) (Cheerio.find d (Cheerio.select d "body") "h1").

Definition nonempty (s : string) : bool := negb (String.eqb s EmptyString).

(** [t] is the first text of [texts] that is not the empty string. *)
Definition first_nonempty (texts : list string) (t : string) : Prop :=
  exists i, texts !! i = Some t /\ t <> EmptyString /\
            forall j, j < i -> texts !! j = Some EmptyString.

(** The elements of the body that match [DIV_ARTICLE], in document order. *)
Definition sectionTags (d : dom) : list nat :=
  Cheerio.find d (Cheerio.select d "body") DIV_ARTICLE.

(** [s] is the first of the elements of [tags] that have the greatest
    count [f]. *)
Definition first_greatest (f : nat -> nat) (tags : list nat) (s : nat) : Prop :=
  exists i, tags !! i = Some s /\
            (forall j s', tags !! j = Some s' -> f s' <= f s) /\
            (forall j s', j < i -> tags !! j = Some s' -> f s' < f s).

(** The scoring fallback of [findContentSection] (its lines 453-457). *)
Definition scoringFallback (d : dom) : outcome (option nat * scoring) :=
  st ← findGoodCandidates d;
  '(topCandidate, r) ← getTopCandidate (page st) (readability st) (candidates st);
  Return (topCandidate, mkScoring (page st) r (candidates st)).

(** The score [getTopCandidate] stores for [c] in place of [contentScore]. *)
Definition scaled (d : dom) (c : nat) (contentScore : float) : float :=
  (contentScore * (1 - getLinkDensity d c))%float.

(** The candidates are the elements that have a score record, each once. *)
Definition scored (r : gmap nat float) (cs : list nat) : Prop :=
  NoDup cs /\ forall c, c ∈ cs <-> is_Some (r !! c).

(** No two elements have the same identity. *)
Definition unique (d : dom) : Prop := NoDup (flat_map Dom.uids (forest d)).

(** The parser numbers the elements it creates from [next] on, without a
    gap. *)
Definition numbered (uids_of : list nat) (next next' : nat) : Prop :=
  next <= next' /\ uids_of = seq next (next' - next).

(** What [findImages] records for one [<img>]. *)
Definition image_of (d : dom) (img : nat) : image :=
  mkImage (Cheerio.attr d img "src") (Cheerio.attr d img "alt").

(** Pages the statements below are checked on.  [html_body] numbers
    [<html>] 1 and [<body>] 2; the elements inside follow from 3, in
    document order. *)
Module Pages.

Definition el (name : string) (children : list markup) : markup := MElem name [] children.

Definition html_body (children : list markup) : dom :=
  Dom.load [el "html" [el "body" children]].

Definition row (s : string) : markup := el "tr" [el "td" [MText s]].

Definition article_form_image : dom :=
  html_body [el "article" [el "p" [MText "x"]; el "form" [MText "f"];
                           MElem "img" [("src", "a.png")] []]].

Definition no_paragraph : dom := html_body [el "div" [MText "no paragraph"]].

Definition section_without_paragraph : dom :=
  html_body [el "section" []; el "div" [el "p" [MText "Some text, long enough"]]].

Definition two_sections : dom :=
  html_body [el "section" [el "p" [MText "a"]];
             el "article" [el "p" [MText "b"]; el "p" [MText "c"]];
             el "section" [el "p" [MText "d"]; el "p" [MText "e"]]].

Definition short_paragraphs : dom :=
  html_body [el "div" [el "p" [MText "Hello"]; el "p" []; el "p" [MText "12"]]].

Definition linked_paragraph : dom :=
  html_body [el "div" [el "p" [el "a" [MText "one, two"]; MText ", three!"]]].

(** The rows stand directly under [<table>]: the tree of a handle of
    htmlparser2.  (The default parser wraps them in a [<tbody>], which
    gives [three_rows_in_tbody].) *)
Definition three_rows : dom :=
  html_body [el "article" [el "p" [MText "x"]; el "table" [row "H"; row "1"; row "2"]]].

Definition three_rows_in_tbody : dom :=
  html_body [el "article" [el "p" [MText "x"];
                           el "table" [el "tbody" [row "H"; row "1"; row "2"]]]].

Definition padded_h1 : dom := html_body [el "h1" [MText " Hi "]].

Definition two_h1 : dom := html_body [el "h1" []; el "h1" [MText "Second"]].

Definition empty_table : dom :=
  html_body [el "article" [el "p" [MText "x"]; el "table" []]].

Definition image_outside_article : dom :=
  html_body [el "article" [el "p" [MText "x"]; MElem "img" [("src", "in.png")] []];
             MElem "img" [("src", "out.png"); ("alt", "A")] []].

Definition spaced_anchor : dom := html_body [el "div" [el "p" [el "a" [MText "a    b"]]]].

(** The scenarios of the specification (section 8). *)
Definition article_scenario : dom :=
  html_body [el "article" [el "p" [MText "A short line with, one comma, repeated enough to exceed twenty five characters easily."]]].

Definition sidebar_scenario : dom :=
  html_body [MElem "div" [("class", "sidebar")] [el "p" [MText "side"]];
             el "div" [el "p" [MText "main text, which is long enough for the scoring pass to consider it."]]].

End Pages.

(** A string of white space only; the empty string is one. *)
Fixpoint all_space (s : string) : bool :=
  match s with
  | EmptyString => true
  | String c s' => JsString.is_space c && all_space s'
  end.

(** Two results that differ in their content at most. *)
Definition same_but_content (r r' : ExtractionResult) : Prop :=
  title r = title r' /\ description r = description r' /\ h1 r = h1 r' /\
  images r = images r' /\ links r = links r' /\ headers r = headers r'.

(** A node and the nodes below it. *)
Fixpoint subtrees (n : node) : list node :=
  match n with
  | Elem _ _ _ ch => n :: flat_map subtrees ch
  | _ => [n]
  end.

(** A page without repeated identities in which [$('body').find(s)] is
    empty for every selector [s] of [gone]. *)
Definition cleared (gone : list string) (d : dom) : Prop :=
  unique d /\
  forall s, s ∈ gone -> Cheerio.find d (Cheerio.select d "body") s = [].

(** No element of the tree has a comment among its children. *)
Fixpoint comment_free (n : node) : bool :=
  match n with
  | Elem _ _ _ ch => forallb (fun c => negb (Dom.is_comment c) && comment_free c) ch
  | _ => true
  end.

(** Nodes that are no elements: what a text parses to. *)
Definition no_elem (new : list node) : Prop := Forall (fun c => Dom.is_elem c = false) new.

(** The body of the loop of [findLinks], for one [<a>]. *)
Definition pushLink (options : gmap string value) (acc : list link * dom) (a : nat)
  : list link * dom :=
  let '(links, d) := acc in
  let links :=
    links ++ [mkLink (removeLineBreakTabs (Cheerio.attr d a "href"))
                     (removeLineBreakTabs (Cheerio.text d a))] in
  (links,
   if truthy (options !! "replaceLinks")
   then Dom.replaceWith d a (Cheerio.text_markup (removeLineBreakTabs (Cheerio.text d a)))
   else d).

(** A page with comments, in and around its elements. *)
Definition commented_page : dom :=
  Dom.load [MComment "top";
            Pages.el "html" [Pages.el "body" [MComment "note";
                                              Pages.el "p" [MText "x"; MComment "inner"]]]].

(** Letters and digits only: a tag name, or nothing.  Selectors of this
    form are the ones a caller gives in the statements below. *)
Definition is_alnum (c : ascii) : bool :=
  let n := nat_of_ascii c in
  JsString.is_upper c || JsString.is_lower c || ((48 <=? n) && (n <=? 57)).

Fixpoint alnum (s : string) : bool :=
  match s with
  | EmptyString => true
  | String c s' => is_alnum c && alnum s'
  end.

(** The strings the options hold as [removeTags] and as [htmlSelector]
    are tag names: a list of them, separated as [removeTags] splits it,
    and one of them. *)
Definition tag_names (o : gmap string value) : bool :=
  match o !! "removeTags" with
  | Some (VString s) =>
      forallb alnum
        (JsString.split_runs (fun c => Ascii.eqb c "010" || Ascii.eqb c ",") false EmptyString s)
  | _ => true
  end &&
  match o !! "htmlSelector" with
  | Some (VString s) => alnum s
  | _ => true
  end.

(** [d'] is a page in which the selectors find nothing that they do not
    find in [d], and which has distinct elements when [d] has. *)
Definition shrinks (d d' : dom) : Prop :=
  (unique d -> unique d') /\
  forall selection selector u,
    u ∈ Cheerio.find d' selection selector -> u ∈ Cheerio.find d selection selector.

(** The elements that have an element above them. *)
Definition below (l : list node) : list nat := flat_map Dom.uids (flat_map Dom.children_of l).

Ltac evaluate := vm_compute; reflexivity.

(* ===================================================================== *)
(** ** The model at work *)
(* ===================================================================== *)

Example trim_ex : JsString.trim "  a  b " = "a  b".
Proof. reflexivity. Qed.

Example removeExtraChars_ex : removeExtraChars " a    b " = "a b".
Proof. reflexivity. Qed.

Example split_runs_ex :
  JsString.split_runs (fun c => Ascii.eqb c "," || Ascii.eqb c "010") false "" ",a,,b,"
  = [""; "a"; "b"; ""].
Proof. reflexivity. Qed.

(** [s < 25] as JavaScript decides it for some strings. *)
Example string_lt_ex :
  map (fun s => JsNumber.string_lt s MIN_CHARS)
      [""; "  "; "Hello"; "12"; "25"; "24.99"; "-3"; "1e1"; "1e2"; "0x10"; "0x19";
       "12 apples"; ".5"; "."; "Infinity"; "-Infinity"; "24.99999999999999999999"]
  = [true; true; false; true; false; true; true; true; false; true; false;
     false; true; false; false; true; false].
Proof. evaluate. Qed.

Example selector_ex :
  Selector.parse "article,.article,#article,meta[name=description]"
  = [Selector.Tag "article"; Selector.Class "article"; Selector.Id "article";
     Selector.TagAttr "meta" "name" (Some "description")].
Proof. evaluate. Qed.

Example load_ex :
  Pages.article_form_image
  = mkDom [Elem 1 "html" []
             [Elem 2 "body" []
                [Elem 3 "article" []
                   [Elem 4 "p" [] [Text "x"]; Elem 5 "form" [] [Text "f"];
                    Elem 6 "img" [("src", "a.png")] []]]]]
          [] 7.
Proof. evaluate. Qed.

(** Section 8 of the specification: the paragraph of an [<article>] comes
    out unchanged, without headers and links. *)
Example article_scenario_ex :
  findContent Pages.article_scenario HTML ∅
  = Return (mkResult (Some "") None (Some "") [] [] []
              (Markup [Pages.el "p" [MText "A short line with, one comma, repeated enough to exceed twenty five characters easily."]])).
Proof. evaluate. Qed.

(** Section 8: the sidebar goes with the cleaning, and the scoring selects
    the remaining [<div>]. *)
Example sidebar_scenario_ex :
  exists d st,
    cleanHTML Pages.sidebar_scenario (merge_options ∅) = Return d /\
    Cheerio.select d ".sidebar" = [] /\
    findContentSection d = Return (Some 5, st) /\
    Cheerio.name d 5 = "div".
Proof.
  eexists. eexists.
  split; [evaluate | split; [evaluate | split; evaluate]].
Qed.

(** A table whose rows stand in a [<tbody>] keeps them all.  (The header
    holds the cells as [prepend] receives them, without a row; the default
    parser puts them in a [<tr>].) *)
Example tbody_table_ex :
  exists d,
    addTableHeader Pages.three_rows_in_tbody 5 = Return d /\
    Cheerio.html d [5]
    = Some [Pages.el "thead" [Pages.el "td" [MText "H"]];
            Pages.el "tbody" [Pages.row "1"; Pages.row "2"]].
Proof. eexists. split; evaluate. Qed.

(* ===================================================================== *)
(** ** Loops that push *)
(* ===================================================================== *)

Section Loops.
Context {A B : Type}.

Lemma fold_left_push (f : A -> B) (l : list A) (acc : list B) :
  fold_left (fun acc x => acc ++ [f x]) l acc = acc ++ map f l.
Proof.
  revert acc. induction l as [|x l IH]; intros acc; simpl.
  - by rewrite app_nil_r.
  - rewrite IH. by rewrite <- app_assoc.
Qed.

Lemma fold_left_push_if (keep : A -> bool) (f : A -> B) (l : list A) (acc : list B) :
  fold_left (fun acc x => if keep x then acc ++ [f x] else acc) l acc
  = acc ++ map f (List.filter keep l).
Proof.
  revert acc. induction l as [|x l IH]; intros acc; simpl.
  - by rewrite app_nil_r.
  - rewrite IH. destruct (keep x); simpl; [by rewrite <- app_assoc | done].
Qed.

(** The first element of a list that passes a test. *)
Lemma head_filter_Some (keep : A -> bool) (l : list A) (x : A) :
  head (List.filter keep l) = Some x <->
  exists i, l !! i = Some x /\ keep x = true /\
            forall j y, j < i -> l !! j = Some y -> keep y = false.
Proof.
  induction l as [|a l IH]; simpl.
  - split; [done | intros (i & Hi & _); by destruct i].
  - destruct (keep a) eqn:Ha; simpl.
    + split.
      * intros [= ->]. exists 0. repeat split; [done | intros; lia].
      * intros (i & Hi & Hx & Hfirst). destruct i as [|i]; [by simplify_eq/= |].
        specialize (Hfirst 0 a ltac:(lia) eq_refl). congruence.
    + rewrite IH. split.
      * intros (i & Hi & Hx & Hfirst). exists (S i). repeat split; [done..|].
        intros [|j] y Hj Hy; simplify_eq/=; [done | eapply Hfirst; [|done]; lia].
      * intros (i & Hi & Hx & Hfirst). destruct i as [|i]; [simplify_eq/=; congruence |].
        exists i. repeat split; [done..|].
        intros j y Hj Hy. apply (Hfirst (S j) y); [lia | done].
Qed.

Lemma head_filter_None (keep : A -> bool) (l : list A) :
  head (List.filter keep l) = None <-> forall x, x ∈ l -> keep x = false.
Proof.
  induction l as [|a l IH]; simpl.
  - split; [intros _ x Hx; by apply elem_of_nil in Hx | done].
  - destruct (keep a) eqn:Ha; simpl.
    + split; [done | intros H; specialize (H a (list_elem_of_here _ _)); congruence].
    + rewrite IH. split.
      * intros H x [->|Hx]%elem_of_cons; [done | by apply H].
      * intros H x Hx. apply H. by apply list_elem_of_further.
Qed.

End Loops.

Lemma each_cons {S A : Type} (body : S -> A -> outcome S) (x : A) (l : list A) (s : S) :
  each body (x :: l) s = (s' ← body s x; each body l s').
Proof. done. Qed.

(* ===================================================================== *)
(** ** Trees *)
(* ===================================================================== *)

(** Induction on a tree, with the property of the children in hand. *)
Lemma node_children_ind (P : node -> Prop) :
  (forall s, P (Text s)) ->
  (forall s, P (Comment s)) ->
  (forall v nm a ch, Forall P ch -> P (Elem v nm a ch)) ->
  forall n, P n.
Proof.
  intros HT HC HE. fix IH 1. intros [s|s|v nm a ch]; [apply HT | apply HC | apply HE].
  induction ch as [|c ch IHch]; constructor; [apply IH | exact IHch].
Qed.

Lemma lookup_cons (u : nat) (n : node) (l : list node) :
  Dom.lookup u (n :: l) = match Dom.lookup_in u n with
                          | Some r => Some r
                          | None => Dom.lookup u l
                          end.
Proof. done. Qed.

Lemma lookup_in_Elem (u v : nat) nm a ch :
  Dom.lookup_in u (Elem v nm a ch)
  = if u =? v then Some (Elem v nm a ch) else Dom.lookup u ch.
Proof. done. Qed.

Lemma remove_top_cons (u : nat) (n : node) (l : list node) :
  Dom.remove_top u (n :: l)
  = (if Dom.has_uid u n then [] else [Dom.remove_in u n]) ++ Dom.remove_top u l.
Proof. done. Qed.

Lemma remove_in_Elem (u v : nat) nm a ch :
  Dom.remove_in u (Elem v nm a ch) = Elem v nm a (Dom.remove_top u ch).
Proof. done. Qed.

(** No element with the identity removed is left. *)
Lemma remove_in_gone (u : nat) (n : node) :
  Dom.has_uid u n = false -> Dom.lookup_in u (Dom.remove_in u n) = None.
Proof.
  induction n as [s|s|v nm a ch IH] using node_children_ind; [done | done |].
  simpl Dom.has_uid. intros Hv. rewrite remove_in_Elem, lookup_in_Elem, Hv.
  induction IH as [|c ch Hc _ IHch]; [done |].
  rewrite remove_top_cons. destruct (Dom.has_uid u c) eqn:Hu; [exact IHch |].
  simpl app. rewrite lookup_cons, (Hc eq_refl). exact IHch.
Qed.

Lemma remove_top_gone (u : nat) (l : list node) :
  Dom.lookup u (Dom.remove_top u l) = None.
Proof.
  induction l as [|c l IH]; [done |].
  rewrite remove_top_cons. destruct (Dom.has_uid u c) eqn:Hu; [exact IH |].
  simpl app. by rewrite lookup_cons, (remove_in_gone u c Hu).
Qed.

(** Removing brings no identity in. *)
Lemma remove_in_absent (u v : nat) (n : node) :
  Dom.lookup_in u n = None -> Dom.lookup_in u (Dom.remove_in v n) = None.
Proof.
  induction n as [s|s|w nm a ch IH] using node_children_ind; [done | done |].
  rewrite remove_in_Elem, !lookup_in_Elem. destruct (u =? w); [done |].
  induction IH as [|c ch Hc _ IHch]; [done |].
  rewrite lookup_cons, remove_top_cons.
  destruct (Dom.lookup_in u c) eqn:Hl; [done |]. intros Hrest.
  destruct (Dom.has_uid v c); [by apply IHch |].
  simpl app. rewrite lookup_cons, (Hc eq_refl). by apply IHch.
Qed.

Lemma remove_top_absent (u v : nat) (l : list node) :
  Dom.lookup u l = None -> Dom.lookup u (Dom.remove_top v l) = None.
Proof.
  induction l as [|c l IH]; [done |].
  rewrite lookup_cons, remove_top_cons.
  destruct (Dom.lookup_in u c) eqn:Hl; [done |]. intros Hrest.
  destruct (Dom.has_uid v c); [by apply IH |].
  simpl app. rewrite lookup_cons, (remove_in_absent u v c Hl). by apply IH.
Qed.

Lemma remove_gone (d : dom) (u : nat) :
  Dom.lookup u (doc (Dom.remove d u)) = None.
Proof.
  unfold Dom.remove, Dom.attached.
  destruct (Dom.lookup u (doc d)) eqn:Hdoc; [apply remove_top_gone |].
  destruct (Dom.lookup u (flat_map Dom.children_of (detached d)));
    [apply remove_top_gone | done].
Qed.

Lemma remove_absent (d : dom) (u v : nat) :
  Dom.lookup u (doc d) = None -> Dom.lookup u (doc (Dom.remove d v)) = None.
Proof.
  intros Hu. unfold Dom.remove. destruct (Dom.attached d v); [|done].
  by apply remove_top_absent.
Qed.

Lemma remove_all_absent (d : dom) (us : list nat) (u : nat) :
  Dom.lookup u (doc d) = None -> Dom.lookup u (doc (Dom.remove_all d us)) = None.
Proof.
  revert d. induction us as [|v us IH]; intros d Hu; [done |].
  apply IH. by apply remove_absent.
Qed.

(** After [$(selection).remove()], no element of the selection is in the
    document. *)
Lemma remove_all_gone (d : dom) (us : list nat) (u : nat) :
  u ∈ us -> Dom.lookup u (doc (Dom.remove_all d us)) = None.
Proof.
  revert d. induction us as [|v us IH]; intros d Hu; [by apply elem_of_nil in Hu |].
  apply elem_of_cons in Hu as [-> | Hu]; [|by apply IH].
  apply (remove_all_absent (Dom.remove d v) us), remove_gone.
Qed.

(** The empty selection finds nothing. *)
Lemma find_in_nil (sel : list Selector.simple) (n : node) :
  Cheerio.find_in sel [] false n = [].
Proof.
  induction n as [s|s|v nm a ch IH] using node_children_ind; [done | done |].
  simpl. induction IH as [|c ch Hc _ IHch]; [done |].
  simpl. by rewrite Hc, IHch.
Qed.

Lemma find_nil (d : dom) (selector : string) : Cheerio.find d [] selector = [].
Proof.
  unfold Cheerio.find. induction (forest d) as [|n l IH]; [done |].
  simpl. by rewrite find_in_nil, IH.
Qed.


(* ===================================================================== *)
(** ** Identities *)
(* ===================================================================== *)

Lemma has_uid_true (u : nat) (n : node) :
  Dom.has_uid u n = true -> exists nm a ch, n = Elem u nm a ch.
Proof.
  destruct n as [s|s|v nm a ch]; simpl; [done | done |].
  intros ->%Nat.eqb_eq. eauto.
Qed.

Lemma has_uid_false_head (u : nat) (n : node) :
  Dom.has_uid u n = false -> forall x, x ∈ Dom.uids n -> x = u -> x ∈ flat_map Dom.uids (Dom.children_of n).
Proof.
  destruct n as [s|s|v nm a ch]; simpl; [by intros _ x ?%elem_of_nil.. |].
  intros Hne%Nat.eqb_neq x [-> | Hx]%elem_of_cons Hu; [congruence | done].
Qed.

(** An identity is found exactly when it is in the tree. *)
Lemma lookup_in_None (u : nat) (n : node) :
  Dom.lookup_in u n = None <-> u ∉ Dom.uids n.
Proof.
  induction n as [s|s|v nm a ch IH] using node_children_ind;
    [split; [intros _ ?%elem_of_nil | ]; done.. |].
  rewrite lookup_in_Elem. simpl Dom.uids. rewrite not_elem_of_cons.
  destruct (Nat.eqb_spec u v) as [-> | Hne].
  - split; [done | by intros [? _]].
  - assert (Hch : Dom.lookup u ch = None <-> u ∉ flat_map Dom.uids ch).
    { induction IH as [|c ch Hc _ IHch]; [split; [intros _ ?%elem_of_nil|]; done |].
      rewrite lookup_cons. simpl flat_map. rewrite not_elem_of_app, <- Hc, <- IHch.
      destruct (Dom.lookup_in u c); split; [done | by intros [? _] | done | by intros [_ ?]]. }
    rewrite Hch. tauto.
Qed.

Lemma lookup_None (u : nat) (l : list node) :
  Dom.lookup u l = None <-> u ∉ flat_map Dom.uids l.
Proof.
  induction l as [|c l IH]; [split; [intros _ ?%elem_of_nil|]; done |].
  rewrite lookup_cons. simpl flat_map. rewrite not_elem_of_app, <- lookup_in_None, <- IH.
  destruct (Dom.lookup_in u c); split; [done | by intros [? _] | done | by intros [_ ?]].
Qed.

(** Removing an identity that is not there changes nothing. *)
Lemma remove_in_id (u : nat) (n : node) :
  u ∉ Dom.uids n -> Dom.remove_in u n = n.
Proof.
  induction n as [s|s|v nm a ch IH] using node_children_ind; [done | done |].
  simpl Dom.uids. rewrite not_elem_of_cons. intros [Hne Hch].
  rewrite remove_in_Elem. f_equal.
  induction IH as [|c ch Hc _ IHch]; [done |].
  simpl in Hch. rewrite not_elem_of_app in Hch. destruct Hch as [Hc' Hch].
  rewrite remove_top_cons, (IHch Hch), (Hc Hc').
  destruct (Dom.has_uid u c) eqn:Hu; [|done].
  apply has_uid_true in Hu as (? & ? & ? & ->). exfalso. apply Hc'. simpl. apply list_elem_of_here.
Qed.

Lemma remove_top_id (u : nat) (l : list node) :
  u ∉ flat_map Dom.uids l -> Dom.remove_top u l = l.
Proof.
  induction l as [|c l IH]; [done |].
  simpl flat_map. rewrite not_elem_of_app. intros [Hc Hl].
  rewrite remove_top_cons, (IH Hl), (remove_in_id u c Hc).
  destruct (Dom.has_uid u c) eqn:Hu; [|done].
  apply has_uid_true in Hu as (? & ? & ? & ->). exfalso. apply Hc. simpl. apply list_elem_of_here.
Qed.

Lemma map_remove_in_id (u : nat) (l : list node) :
  u ∉ flat_map Dom.uids l -> map (Dom.remove_in u) l = l.
Proof.
  induction l as [|c l IH]; [done |].
  simpl flat_map. rewrite not_elem_of_app. intros [Hc Hl].
  simpl map. by rewrite (IH Hl), (remove_in_id u c Hc).
Qed.

(** Cutting the element [u] off a forest without repeated identities
    splits its identities. *)
Lemma remove_in_split (u : nat) (n m : node) :
  NoDup (Dom.uids n) -> Dom.has_uid u n = false -> Dom.lookup_in u n = Some m ->
  Dom.uids (Dom.remove_in u n) ++ Dom.uids m ≡ₚ Dom.uids n.
Proof.
  revert m. induction n as [s|s|v nm a ch IH] using node_children_ind; [done | done |].
  intros m Hnd Hv. rewrite lookup_in_Elem, remove_in_Elem. simpl in Hv. rewrite Hv.
  simpl Dom.uids in *. apply NoDup_cons in Hnd as [_ Hnd]. intros Hm. simpl. f_equiv.
  clear Hv v.
  induction IH as [|c ch Hc _ IHch]; [done |].
  rewrite lookup_cons in Hm. rewrite remove_top_cons. simpl flat_map in *.
  apply NoDup_app in Hnd as (Hndc & Hdisj & Hndch).
  destruct (Dom.has_uid u c) eqn:Hu.
  - apply has_uid_true in Hu as (nm' & a' & ch' & ->).
    rewrite lookup_in_Elem, Nat.eqb_refl in Hm. injection Hm as <-.
    rewrite remove_top_id.
    + simpl app. apply Permutation_app_comm.
    + apply Hdisj. simpl. apply list_elem_of_here.
  - destruct (Dom.lookup_in u c) as [m'|] eqn:Hl.
    + injection Hm as ->.
      rewrite remove_top_id.
      * simpl flat_map.
        rewrite <- (Hc m Hndc eq_refl eq_refl).
        rewrite <- !app_assoc. f_equiv. apply Permutation_app_comm.
      * apply Hdisj. destruct (decide (u ∈ Dom.uids c)) as [Hin | Hnin]; [done |].
        apply lookup_in_None in Hnin. congruence.
    + simpl flat_map.
      apply lookup_in_None in Hl. rewrite (remove_in_id u c Hl).
      rewrite <- app_assoc. f_equiv. by apply IHch.
Qed.

Lemma remove_top_split (u : nat) (l : list node) (m : node) :
  NoDup (flat_map Dom.uids l) -> Dom.lookup u l = Some m ->
  flat_map Dom.uids (Dom.remove_top u l) ++ Dom.uids m ≡ₚ flat_map Dom.uids l.
Proof.
  induction l as [|c l IH]; [done |].
  rewrite lookup_cons, remove_top_cons. simpl flat_map.
  intros (Hndc & Hdisj & Hndl)%NoDup_app Hm.
  destruct (Dom.has_uid u c) eqn:Hu.
  - apply has_uid_true in Hu as (nm' & a' & ch' & ->).
    rewrite lookup_in_Elem, Nat.eqb_refl in Hm. injection Hm as <-.
    rewrite remove_top_id.
    + simpl app. apply Permutation_app_comm.
    + apply Hdisj. simpl. apply list_elem_of_here.
  - destruct (Dom.lookup_in u c) as [m'|] eqn:Hl.
    + injection Hm as ->.
      rewrite remove_top_id.
      * simpl flat_map.
        rewrite <- (remove_in_split u c m Hndc Hu Hl).
        rewrite <- !app_assoc. f_equiv. apply Permutation_app_comm.
      * apply Hdisj. destruct (decide (u ∈ Dom.uids c)) as [Hin | Hnin]; [done |].
        apply lookup_in_None in Hnin. congruence.
    + simpl flat_map.
      apply lookup_in_None in Hl. rewrite (remove_in_id u c Hl).
      rewrite <- app_assoc. f_equiv. by apply IH.
Qed.

Lemma lookup_app (u : nat) (l k : list node) :
  Dom.lookup u (l ++ k) = match Dom.lookup u l with
                          | Some r => Some r
                          | None => Dom.lookup u k
                          end.
Proof.
  induction l as [|c l IH]; [done |].
  simpl app. rewrite !lookup_cons, IH. by destruct (Dom.lookup_in u c).
Qed.

Lemma lookup_children (u : nat) (c : node) :
  Dom.has_uid u c = false -> Dom.lookup u (Dom.children_of c) = Dom.lookup_in u c.
Proof.
  destruct c as [s|s|v nm a ch]; [done | done |].
  simpl Dom.has_uid. intros Hv. by rewrite lookup_in_Elem, Hv.
Qed.

(** The same below the roots of cut-off subtrees. *)
Lemma map_remove_in_split (u : nat) (l : list node) (m : node) :
  NoDup (flat_map Dom.uids l) -> Dom.lookup u (flat_map Dom.children_of l) = Some m ->
  flat_map Dom.uids (map (Dom.remove_in u) l) ++ Dom.uids m ≡ₚ flat_map Dom.uids l.
Proof.
  induction l as [|c l IH]; [done |].
  simpl flat_map. simpl map. rewrite lookup_app.
  intros (Hndc & Hdisj & Hndl)%NoDup_app Hm.
  destruct (Dom.has_uid u c) eqn:Hu.
  - exfalso. apply has_uid_true in Hu as (nm & a & ch & ->).
    simpl Dom.children_of in Hm. simpl Dom.uids in *.
    apply NoDup_cons in Hndc as [Hnotin _].
    apply lookup_None in Hnotin. rewrite Hnotin in Hm.
    apply (Hdisj u); [apply list_elem_of_here |].
    destruct (decide (u ∈ flat_map Dom.uids l)) as [Hin | Hnin]; [done |].
    exfalso. clear -Hm Hnin. induction l as [|c l IH]; [done |].
    simpl in Hm, Hnin. rewrite lookup_app in Hm. apply not_elem_of_app in Hnin as [Hc Hl].
    destruct (Dom.lookup u (Dom.children_of c)) eqn:Hch; [|by apply IH].
    destruct c as [s|s|v nm a ch]; [done | done |].
    simpl in Hch, Hc. apply not_elem_of_cons in Hc as [_ Hc].
    apply lookup_None in Hc. congruence.
  - rewrite (lookup_children u c Hu) in Hm.
    destruct (Dom.lookup_in u c) as [m'|] eqn:Hl.
    + injection Hm as ->.
      rewrite map_remove_in_id.
      * rewrite <- (remove_in_split u c m Hndc Hu Hl).
        rewrite <- !app_assoc. f_equiv. apply Permutation_app_comm.
      * apply Hdisj. destruct (decide (u ∈ Dom.uids c)) as [Hin | Hnin]; [done |].
        apply lookup_in_None in Hnin. congruence.
    + apply lookup_in_None in Hl. rewrite (remove_in_id u c Hl).
      rewrite <- app_assoc. f_equiv. by apply IH.
Qed.

Lemma lookup_children_uids (u : nat) (l : list node) (m : node) :
  Dom.lookup u (flat_map Dom.children_of l) = Some m -> u ∈ flat_map Dom.uids l.
Proof.
  induction l as [|c l IH]; [done |].
  simpl. rewrite lookup_app, elem_of_app.
  destruct (Dom.lookup u (Dom.children_of c)) eqn:Hch; [|auto].
  intros _. left. destruct c as [s|s|v nm a ch]; [done | done |].
  simpl in *. apply list_elem_of_further.
  destruct (decide (u ∈ flat_map Dom.uids ch)) as [Hin | Hnin]; [done |].
  apply lookup_None in Hnin. congruence.
Qed.

(** [remove] keeps the identities of the document and of the cut-off
    subtrees apart. *)
Lemma unique_remove (d : dom) (u : nat) : unique d -> unique (Dom.remove d u).
Proof.
  unfold unique, forest, Dom.remove, Dom.attached. rewrite flat_map_app.
  intros Hnd. pose proof Hnd as (Hdoc & Hdisj & Hdet)%NoDup_app.
  destruct (Dom.lookup u (doc d)) as [n|] eqn:Hl.
  - simpl doc. simpl detached. rewrite !flat_map_app. simpl flat_map. rewrite app_nil_r.
    assert (Hin : u ∈ flat_map Dom.uids (doc d)).
    { destruct (decide (u ∈ flat_map Dom.uids (doc d))) as [Hin | Hnin]; [done |].
      apply lookup_None in Hnin. congruence. }
    rewrite (map_remove_in_id u (detached d)) by (by apply Hdisj).
    assert (Hp : flat_map Dom.uids (Dom.remove_top u (doc d)) ++ flat_map Dom.uids (detached d) ++ Dom.uids n
                 ≡ₚ flat_map Dom.uids (doc d) ++ flat_map Dom.uids (detached d)).
    { rewrite <- (remove_top_split u (doc d) n Hdoc Hl).
      rewrite <- !app_assoc. f_equiv. apply Permutation_app_comm. }
    by rewrite Hp.
  - destruct (Dom.lookup u (flat_map Dom.children_of (detached d))) as [n|] eqn:Hl';
      [|by rewrite flat_map_app].
    simpl doc. simpl detached. rewrite !flat_map_app. simpl flat_map. rewrite app_nil_r.
    apply lookup_None in Hl. rewrite (remove_top_id u (doc d) Hl).
    by rewrite (map_remove_in_split u (detached d) n Hdet Hl').
Qed.

Lemma unique_remove_all (d : dom) (us : list nat) : unique d -> unique (Dom.remove_all d us).
Proof.
  revert d. induction us as [|u us IH]; intros d Hd; [done |].
  apply IH. by apply unique_remove.
Qed.

Lemma doc_remove (d : dom) (v : nat) : doc (Dom.remove d v) = Dom.remove_top v (doc d).
Proof.
  unfold Dom.remove, Dom.attached.
  destruct (Dom.lookup v (doc d)) eqn:Hl; [done |].
  apply lookup_None in Hl. rewrite (remove_top_id v (doc d) Hl).
  by destruct (Dom.lookup v (flat_map Dom.children_of (detached d))).
Qed.

Lemma find_in_Elem sel ctx inside v nm a ch :
  Cheerio.find_in sel ctx inside (Elem v nm a ch)
  = (if inside && Selector.matches sel (Elem v nm a ch) then [v] else []) ++
    flat_map (Cheerio.find_in sel ctx (inside || existsb (Nat.eqb v) ctx)) ch.
Proof. done. Qed.

(** Whether an element matches does not depend on its children. *)
Lemma matches_children sel v nm a ch ch' :
  Selector.matches sel (Elem v nm a ch) = Selector.matches sel (Elem v nm a ch').
Proof.
  unfold Selector.matches. induction sel as [|s sel IH]; [done |].
  simpl existsb. by rewrite IH.
Qed.

(** What is found is in the tree. *)
Lemma find_in_uids sel ctx inside (n : node) (u : nat) :
  u ∈ Cheerio.find_in sel ctx inside n -> u ∈ Dom.uids n.
Proof.
  revert inside. induction n as [s|s|v nm a ch IH] using node_children_ind;
    intros inside; [by intros ?%elem_of_nil.. |].
  rewrite find_in_Elem, elem_of_app. simpl Dom.uids. rewrite elem_of_cons.
  intros [Hu | Hu].
  - destruct (inside && _); [|by apply elem_of_nil in Hu].
    apply list_elem_of_singleton in Hu. auto.
  - right. revert Hu. generalize (inside || existsb (Nat.eqb v) ctx).
    induction IH as [|c ch Hc _ IHch]; intros b; [done |].
    simpl. rewrite !elem_of_app. intros [Hu | Hu]; [left; by eapply Hc | right; by eapply IHch].
Qed.

Lemma find_forest_uids sel ctx inside (l : list node) (u : nat) :
  u ∈ flat_map (Cheerio.find_in sel ctx inside) l -> u ∈ flat_map Dom.uids l.
Proof.
  induction l as [|c l IH]; [done |].
  simpl. rewrite !elem_of_app. intros [Hu | Hu]; [left; by eapply find_in_uids | right; auto].
Qed.

(** Something is found below a selection only in a tree that holds an
    element of the selection. *)
Lemma find_in_context sel ctx (n : node) (u : nat) :
  u ∈ Cheerio.find_in sel ctx false n -> exists c, c ∈ ctx /\ c ∈ Dom.uids n.
Proof.
  induction n as [s|s|v nm a ch IH] using node_children_ind;
    [by intros ?%elem_of_nil.. |].
  rewrite find_in_Elem. simpl andb. simpl app. simpl orb.
  destruct (existsb (Nat.eqb v) ctx) eqn:Hv.
  - intros _. apply existsb_exists in Hv as (c & Hc%list_elem_of_In & ->%Nat.eqb_eq).
    exists c. split; [done |]. simpl. apply list_elem_of_here.
  - induction IH as [|c ch Hc _ IHch]; [by intros ?%elem_of_nil |].
    simpl flat_map. rewrite elem_of_app. intros [Hu | Hu].
    + destruct (Hc Hu) as (x & Hx & Hin). exists x. split; [done |].
      simpl. apply list_elem_of_further, elem_of_app. auto.
    + destruct (IHch Hu) as (x & Hx & Hin). exists x. split; [done |].
      simpl in *. apply elem_of_cons in Hin as [-> | Hin]; [apply list_elem_of_here |].
      apply list_elem_of_further, elem_of_app. auto.
Qed.

(** Removing, or narrowing the selection, finds no more. *)
Lemma find_in_remove sel ctx ctx' (inside inside' : bool) (v : nat) (n : node) (u : nat) :
  (forall c, c ∈ ctx' -> c ∈ ctx) -> (inside' = true -> inside = true) ->
  u ∈ Cheerio.find_in sel ctx' inside' (Dom.remove_in v n) ->
  u ∈ Cheerio.find_in sel ctx inside n.
Proof.
  intros Hctx. revert inside inside'.
  induction n as [s|s|w nm a ch IH] using node_children_ind; intros inside inside' Hin;
    [done | done |].
  rewrite remove_in_Elem, !find_in_Elem, !elem_of_app.
  rewrite (matches_children sel w nm a _ ch).
  assert (Hin' : inside' || existsb (Nat.eqb w) ctx' = true ->
                 inside || existsb (Nat.eqb w) ctx = true).
  { rewrite !orb_true_iff. intros [? | Hw]; [auto |]. right.
    apply existsb_exists in Hw as (c & Hc%list_elem_of_In & Hw).
    apply existsb_exists. exists c. split; [by apply list_elem_of_In, Hctx | done]. }
  intros [Hu | Hu]; [left | right].
  - destruct inside'; [rewrite (Hin eq_refl); exact Hu | by apply elem_of_nil in Hu].
  - revert Hu Hin'. generalize (inside || existsb (Nat.eqb w) ctx).
    generalize (inside' || existsb (Nat.eqb w) ctx'). clear Hin.
    induction IH as [|c ch Hc _ IHch]; intros b' b Hu Hb; [done |].
    rewrite remove_top_cons, flat_map_app, elem_of_app in Hu.
    simpl flat_map. rewrite elem_of_app. destruct Hu as [Hu | Hu].
    + left. destruct (Dom.has_uid v c); [by apply elem_of_nil in Hu |].
      simpl in Hu. rewrite app_nil_r in Hu. by eapply Hc.
    + right. by eapply IHch.
Qed.

Lemma find_remove_top sel ctx ctx' (inside inside' : bool) (v : nat) (l : list node) (u : nat) :
  (forall c, c ∈ ctx' -> c ∈ ctx) -> (inside' = true -> inside = true) ->
  u ∈ flat_map (Cheerio.find_in sel ctx' inside') (Dom.remove_top v l) ->
  u ∈ flat_map (Cheerio.find_in sel ctx inside) l.
Proof.
  intros Hctx Hin. induction l as [|c l IH]; [done |].
  rewrite remove_top_cons, flat_map_app, elem_of_app.
  simpl flat_map. rewrite elem_of_app. intros [Hu | Hu].
  - left. destruct (Dom.has_uid v c); [by apply elem_of_nil in Hu |].
    simpl in Hu. rewrite app_nil_r in Hu. by eapply find_in_remove.
  - right. by apply IH.
Qed.

Lemma find_in_mono sel ctx ctx' (inside inside' : bool) (n : node) (u : nat) :
  (forall c, c ∈ ctx' -> c ∈ ctx) -> (inside' = true -> inside = true) ->
  u ∈ Cheerio.find_in sel ctx' inside' n ->
  u ∈ Cheerio.find_in sel ctx inside n.
Proof.
  intros Hctx. revert inside inside'.
  induction n as [s|s|w nm a ch IH] using node_children_ind; intros inside inside' Hin;
    [done | done |].
  rewrite !find_in_Elem, !elem_of_app.
  assert (Hin' : inside' || existsb (Nat.eqb w) ctx' = true ->
                 inside || existsb (Nat.eqb w) ctx = true).
  { rewrite !orb_true_iff. intros [? | Hw]; [auto |]. right.
    apply existsb_exists in Hw as (c & Hc%list_elem_of_In & Hw).
    apply existsb_exists. exists c. split; [by apply list_elem_of_In, Hctx | done]. }
  intros [Hu | Hu]; [left | right].
  - destruct inside'; [rewrite (Hin eq_refl); exact Hu | by apply elem_of_nil in Hu].
  - revert Hu Hin'. generalize (inside || existsb (Nat.eqb w) ctx).
    generalize (inside' || existsb (Nat.eqb w) ctx'). clear Hin.
    induction IH as [|c ch Hc _ IHch]; intros b' b Hu Hb; [done |].
    simpl flat_map in *. rewrite elem_of_app in *. destruct Hu as [Hu | Hu].
    + left. by eapply Hc.
    + right. by eapply IHch.
Qed.

Lemma find_forest_mono sel ctx ctx' (inside : bool) (l : list node) (u : nat) :
  (forall c, c ∈ ctx' -> c ∈ ctx) ->
  u ∈ flat_map (Cheerio.find_in sel ctx' inside) l ->
  u ∈ flat_map (Cheerio.find_in sel ctx inside) l.
Proof.
  intros Hctx. induction l as [|c l IH]; [done |].
  simpl flat_map. rewrite !elem_of_app. intros [Hu | Hu]; [left | right; auto].
  by eapply find_in_mono.
Qed.

Lemma find_remove_all sel ctx (inside : bool) (us : list nat) (d : dom) (u : nat) :
  u ∈ flat_map (Cheerio.find_in sel ctx inside) (doc (Dom.remove_all d us)) ->
  u ∈ flat_map (Cheerio.find_in sel ctx inside) (doc d).
Proof.
  revert d. induction us as [|v us IH]; intros d; [done |].
  intros Hu%IH. rewrite doc_remove in Hu. by eapply find_remove_top.
Qed.

(** After [$(s1).find(s2).remove()], [$(s1).find(s2)] is empty. *)
Theorem find_after_remove (d : dom) (s1 s2 : string) :
  unique d ->
  let d' := Dom.remove_all d (Cheerio.find d (Cheerio.select d s1) s2) in
  Cheerio.find d' (Cheerio.select d' s1) s2 = [].
Proof.
  intros Hd d'. apply elem_of_nil_inv. intros u.
  unfold Cheerio.find at 1. unfold forest. rewrite flat_map_app, elem_of_app.
  assert (Hsel : forall c, c ∈ Cheerio.select d' s1 -> c ∈ Cheerio.select d s1).
  { intros c. exact (find_remove_all _ [] true (Cheerio.find d (Cheerio.select d s1) s2) d c). }
  intros [Hu | Hu].
  - pose proof (find_forest_uids _ _ _ _ _ Hu) as Hin.
    assert (Hfound : u ∈ Cheerio.find d (Cheerio.select d s1) s2).
    { unfold Cheerio.find, forest. rewrite flat_map_app, elem_of_app. left.
      apply (find_remove_all _ _ _ (Cheerio.find d (Cheerio.select d s1) s2)).
      by eapply find_forest_mono. }
    apply (remove_all_gone d _ u), lookup_None in Hfound. contradiction.
  - assert (Hctx : exists c, c ∈ Cheerio.select d' s1 /\ c ∈ flat_map Dom.uids (detached d')).
    { clear -Hu. induction (detached d') as [|n l IH]; [by apply elem_of_nil in Hu |].
      simpl in Hu. apply elem_of_app in Hu as [Hu | Hu].
      - destruct (find_in_context _ _ _ _ Hu) as (c & Hc & Hin). exists c. split; [done |].
        simpl. apply elem_of_app. auto.
      - destruct (IH Hu) as (c & Hc & Hin). exists c. split; [done |].
        simpl. apply elem_of_app. auto. }
    destruct Hctx as (c & Hc & Hdet).
    apply find_forest_uids in Hc.
    pose proof (unique_remove_all d (Cheerio.find d (Cheerio.select d s1) s2) Hd) as Hd'.
    unfold unique, forest in Hd'. rewrite flat_map_app in Hd'.
    apply NoDup_app in Hd' as (_ & Hdisj & _). by apply (Hdisj c).
Qed.

Lemma markup_children_ind (P : markup -> Prop) :
  (forall s, P (MText s)) ->
  (forall s, P (MComment s)) ->
  (forall nm a ch, Forall P ch -> P (MElem nm a ch)) ->
  forall m, P m.
Proof.
  intros HT HC HE. fix IH 1. intros [s|s|nm a ch]; [apply HT | apply HC | apply HE].
  induction ch as [|c ch IHch]; constructor; [apply IH | exact IHch].
Qed.

Lemma parse_node_MElem nm a ch (k : nat) :
  Dom.parse_node (MElem nm a ch) k
  = let '(ch', k') := Dom.parse ch (S k) in (Elem k nm a ch', k').
Proof. done. Qed.

Lemma parse_cons (c : markup) (l : list markup) (k : nat) :
  Dom.parse (c :: l) k
  = let '(c', k1) := Dom.parse_node c k in
    let '(l', k2) := Dom.parse l k1 in (c' :: l', k2).
Proof. done. Qed.

Lemma numbered_app (l1 l2 : list nat) (k k1 k2 : nat) :
  numbered l1 k k1 -> numbered l2 k1 k2 -> numbered (l1 ++ l2) k k2.
Proof.
  intros [H1 ->] [H2 ->]. split; [lia |].
  replace (k2 - k) with ((k1 - k) + (k2 - k1)) by lia.
  rewrite seq_app. do 2 f_equal. lia.
Qed.

Lemma parse_numbered (ms : list markup) (k : nat) :
  Forall (fun m => forall k, numbered (Dom.uids (Dom.parse_node m k).1) k (Dom.parse_node m k).2) ms ->
  numbered (flat_map Dom.uids (Dom.parse ms k).1) k (Dom.parse ms k).2.
Proof.
  intros Hms. revert k. induction Hms as [|c l Hc _ IH]; intros k.
  - unfold numbered. simpl. split; [lia | by rewrite Nat.sub_diag].
  - rewrite parse_cons. specialize (Hc k).
    destruct (Dom.parse_node c k) as [c' k1]. specialize (IH k1).
    destruct (Dom.parse l k1) as [l' k2].
    simpl in *. by eapply numbered_app.
Qed.

Lemma parse_node_numbered (m : markup) (k : nat) :
  numbered (Dom.uids (Dom.parse_node m k).1) k (Dom.parse_node m k).2.
Proof.
  revert k. induction m as [s|s|nm a ch IH] using markup_children_ind; intros k.
  - unfold numbered. simpl. split; [lia | by rewrite Nat.sub_diag].
  - unfold numbered. simpl. split; [lia | by rewrite Nat.sub_diag].
  - rewrite parse_node_MElem. pose proof (parse_numbered ch (S k) IH) as [Hle Heq].
    destruct (Dom.parse ch (S k)) as [ch' k']. simpl in *. split; [lia |].
    rewrite Heq. replace (k' - k) with (S (k' - S k)) by lia. done.
Qed.

(** A page just loaded has no identity twice. *)
Lemma load_unique (html : list markup) : unique (Dom.load html).
Proof.
  unfold unique, forest, Dom.load.
  pose proof (parse_numbered html 1) as Hn.
  destruct (Dom.parse html 1) as [ns k]. simpl in *. rewrite app_nil_r.
  destruct Hn as [_ ->].
  - apply Forall_forall. intros m _. apply parse_node_numbered.
  - apply NoDup_seq.
Qed.

(* ===================================================================== *)
(** ** The options in effect *)
(* ===================================================================== *)

(** A property of [defaultOptions] wins over the caller's. *)
Lemma merge_options_default (o : gmap string value) (key : string) (v : value) :
  defaultOptions !! key = Some v -> merge_options o !! key = Some v.
Proof. intros H. by apply lookup_union_Some_l. Qed.

(** Only a property [defaultOptions] does not have comes from the caller. *)
Lemma merge_options_other (o : gmap string value) (key : string) :
  defaultOptions !! key = None -> merge_options o !! key = o !! key.
Proof. intros H. by apply lookup_union_r. Qed.

(** C1 (the code departs from the claim): [{ ...o, ...defaultOptions }]
    lets every property of [defaultOptions] replace the caller's value, so
    the eight flags are always the defaults.  On a page whose article holds
    a paragraph, a form and an image, [findContent] called with
    [removeForm: true] leaves the form in the content, and called with
    [removeImages: false] it takes the image out of it. *)
Theorem findContent_defaults_override_caller :
  (forall (o : gmap string value),
     merge_options o !! "removeForm" = Some (VBool false) /\
     merge_options o !! "removeImages" = Some (VBool true)) /\
  (exists r,
     findContent Pages.article_form_image HTML {[ "removeForm" := VBool true ]} = Return r /\
     result_content r = Markup [Pages.el "p" [MText "x"]; Pages.el "form" [MText "f"]]) /\
  (exists r,
     findContent Pages.article_form_image HTML {[ "removeImages" := VBool false ]} = Return r /\
     result_content r = Markup [Pages.el "p" [MText "x"]; Pages.el "form" [MText "f"]]).
Proof.
  split.
  - intros o. split; by apply merge_options_default.
  - split; eexists; (split; [evaluate | reflexivity]).
Qed.

(* ===================================================================== *)
(** ** The H1 of the page *)
(* ===================================================================== *)

Lemma nonempty_true (s : string) : nonempty s = true <-> s <> EmptyString.
Proof.
  unfold nonempty. destruct (String.eqb_spec s EmptyString); simpl; split; congruence.
Qed.

Lemma nonempty_false (s : string) : nonempty s = false <-> s = EmptyString.
Proof.
  unfold nonempty. destruct (String.eqb_spec s EmptyString); simpl; split; congruence.
Qed.

(** [getFirstH1] pushes the texts that are not empty and shifts the first. *)
Lemma getFirstH1_filter (d : dom) :
  getFirstH1 d = head (List.filter nonempty (h1_texts d)).
Proof.
  unfold getFirstH1, h1_texts, removeLineBreakTabs.
  rewrite (fold_left_push_if (fun h1 => nonempty (Cheerio.text d h1)) (Cheerio.text d)).
  simpl. f_equal.
  induction (Cheerio.find d (Cheerio.select d "body") "h1") as [|x l IH]; simpl; [done |].
  destruct (nonempty (Cheerio.text d x)); simpl; by rewrite IH.
Qed.

Lemma getFirstH1_Some (d : dom) (t : string) :
  getFirstH1 d = Some t <-> first_nonempty (h1_texts d) t.
Proof.
  rewrite getFirstH1_filter, head_filter_Some. unfold first_nonempty.
  split; intros (i & Hi & Ht & Hfirst); exists i; (split; [done|]).
  - split; [by apply nonempty_true |].
    intros j Hj. destruct (lookup_lt_is_Some_2 (h1_texts d) j) as [y Hy].
    { apply lookup_lt_Some in Hi. lia. }
    rewrite Hy. f_equal. apply nonempty_false. by apply (Hfirst j).
  - split; [by apply nonempty_true |].
    intros j y Hj Hy. apply nonempty_false. specialize (Hfirst j Hj). congruence.
Qed.

Lemma getFirstH1_None (d : dom) :
  getFirstH1 d = None <-> forall t, t ∈ h1_texts d -> t = EmptyString.
Proof.
  rewrite getFirstH1_filter, head_filter_None.
  split; intros H t Ht; apply nonempty_false; by apply H.
Qed.

Lemma bind_inv {A B : Type} (m : outcome A) (k : A -> outcome B) (b : B) :
  mbind k m = Return b -> exists a, m = Return a /\ k a = Return b.
Proof. destruct m as [a|e]; [eauto | done]. Qed.

(** The [h1] of a result is what [getH1] returns for the default flag,
    whatever the caller passes. *)
Lemma findContent_h1 (d : dom) (type : string) (o : gmap string value) (r : ExtractionResult) :
  findContent d type o = Return r -> h1 r = getH1 d (Some (VBool true)).
Proof.
  unfold findContent.
  rewrite (merge_options_default o "useFirstH1" (VBool true)) by reflexivity.
  intros (d1 & _ & H)%bind_inv.
  apply bind_inv in H as ([content d2] & _ & H).
  destruct (findImages d2 content (merge_options o)) as [images d3].
  destruct (findLinks d3 content (merge_options o)) as [links d4].
  apply bind_inv in H as (d5 & _ & H).
  destruct (Cheerio.html d5 content); [|done].
  by injection H as <-.
Qed.

(** C7 (the claim as stated fails): the page has exactly one [<h1>], of
    text [" Hi "]; [getH1] returns that text as it is, not its trimmed
    form ["Hi"]. *)
Lemma getH1_keeps_white_space :
  h1_texts Pages.padded_h1 = [" Hi "] /\
  getH1 Pages.padded_h1 (Some (VBool true)) = Some " Hi " /\
  JsString.trim " Hi " = "Hi" /\
  getH1 Pages.padded_h1 (Some (VBool true)) <> Some (JsString.trim " Hi ").
Proof.
  split; [evaluate |]. split; [evaluate |]. split; [evaluate |].
  vm_compute. discriminate.
Qed.

(** C7 (amended): with no [<h1>] in the body [getH1] returns the empty
    string; with exactly one, or with several and a truthy [useFirstH1], it
    returns the text, as it is (not trimmed), of the first [<h1>] whose
    text is not the empty string, and [undefined] when every [<h1>] has an
    empty text; with several and a falsy [useFirstH1] it returns the empty
    string. *)
Theorem getH1_first_nonempty_text (d : dom) (useFirstH1 : option value) :
  (length (h1_texts d) = 0 -> getH1 d useFirstH1 = Some EmptyString) /\
  (length (h1_texts d) = 1 \/ (2 <= length (h1_texts d) /\ truthy useFirstH1 = true) ->
     (forall t, getH1 d useFirstH1 = Some t <-> first_nonempty (h1_texts d) t) /\
     (getH1 d useFirstH1 = None <-> forall t, t ∈ h1_texts d -> t = EmptyString)) /\
  (2 <= length (h1_texts d) /\ truthy useFirstH1 = false ->
     getH1 d useFirstH1 = Some EmptyString).
Proof.
  assert (Hlen : length (h1_texts d)
                 = length (Cheerio.find d (Cheerio.select d "body") "h1"))
    by apply length_map.
  unfold getH1. rewrite <- Hlen.
  split; [|split].
  - intros ->. done.
  - intros Hcase.
    assert (Hrun : (if length (h1_texts d) =? 0 then Some EmptyString
                    else if (length (h1_texts d) =? 1) || truthy useFirstH1
                         then getFirstH1 d else Some EmptyString) = getFirstH1 d).
    { destruct Hcase as [-> | [H2 ->]]; [done |].
      destruct (length (h1_texts d)) as [|[|n]]; [lia | done | done]. }
    rewrite Hrun. split; [apply getFirstH1_Some | apply getFirstH1_None].
  - intros [H2 ->].
    destruct (length (h1_texts d)) as [|[|n]]; [lia | lia | done].
Qed.

(** The amended statement at work: of two [<h1>], the first one empty, the
    second is returned when [useFirstH1] is true, and the empty string when
    it is false. *)
Lemma getH1_first_nonempty_text_witness :
  h1_texts Pages.two_h1 = [""; "Second"] /\
  first_nonempty (h1_texts Pages.two_h1) "Second" /\
  getH1 Pages.two_h1 (Some (VBool true)) = Some "Second" /\
  getH1 Pages.two_h1 (Some (VBool false)) = Some "".
Proof.
  assert (Htexts : h1_texts Pages.two_h1 = [""; "Second"]) by (vm_compute; reflexivity).
  assert (Hfirst : first_nonempty (h1_texts Pages.two_h1) "Second").
  { rewrite Htexts. exists 1. split; [reflexivity |]. split; [discriminate |].
    intros j Hj. destruct j as [|j]; [reflexivity | lia]. }
  split; [exact Htexts |]. split; [exact Hfirst |]. split.
  - apply (proj1 (proj2 (getH1_first_nonempty_text Pages.two_h1 (Some (VBool true))))).
    + right. rewrite Htexts. split; [simpl; lia | reflexivity].
    + exact Hfirst.
  - apply (proj2 (proj2 (getH1_first_nonempty_text Pages.two_h1 (Some (VBool false))))).
    rewrite Htexts. split; [simpl; lia | reflexivity].
Defined.

(* ===================================================================== *)
(** ** Phase A: the container with the most paragraphs *)
(* ===================================================================== *)

Section SelectLoop.
Variable d : dom.

Lemma selectSection_step (o : option nat) (n s : nat) :
  selectSection d (o, n) s = if n <? nbrParas d s then (Some s, nbrParas d s) else (o, n).
Proof. done. Qed.

(** The loop keeps what it holds when nothing is greater, and holds the
    first greatest element otherwise. *)
Lemma selectSection_loop (tags : list nat) (o : option nat) (n : nat) :
  (fold_left (selectSection d) tags (o, n) = (o, n) /\
   forall s, s ∈ tags -> nbrParas d s <= n) \/
  (exists s, fold_left (selectSection d) tags (o, n) = (Some s, nbrParas d s) /\
             n < nbrParas d s /\ first_greatest (nbrParas d) tags s).
Proof.
  revert o n. induction tags as [|a tags IH]; intros o n; simpl.
  - left. split; [done | intros s Hs; by apply elem_of_nil in Hs].
  - rewrite selectSection_step.
    destruct (Nat.ltb_spec n (nbrParas d a)) as [Hlt | Hge].
    + right.
      destruct (IH (Some a) (nbrParas d a))
        as [[Heq Hall] | (s & Heq & Hs & i & Hi & Hmax & Hfirst)].
      * exists a. split; [done | split; [done |]]. exists 0. split; [done | split].
        -- intros [|j] s' Hj; simplify_eq/=; [done |].
           apply Hall. by eapply list_elem_of_lookup_2.
        -- intros; lia.
      * exists s. split; [done | split; [lia |]]. exists (S i). split; [done | split].
        -- intros [|j] s' Hj; simplify_eq/=; [lia | by eapply Hmax].
        -- intros [|j] s' Hj Hs'; simplify_eq/=; [done | eapply Hfirst; [|done]; lia].
    + destruct (IH o n) as [[Heq Hall] | (s & Heq & Hs & i & Hi & Hmax & Hfirst)].
      * left. split; [done |]. intros s [->|Hs]%elem_of_cons; [done | by apply Hall].
      * right. exists s. split; [done | split; [done |]]. exists (S i).
        split; [done | split].
        -- intros [|j] s' Hj; simplify_eq/=; [lia | by eapply Hmax].
        -- intros [|j] s' Hj Hs'; simplify_eq/=; [lia | eapply Hfirst; [|done]; lia].
Qed.

Lemma first_greatest_unique (f : nat -> nat) (tags : list nat) (s s' : nat) :
  first_greatest f tags s -> first_greatest f tags s' -> s = s'.
Proof.
  intros (i & Hi & Hmax & Hfirst) (i' & Hi' & Hmax' & Hfirst').
  destruct (Nat.lt_trichotomy i i') as [Hlt | [-> | Hlt]].
  - specialize (Hfirst' i s Hlt Hi). specialize (Hmax i' s' Hi'). lia.
  - congruence.
  - specialize (Hfirst i' s' Hlt Hi'). specialize (Hmax' i s Hi). lia.
Qed.

Lemma findArticle_loop :
  findArticle d = fst (fold_left (selectSection d) (sectionTags d) (None, 0)).
Proof.
  unfold findArticle. fold (sectionTags d).
  destruct (sectionTags d) as [|a l]; done.
Qed.

Lemma findArticle_Some (s : nat) :
  findArticle d = Some s <->
  0 < nbrParas d s /\ first_greatest (nbrParas d) (sectionTags d) s.
Proof.
  rewrite findArticle_loop.
  destruct (selectSection_loop (sectionTags d) None 0)
    as [[Heq Hall] | (s' & Heq & Hpos & Hfg)]; rewrite Heq; simpl.
  - split; [done |]. intros [Hpos (i & Hi & _)].
    apply list_elem_of_lookup_2, Hall in Hi. lia.
  - split.
    + intros [= <-]. done.
    + intros [_ Hs]. f_equal. by eapply first_greatest_unique.
Qed.

Lemma findArticle_None :
  findArticle d = None <-> forall s, s ∈ sectionTags d -> nbrParas d s = 0.
Proof.
  rewrite findArticle_loop.
  destruct (selectSection_loop (sectionTags d) None 0)
    as [[Heq Hall] | (s' & Heq & Hpos & i & Hi & _)]; rewrite Heq; simpl.
  - split; [|done]. intros _ s Hs. apply Hall in Hs. lia.
  - split; [done |]. intros Hall.
    apply list_elem_of_lookup_2, Hall in Hi. lia.
Qed.

End SelectLoop.

(** C3 (the claim as stated fails): the body holds a [<section>], which
    matches the container selectors, and it has no [<p>] below it; Phase A
    selects nothing, the scoring fallback runs although an element matches,
    and the [<div>] it scored is what [findContentSection] returns. *)
Lemma findArticle_skips_sections_without_paragraphs :
  sectionTags Pages.section_without_paragraph = [3] /\
  nbrParas Pages.section_without_paragraph 3 = 0 /\
  findArticle Pages.section_without_paragraph = None /\
  exists r, findContentSection Pages.section_without_paragraph
            = Return (Some 4, mkScoring Pages.section_without_paragraph r [5; 4]).
Proof.
  split; [evaluate |]. split; [evaluate |]. split; [evaluate |].
  eexists. evaluate.
Qed.

(** C3 (amended): Phase A selects a match exactly when that match has at
    least one [<p>] below it and is the first of the matches with the
    greatest count of [<p>]; the search then returns it and the scoring
    fallback does not run (nothing is scored, the document is untouched).
    Phase A selects nothing exactly when no match has a [<p>] below it (in
    particular when nothing matches), and only then the scoring fallback
    runs. *)
Theorem findArticle_first_with_most_paragraphs (d : dom) :
  (forall s, findArticle d = Some s <->
             0 < nbrParas d s /\ first_greatest (nbrParas d) (sectionTags d) s) /\
  (forall s, findArticle d = Some s ->
             findContentSection d = Return (Some s, mkScoring d ∅ [])) /\
  (findArticle d = None <-> forall s, s ∈ sectionTags d -> nbrParas d s = 0) /\
  (findArticle d = None -> findContentSection d = scoringFallback d).
Proof.
  split; [apply findArticle_Some | split; [|split]].
  - intros s Hs. unfold findContentSection. by rewrite Hs.
  - apply findArticle_None.
  - intros Hn. unfold findContentSection. by rewrite Hn.
Qed.

(** The amended statement at work: of a [<section>] with one paragraph, an
    [<article>] with two and a [<section>] with two, the [<article>] is
    selected, the first of the two greatest. *)
Lemma findArticle_first_with_most_paragraphs_witness :
  sectionTags Pages.two_sections = [3; 5; 8] /\
  map (nbrParas Pages.two_sections) [3; 5; 8] = [1; 2; 2] /\
  findArticle Pages.two_sections = Some 5 /\
  findContentSection Pages.two_sections
  = Return (Some 5, mkScoring Pages.two_sections ∅ []).
Proof.
  assert (Htags : sectionTags Pages.two_sections = [3; 5; 8]) by (vm_compute; reflexivity).
  assert (Hn : map (nbrParas Pages.two_sections) [3; 5; 8] = [1; 2; 2])
    by (vm_compute; reflexivity).
  assert (Hfind : findArticle Pages.two_sections = Some 5).
  { apply (proj1 (findArticle_first_with_most_paragraphs Pages.two_sections)).
    assert (H3 : nbrParas Pages.two_sections 3 = 1) by (vm_compute; reflexivity).
    assert (H5 : nbrParas Pages.two_sections 5 = 2) by (vm_compute; reflexivity).
    assert (H8 : nbrParas Pages.two_sections 8 = 2) by (vm_compute; reflexivity).
    rewrite Htags. revert H3 H5 H8.
    generalize (nbrParas Pages.two_sections). clear Htags Hn. intros f H3 H5 H8.
    split; [lia |].
    exists 1. split; [reflexivity |]. split.
    - intros [|[|[|j]]] s' Hj; simplify_eq/=; lia.
    - intros [|j] s' Hj Hs'; simplify_eq/=; lia. }
  split; [exact Htags |]. split; [exact Hn |]. split; [exact Hfind |].
  exact (proj1 (proj2 (findArticle_first_with_most_paragraphs Pages.two_sections)) 5 Hfind).
Defined.

(* ===================================================================== *)
(** ** Phase B: the scores *)
(* ===================================================================== *)

(** C4 (the code departs from the claim): [$(p).text() < MIN_CHARS]
    compares the text, not its length, with 25.  The paragraph of text
    ["Hello"] (5 characters) is scored: it and its parent become candidates
    and receive the increment.  The empty paragraph is removed and not
    scored; the paragraph ["12"] stays in the tree without a score, because
    its text reads as a number below 25. *)
Theorem findGoodCandidates_scores_short_paragraph :
  map (Cheerio.text Pages.short_paragraphs) [4; 5; 6] = ["Hello"; ""; "12"] /\
  exists st,
    findGoodCandidates Pages.short_paragraphs = Return st /\
    candidates st = [4; 3] /\
    readability st !! 4 = Some 2%float /\
    readability st !! 3 = Some 6%float /\
    readability st !! 5 = None /\
    readability st !! 6 = None /\
    Dom.lookup 5 (doc (page st)) = None /\
    Dom.lookup 6 (doc (page st)) = Some (Elem 6 "p" [] [Text "12"]).
Proof.
  split; [evaluate |]. eexists. split; [evaluate |].
  split; [evaluate |]. split; [evaluate |]. split; [evaluate |].
  split; [evaluate |]. split; [evaluate |]. split; evaluate.
Qed.

Lemma scaleCandidate_run (d : dom) (top : option nat) (r : gmap nat float) (c : nat) (s : float) :
  r !! c = Some s ->
  (forall t, top = Some t -> is_Some (r !! t)) ->
  exists top',
    scaleCandidate d (top, r) c = Return (top', <[c := scaled d c s]> r) /\
    (top' = Some c \/ top' = top).
Proof.
  intros Hc Htop. unfold scaleCandidate. rewrite Hc. fold (scaled d c s).
  destruct top as [t|].
  - rewrite lookup_insert_eq.
    destruct (Htop t eq_refl) as [st Hst].
    destruct (decide (c = t)) as [-> | Hne].
    + rewrite lookup_insert_eq. eexists. split; [done |].
      destruct (PrimFloat.ltb _ _); auto.
    + rewrite lookup_insert_ne by done. rewrite Hst. eexists. split; [done |].
      destruct (PrimFloat.ltb _ _); auto.
  - eexists. split; [done | auto].
Qed.

(** The loop of [getTopCandidate] stores the scaled score of every
    candidate and leaves the other records alone. *)
Lemma getTopCandidate_loop (d : dom) (cs : list nat) (top : option nat) (r : gmap nat float) :
  NoDup cs ->
  (forall c, c ∈ cs -> is_Some (r !! c)) ->
  (forall t, top = Some t -> is_Some (r !! t)) ->
  exists top' r',
    each (scaleCandidate d) cs (top, r) = Return (top', r') /\
    (forall c s, c ∈ cs -> r !! c = Some s -> r' !! c = Some (scaled d c s)) /\
    (forall c, c ∉ cs -> r' !! c = r !! c).
Proof.
  revert top r. induction cs as [|c cs IH]; intros top r Hnd Hall Htop.
  - exists top, r. split; [done | split; [|done]].
    intros c s Hc. by apply elem_of_nil in Hc.
  - apply NoDup_cons in Hnd as [Hnotin Hnd].
    destruct (Hall c (list_elem_of_here _ _)) as [s Hs].
    destruct (scaleCandidate_run d top r c s Hs Htop) as (top1 & Hrun & Htop1).
    destruct (IH top1 (<[c := scaled d c s]> r) Hnd) as (top' & r' & Heach & Hin & Hout).
    { intros c' Hc'. destruct (decide (c = c')) as [-> | Hne].
      - rewrite lookup_insert_eq. by eexists.
      - rewrite lookup_insert_ne by done. apply Hall. by apply list_elem_of_further. }
    { intros t Ht. destruct (decide (c = t)) as [-> | Hne].
      - rewrite lookup_insert_eq. by eexists.
      - rewrite lookup_insert_ne by done.
        destruct Htop1 as [-> | ->]; [congruence | by apply Htop]. }
    exists top', r'. split; [|split].
    + rewrite each_cons, Hrun. exact Heach.
    + intros c' s' [-> | Hc']%elem_of_cons Hs'.
      * rewrite (Hout c Hnotin), lookup_insert_eq. congruence.
      * apply Hin; [done |]. rewrite lookup_insert_ne; [done |].
        intros ->. contradiction.
    + intros c' Hc'. apply not_elem_of_cons in Hc' as [Hne Hc'].
      rewrite (Hout c' Hc'). by rewrite lookup_insert_ne.
Qed.

Lemma initializeElement_lookup (d : dom) (r : gmap nat float) (e c : nat) :
  is_Some (initializeElement d r e !! c) <-> c = e \/ is_Some (r !! c).
Proof.
  unfold initializeElement. rewrite lookup_alter.
  destruct (decide (e = c)) as [-> | Hne].
  - rewrite lookup_insert_eq. simpl. split; [auto | by eexists].
  - rewrite lookup_insert_ne by done. split; [auto | intros [? | ?]; [congruence | done]].
Qed.

Lemma alter_is_Some (f : float -> float) (r : gmap nat float) (e c : nat) :
  is_Some (alter f e r !! c) <-> is_Some (r !! c).
Proof.
  rewrite lookup_alter. destruct (decide (e = c)) as [-> | Hne]; [|done].
  by rewrite fmap_is_Some.
Qed.

Lemma scored_push (d : dom) (r : gmap nat float) (cs : list nat) (e : nat) :
  scored r cs -> r !! e = None -> scored (initializeElement d r e) (cs ++ [e]).
Proof.
  intros [Hnd Hdom] He. split.
  - apply NoDup_app. split; [done | split; [|apply NoDup_singleton]].
    intros c Hc ->%list_elem_of_singleton. apply Hdom in Hc as [? ?]. congruence.
  - intros c. rewrite initializeElement_lookup, elem_of_app, list_elem_of_singleton, Hdom.
    tauto.
Qed.

(** One turn of the scoring loop keeps the candidates and the score
    records in step. *)
Lemma scoreParagraph_scored (st st' : scoring) (p : nat) :
  scored (readability st) (candidates st) ->
  scoreParagraph st p = Return st' ->
  scored (readability st') (candidates st').
Proof.
  intros Hsc. unfold scoreParagraph.
  set (d := if String.length (Cheerio.text (page st) p) =? 0
            then Dom.remove (page st) p else page st).
  destruct (JsNumber.string_lt _ _); [intros [= <-]; exact Hsc |].
  destruct (readability st !! p) eqn:Hp.
  - destruct (Dom.parent d p) as [parent|]; [|done].
    destruct (readability st !! parent) eqn:Hparent; intros [= <-]; simpl.
    + destruct Hsc as [Hnd Hdom]. split; [done |].
      intros c. by rewrite !alter_is_Some.
    + destruct (scored_push d _ _ parent Hsc Hparent) as [Hnd Hdom]. split; [done |].
      intros c. by rewrite !alter_is_Some.
  - pose proof (scored_push d _ _ p Hsc Hp) as Hsc1.
    destruct (Dom.parent d p) as [parent|]; [|done].
    destruct (initializeElement d (readability st) p !! parent) eqn:Hparent;
      intros [= <-]; simpl.
    + destruct Hsc1 as [Hnd Hdom]. split; [done |].
      intros c. by rewrite !alter_is_Some.
    + destruct (scored_push d _ _ parent Hsc1 Hparent) as [Hnd Hdom]. split; [done |].
      intros c. by rewrite !alter_is_Some.
Qed.

Lemma each_scored (ps : list nat) (st st' : scoring) :
  scored (readability st) (candidates st) ->
  each scoreParagraph ps st = Return st' ->
  scored (readability st') (candidates st').
Proof.
  revert st. induction ps as [|p ps IH]; intros st Hsc; simpl.
  - intros [= <-]. exact Hsc.
  - destruct (scoreParagraph st p) as [st1|e] eqn:Hp; [|done].
    intros Heach. apply (IH st1); [|exact Heach].
    by eapply scoreParagraph_scored.
Qed.

(** The candidates [findGoodCandidates] returns are the elements it gave a
    score record, each once. *)
Lemma findGoodCandidates_scored (d : dom) (st : scoring) :
  findGoodCandidates d = Return st -> scored (readability st) (candidates st).
Proof.
  intros H. eapply each_scored; [|exact H]. split; [constructor |].
  intros c. simpl. rewrite lookup_empty.
  split; [by intros ?%elem_of_nil | by intros [? ?]].
Qed.




(** C10: the link density of an element can exceed 1.  The paragraph
    holds one anchor of text ["a    b"]: the anchor text counts 6
    characters, the collapsed text of the paragraph 3, the density is 2 and
    [1 - linkDensity] is negative; [getTopCandidate] turns the stored score
    2 of the paragraph into -2. *)
Theorem getLinkDensity_exceeds_one :
  exists d element,
    Cheerio.text d element = "a    b" /\
    map (Cheerio.text d) (Cheerio.find d [element] "a") = ["a    b"] /\
    removeExtraChars (Cheerio.text d element) = "a b" /\
    getLinkDensity d element = 2%float /\
    PrimFloat.ltb 1 (getLinkDensity d element) = true /\
    PrimFloat.ltb (1 - getLinkDensity d element) 0 = true /\
    exists st top r',
      findGoodCandidates d = Return st /\
      page st = d /\
      readability st !! element = Some 2%float /\
      getTopCandidate (page st) (readability st) (candidates st) = Return (top, r') /\
      r' !! element = Some (-2)%float.
Proof.
  exists Pages.spaced_anchor, 4.
  split; [evaluate |]. split; [evaluate |]. split; [evaluate |].
  split; [evaluate |]. split; [evaluate |]. split; [evaluate |].
  eexists. eexists. eexists.
  split; [evaluate |]. split; [evaluate |]. split; [evaluate |].
  split; evaluate.
Qed.

(* ===================================================================== *)
(** ** Images *)
(* ===================================================================== *)

(** C9 (the claim as stated fails): the document holds two [<img>], one
    inside the [<article>] that becomes the content and one outside it;
    [images] records the first only. *)
Lemma findImages_misses_images_outside_content :
  Cheerio.select Pages.image_outside_article "img" = [5; 6] /\
  Cheerio.find Pages.image_outside_article [3] "img" = [5] /\
  exists r,
    findContent Pages.image_outside_article HTML ∅ = Return r /\
    images r = [mkImage (Some "in.png") None].
Proof.
  split; [evaluate |]. split; [evaluate |]. eexists. split; evaluate.
Qed.

(** C9 (amended): [images] records [{src, alt}] for every [<img>] below
    the content selection, in document order, and for no other; when
    [removeImages] is truthy in the options [findImages] receives, every
    [<img>] below the body is then out of the document (and, the
    identities of the elements being distinct, [$('body').find('img')]
    finds nothing any more); when it is not, the document is left as it
    is. *)
Theorem findImages_of_content (d : dom) (contentSection : list nat)
    (options : gmap string value) :
  fst (findImages d contentSection options)
  = map (image_of d) (Cheerio.find d contentSection "img") /\
  (truthy (options !! "removeImages") = true ->
   (forall img, img ∈ Cheerio.find d (Cheerio.select d "body") "img" ->
                Dom.lookup img (doc (snd (findImages d contentSection options))) = None) /\
   (unique d ->
    Cheerio.find (snd (findImages d contentSection options))
      (Cheerio.select (snd (findImages d contentSection options)) "body") "img" = [])) /\
  (truthy (options !! "removeImages") = false ->
   snd (findImages d contentSection options) = d).
Proof.
  unfold findImages. simpl. split; [|split].
  - by rewrite (fold_left_push (image_of d)).
  - intros ->. split; [apply remove_all_gone | apply find_after_remove].
  - by intros ->.
Qed.

(** The amended statement at work: with the default options, the image of
    the article is recorded and both images leave the document. *)
Lemma findImages_of_content_witness :
  fst (findImages Pages.image_outside_article [3] defaultOptions)
  = [mkImage (Some "in.png") None] /\
  Dom.lookup 5 (doc (snd (findImages Pages.image_outside_article [3] defaultOptions))) = None /\
  Dom.lookup 6 (doc (snd (findImages Pages.image_outside_article [3] defaultOptions))) = None /\
  Cheerio.find (snd (findImages Pages.image_outside_article [3] defaultOptions))
    (Cheerio.select (snd (findImages Pages.image_outside_article [3] defaultOptions)) "body")
    "img" = [].
Proof.
  pose proof (findImages_of_content Pages.image_outside_article [3] defaultOptions)
    as (Himages & Hremoved & _).
  destruct (Hremoved eq_refl) as [Hgone Hnone].
  assert (Hbody : Cheerio.find Pages.image_outside_article
                    (Cheerio.select Pages.image_outside_article "body") "img" = [5; 6])
    by (vm_compute; reflexivity).
  rewrite Hbody in Hgone.
  split; [rewrite Himages; vm_compute; reflexivity |].
  split; [apply Hgone, list_elem_of_here |].
  split; [apply Hgone, list_elem_of_further, list_elem_of_here |].
  apply Hnone. exact (load_unique _).
Defined.

(* ===================================================================== *)
(** ** The content selection and the result *)
(* ===================================================================== *)

Lemma cleanContent_nil (d : dom) (options : gmap string value) :
  cleanContent d [] options = Return d.
Proof.
  unfold cleanContent, removeH1FromContent. rewrite !find_nil.
  destruct (truthy (options !! "removeH1FromContent"));
    destruct (truthy (options !! "removeImages") && truthy (options !! "removeFigcaptions"));
    destruct (truthy (options !! "removeEmptyTag"));
    cbn [length Nat.eqb fold_left]; rewrite ?find_nil; reflexivity.
Qed.

Lemma findLinks_nil (d : dom) (options : gmap string value) :
  findLinks d [] options = ([], d).
Proof. unfold findLinks. by rewrite find_nil. Qed.

Lemma bind_Return {A B : Type} (a : A) (k : A -> outcome B) :
  mbind k (Return a) = k a.
Proof. reflexivity. Qed.

(** The search returned [null]: [content] is the empty selection. *)
Lemma locate_null (d : dom) (o : gmap string value) (st : scoring) :
  truthy (o !! "htmlSelector") = false ->
  findContentSection d = Return (None, st) ->
  locate d (merge_options o) = Return ([], page st).
Proof.
  intros Hsel Hsection. unfold locate.
  rewrite (merge_options_other o "htmlSelector") by reflexivity.
  rewrite Hsel, Hsection. reflexivity.
Qed.

(** C2 (the code departs from the claim): when no [htmlSelector] is set
    and the search for the content section returns [null], [content] is
    the empty selection [$(null)], an object, so [content ? content :
    $('body')] keeps it; the body is not used, [content.html()] is [null]
    and [findContent] throws the content-not-found error. *)
Theorem findContent_never_falls_back_to_body
    (d d1 : dom) (type : string) (o : gmap string value) (st : scoring) :
  truthy (o !! "htmlSelector") = false ->
  cleanHTML d (merge_options o) = Return d1 ->
  findContentSection d1 = Return (None, st) ->
  findContent d type o = Throw content_not_found.
Proof.
  intros Hsel Hclean Hsection. unfold findContent.
  rewrite Hclean, bind_Return, (locate_null d1 o st Hsel Hsection), bind_Return.
  destruct (findImages (page st) [] (merge_options o)) as [images d2] eqn:Himages.
  rewrite findLinks_nil. cbv beta iota. rewrite cleanContent_nil, bind_Return.
  reflexivity.
Qed.

(** A body with text and no paragraph: nothing matches the container
    selectors, nothing is scored, and the extraction fails although the body
    holds markup. *)
Lemma findContent_never_falls_back_to_body_witness :
  truthy ((∅ : gmap string value) !! "htmlSelector") = false /\
  cleanHTML Pages.no_paragraph (merge_options ∅) = Return Pages.no_paragraph /\
  findContentSection Pages.no_paragraph = Return (None, mkScoring Pages.no_paragraph ∅ []) /\
  Cheerio.html Pages.no_paragraph (Cheerio.select Pages.no_paragraph "body")
  = Some [Pages.el "div" [MText "no paragraph"]] /\
  findContent Pages.no_paragraph HTML ∅ = Throw content_not_found.
Proof.
  assert (H1 : truthy ((∅ : gmap string value) !! "htmlSelector") = false) by reflexivity.
  assert (H2 : cleanHTML Pages.no_paragraph (merge_options ∅) = Return Pages.no_paragraph)
    by (vm_compute; reflexivity).
  assert (H3 : findContentSection Pages.no_paragraph
               = Return (None, mkScoring Pages.no_paragraph ∅ []))
    by (vm_compute; reflexivity).
  split; [exact H1 | split; [exact H2 | split; [exact H3 | split]]].
  - vm_compute. reflexivity.
  - exact (findContent_never_falls_back_to_body _ _ HTML ∅ _ H1 H2 H3).
Defined.

Lemma bind_throw {A B : Type} (m : outcome A) (k : A -> outcome B) (e : exn) :
  mbind k m = Throw e -> m = Throw e \/ exists a, m = Return a /\ k a = Throw e.
Proof. destruct m as [a|e']; [eauto | intros [= ->]; auto]. Qed.

(** A loop throws what one of its turns throws. *)
Lemma each_throw {S A : Type} (body : S -> A -> outcome S) (l : list A) (s : S) (e : exn) :
  each body l s = Throw e -> exists s' x, body s' x = Throw e.
Proof.
  revert s. induction l as [|x l IH]; intros s; [done |].
  rewrite each_cons. intros [H | (s' & _ & H)]%bind_throw; [eauto | by eapply IH].
Qed.

Lemma scoreParagraph_throw (st : scoring) (p : nat) (e : exn) :
  scoreParagraph st p = Throw e -> e = TypeError.
Proof.
  unfold scoreParagraph. destruct (JsNumber.string_lt _ _); [done |].
  destruct (readability st !! p); (destruct (Dom.parent _ p); [|by intros [= <-]]).
  - by destruct (readability st !! n).
  - by destruct (initializeElement _ _ p !! n).
Qed.

Lemma scaleCandidate_throw (d : dom) (st : option nat * gmap nat float) (c : nat) (e : exn) :
  scaleCandidate d st c = Throw e -> e = TypeError.
Proof.
  unfold scaleCandidate. destruct st as [top r].
  destruct (r !! c); [|by intros [= <-]].
  destruct top as [t|]; [|done].
  destruct (_ !! c); [|by intros [= <-]]. destruct (_ !! t); [done | by intros [= <-]].
Qed.

Lemma findContentSection_throw (d : dom) (e : exn) :
  findContentSection d = Throw e -> e = TypeError.
Proof.
  unfold findContentSection. destruct (findArticle d); [done |].
  intros [H | (st & _ & H)]%bind_throw.
  - apply each_throw in H as (st & p & H). by eapply scoreParagraph_throw.
  - apply bind_throw in H as [H | ([top r] & _ & H)]; [|done].
    apply each_throw in H as (st' & c & H). by eapply scaleCandidate_throw.
Qed.

Lemma cleanHTML_throw (d : dom) (options : gmap string value) (e : exn) :
  cleanHTML d options = Throw e -> e = TypeError.
Proof.
  unfold cleanHTML. intros [H | (d1 & _ & H)]%bind_throw; [|done].
  destruct (truthy _); [|done]. unfold removeTags in H.
  destruct (options !! "removeTags") as [[b|s]|]; [by injection H | done | by injection H].
Qed.

Lemma locate_throw (d : dom) (options : gmap string value) (e : exn) :
  locate d options = Throw e -> e = TypeError.
Proof.
  unfold locate. intros [H | ([content d1] & _ & H)]%bind_throw; [|done].
  destruct (truthy _); [done |].
  apply bind_throw in H as [H | ([section st] & _ & H)]; [|done].
  by eapply findContentSection_throw.
Qed.

Lemma addTableHeader_throw (d : dom) (t : nat) (e : exn) :
  addTableHeader d t = Throw e -> e = TypeError.
Proof.
  unfold addTableHeader. destruct (Cheerio.first _); [by intros [= <-] |].
  by destruct (String.eqb _ _).
Qed.

Lemma cleanContent_throw (d : dom) (contentSection : list nat) (options : gmap string value)
    (e : exn) :
  cleanContent d contentSection options = Throw e -> e = TypeError.
Proof.
  unfold cleanContent. intros (d' & t & H)%each_throw.
  destruct (length _ =? 0); [by eapply addTableHeader_throw | done].
Qed.

(** [findContent] throws the content-not-found error exactly when every
    step has run and [content.html()] is [null]; every other exception is a
    TypeError. *)
Lemma findContent_throws (d : dom) (type : string) (o : gmap string value) (e : exn) :
  findContent d type o = Throw e ->
  e = TypeError \/
  (e = content_not_found /\
   exists d1 content d2 d5,
     cleanHTML d (merge_options o) = Return d1 /\
     locate d1 (merge_options o) = Return (content, d2) /\
     cleanContent (findLinks (findImages d2 content (merge_options o)).2 content
                     (merge_options o)).2 content (merge_options o) = Return d5 /\
     Cheerio.html d5 content = None).
Proof.
  unfold findContent.
  intros [H | (d1 & Hclean & H)]%bind_throw; [left; by eapply cleanHTML_throw |].
  apply bind_throw in H as [H | ([content d2] & Hlocate & H)];
    [left; by eapply locate_throw |].
  destruct (findImages d2 content (merge_options o)) as [images d3] eqn:Himages.
  destruct (findLinks d3 content (merge_options o)) as [links d4] eqn:Hlinks.
  apply bind_throw in H as [H | (d5 & Hcontent & H)];
    [left; by eapply cleanContent_throw |].
  destruct (Cheerio.html d5 content) eqn:Hhtml; [done |].
  injection H as <-. right. split; [done |].
  exists d1, content, d2, d5. rewrite Himages. cbn [snd]. rewrite Hlinks. cbn [snd]. done.
Qed.

Lemma findContent_not_found (d d1 d2 d5 : dom) (type : string) (o : gmap string value)
    (content : list nat) :
  cleanHTML d (merge_options o) = Return d1 ->
  locate d1 (merge_options o) = Return (content, d2) ->
  cleanContent (findLinks (findImages d2 content (merge_options o)).2 content
                  (merge_options o)).2 content (merge_options o) = Return d5 ->
  Cheerio.html d5 content = None ->
  findContent d type o = Throw content_not_found.
Proof.
  intros Hclean Hlocate Hcontent Hhtml. unfold findContent.
  rewrite Hclean, bind_Return, Hlocate, bind_Return.
  destruct (findImages d2 content (merge_options o)) as [images d3].
  cbn [snd] in Hcontent.
  destruct (findLinks d3 content (merge_options o)) as [links d4].
  cbn [snd] in Hcontent.
  rewrite Hcontent, bind_Return, Hhtml. reflexivity.
Qed.

(** C6 (the code departs from the claim): a table without [<thead>] and
    without [<tbody>], whose three rows are its children: the table of the
    second case of [addTableHeader], as a handle of htmlparser2 holds it
    ([cheerio.load(html, { xmlMode: true })]; the default parser wraps the
    rows in a [<tbody>] and the table takes the first case).
    [$(t).children().html()] is the markup inside the first of the
    remaining rows only, so the repaired table holds the cells of the first
    row as header and the cells of the second as body; the third row is
    lost, in [addTableHeader] and in the content [findContent] returns. *)
Theorem addTableHeader_loses_rows :
  Cheerio.children Pages.three_rows 5 = [6; 8; 10] /\
  map (Cheerio.name Pages.three_rows) [6; 8; 10] = ["tr"; "tr"; "tr"] /\
  Cheerio.html Pages.three_rows [5] = Some [Pages.row "H"; Pages.row "1"; Pages.row "2"] /\
  (exists d,
     addTableHeader Pages.three_rows 5 = Return d /\
     Cheerio.html d [5]
     = Some [Pages.el "thead" [Pages.el "td" [MText "H"]];
             Pages.el "tbody" [Pages.el "td" [MText "1"]]]) /\
  (exists r,
     findContent Pages.three_rows HTML ∅ = Return r /\
     result_content r
     = Markup [Pages.el "p" [MText "x"];
               Pages.el "table" [Pages.el "thead" [Pages.el "td" [MText "H"]];
                                 Pages.el "tbody" [Pages.el "td" [MText "1"]]]]).
Proof.
  split; [evaluate |]. split; [evaluate |]. split; [evaluate |].
  split; eexists; (split; [evaluate | evaluate]).
Qed.

(** C8 (the code departs from the claim): the content holds a table
    without element children; [firstElement['0']] is [undefined] in
    [addTableHeader] and reading its [name] throws a TypeError: the call
    neither raises the content-not-found error nor returns a result,
    although the content has markup. *)
Theorem findContent_throws_TypeError_on_empty_table :
  Cheerio.html Pages.empty_table [3] = Some [Pages.el "p" [MText "x"]; Pages.el "table" []] /\
  Cheerio.children Pages.empty_table 5 = [] /\
  addTableHeader Pages.empty_table 5 = Throw TypeError /\
  findContent Pages.empty_table HTML ∅ = Throw TypeError /\
  findContent Pages.empty_table HTML ∅ <> Throw content_not_found.
Proof.
  split; [evaluate |]. split; [evaluate |]. split; [evaluate |]. split; [evaluate |].
  vm_compute. discriminate.
Qed.

(* ===================================================================== *)
(** ** Further properties of the heuristics *)
(* ===================================================================== *)

(** X1: the class/id weight of an element is one of -50, -25, 0, 25 and
    50: the class and the id each add -25, 0 or 25. *)
Theorem getClassWeight_values (d : dom) (element : nat) :
  getClassWeight d element = (-50)%float \/
  getClassWeight d element = (-25)%float \/
  getClassWeight d element = 0%float \/
  getClassWeight d element = 25%float \/
  getClassWeight d element = 50%float.
Proof.
  unfold getClassWeight.
  destruct (Cheerio.attr d element "class") as [c|];
    destruct (Cheerio.attr d element "id") as [i|];
    repeat match goal with
           | |- context [if ?b then _ else _] => destruct b
           end;
    vm_compute; tauto.
Qed.

(** X2: the candidates [findGoodCandidates] returns are exactly the
    elements it gave a score record, and none is listed twice. *)
Theorem candidates_scored_once (d : dom) (st : scoring) :
  findGoodCandidates d = Return st ->
  NoDup (candidates st) /\
  forall c, c ∈ candidates st <-> is_Some (readability st !! c).
Proof. apply findGoodCandidates_scored. Qed.

(** Two paragraphs in one [<div>]: the [<div>] is a candidate once. *)
Lemma candidates_scored_once_witness :
  findGoodCandidates
    (Pages.html_body [Pages.el "div" [Pages.el "p" [MText "first"]; Pages.el "p" [MText "second"]]])
  = Return (mkScoring
              (Pages.html_body [Pages.el "div" [Pages.el "p" [MText "first"];
                                                Pages.el "p" [MText "second"]]])
              {[ 3 := 7%float; 4 := 2%float; 5 := 2%float ]} [4; 3; 5]) /\
  NoDup [4; 3; 5] /\
  forall c, c ∈ [4; 3; 5]
            <-> is_Some (({[ 3 := 7%float; 4 := 2%float; 5 := 2%float ]} : gmap nat float) !! c).
Proof.
  assert (H : findGoodCandidates
                (Pages.html_body [Pages.el "div" [Pages.el "p" [MText "first"];
                                                  Pages.el "p" [MText "second"]]])
              = Return (mkScoring
                          (Pages.html_body [Pages.el "div" [Pages.el "p" [MText "first"];
                                                            Pages.el "p" [MText "second"]]])
                          {[ 3 := 7%float; 4 := 2%float; 5 := 2%float ]} [4; 3; 5]))
    by (vm_compute; reflexivity).
  split; [exact H |].
  exact (candidates_scored_once _ _ H).
Defined.

(** X3: for options whose [removeTags] and [htmlSelector] hold tag names
    when they are strings, [findContent] throws the content-not-found
    error only when every step has run and [content.html()] is [null];
    any other exception it throws is a TypeError. *)
Theorem findContent_exceptions (d : dom) (type : string) (o : gmap string value) (e : exn) :
  tag_names o = true ->
  findContent d type o = Throw e ->
  e = TypeError \/
  (e = content_not_found /\
   exists d1 content d2 d5,
     cleanHTML d (merge_options o) = Return d1 /\
     locate d1 (merge_options o) = Return (content, d2) /\
     cleanContent (findLinks (findImages d2 content (merge_options o)).2 content
                     (merge_options o)).2 content (merge_options o) = Return d5 /\
     Cheerio.html d5 content = None).
Proof. intros _. apply findContent_throws. Qed.

(** On the page without paragraph the exception is the content-not-found
    error, with the empty selection as content. *)
Lemma findContent_exceptions_witness :
  findContent Pages.no_paragraph HTML ∅ = Throw content_not_found /\
  (content_not_found = TypeError \/
   (content_not_found = content_not_found /\
    exists d1 content d2 d5,
      cleanHTML Pages.no_paragraph (merge_options ∅) = Return d1 /\
      locate d1 (merge_options ∅) = Return (content, d2) /\
      cleanContent (findLinks (findImages d2 content (merge_options ∅)).2 content
                      (merge_options ∅)).2 content (merge_options ∅) = Return d5 /\
      Cheerio.html d5 content = None)).
Proof.
  assert (H : findContent Pages.no_paragraph HTML ∅ = Throw content_not_found)
    by (vm_compute; reflexivity).
  assert (Ht : tag_names ∅ = true) by (vm_compute; reflexivity).
  split; [exact H |].
  exact (findContent_exceptions _ _ _ _ Ht H).
Defined.

(* ===================================================================== *)
(** ** Tag names and white space *)
(* ===================================================================== *)

(** The value [t] takes where it has been evaluated. *)
Ltac evaluated t H :=
  let v := eval vm_compute in t in
  assert (H : t = v) by (vm_compute; reflexivity).

Lemma lower_upper_ascii (c : ascii) :
  JsString.lower_ascii c = c -> JsString.lower_ascii (JsString.upper_ascii c) = c.
Proof.
  destruct c as [[] [] [] [] [] [] [] []]; vm_compute; intros H;
    first [reflexivity | discriminate H].
Qed.

Lemma toLowerCase_toUpperCase (s : string) :
  JsString.toLowerCase s = s -> JsString.toLowerCase (JsString.toUpperCase s) = s.
Proof.
  unfold JsString.toLowerCase, JsString.toUpperCase.
  induction s as [|c s IH]; [done |].
  simpl. intros [= Hc Hs]. by rewrite (lower_upper_ascii c Hc), (IH Hs).
Qed.

(** A name in lower case is in none of the lists of upper-case names. *)
Lemma includes_upper_case (l : list string) (name : string) :
  Forall (fun x => JsString.toLowerCase x <> x) l ->
  JsString.toLowerCase name = name -> includes l name = false.
Proof.
  intros Hl Hname. unfold includes. apply not_true_is_false. intros Hin.
  apply existsb_exists in Hin as (x & Hx%list_elem_of_In & Heq%String.eqb_eq).
  rewrite Forall_forall in Hl. apply (Hl x Hx). congruence.
Qed.

(** X4: [getContentScore] compares the name it receives with names in
    upper case, and only ['DIV'] after [toUpperCase].  For a name of code
    units below 256 that holds none of the letters A..Z (a fixed point of
    [JsString.toLowerCase]; the parser gives such names, or names with
    code units beyond 255) the score is 5 for [div] and 0 for every other
    name, the names of the good, bad and worst lists too.  Names with code
    units beyond 255 are outside the statement: [toUpperCase] makes
    ['DIV'] of the name with U+0131 for its [i]. *)
Theorem getContentScore_lower_case (elementName : string) :
  JsString.toLowerCase elementName = elementName ->
  getContentScore elementName
  = if String.eqb elementName "div" then VERY_GOOD_SCORE else 0%float.
Proof.
  intros Hlower. unfold getContentScore.
  destruct (String.eqb_spec (JsString.toUpperCase elementName) "DIV") as [Hdiv | Hdiv].
  - apply toLowerCase_toUpperCase in Hlower. rewrite Hdiv in Hlower.
    by rewrite <- Hlower.
  - destruct (String.eqb_spec elementName "div") as [-> | _]; [by destruct Hdiv |].
    rewrite !includes_upper_case; [done | | done | | done | | done];
      repeat constructor; vm_compute; discriminate.
Qed.

(** A [<pre>] scores nothing; so does a [<form>]. *)
Lemma getContentScore_lower_case_witness :
  getContentScore "pre" = 0%float /\ getContentScore "form" = 0%float.
Proof.
  split.
  - exact (getContentScore_lower_case "pre" eq_refl).
  - exact (getContentScore_lower_case "form" eq_refl).
Defined.

Lemma trimStart_empty (s : string) :
  JsString.trimStart s = EmptyString <-> all_space s = true.
Proof.
  induction s as [|c s IH]; [done |].
  simpl. destruct (JsString.is_space c); [exact IH | done].
Qed.

Lemma all_space_rev_append (s acc : string) :
  all_space (JsString.rev_append s acc) = all_space s && all_space acc.
Proof.
  revert acc. induction s as [|c s IH]; intros acc; [done |].
  simpl. rewrite IH. simpl. destruct (JsString.is_space c), (all_space s); simpl; try done.
  all: by destruct (all_space acc).
Qed.

Lemma rev_append_empty (s acc : string) :
  JsString.rev_append s acc = EmptyString -> s = EmptyString /\ acc = EmptyString.
Proof.
  revert acc. induction s as [|c s IH]; intros acc; [done |].
  simpl. intros [_ [=]]%IH.
Qed.

Lemma all_space_trimStart (s : string) :
  all_space (JsString.trimStart s) = all_space s.
Proof.
  induction s as [|c s IH]; [done |].
  simpl. destruct (JsString.is_space c) eqn:Hc; [exact IH |]. simpl. by rewrite Hc.
Qed.

(** [s.trim()] is empty exactly for a string of white space. *)
Lemma trim_empty (s : string) :
  JsString.trim s = EmptyString <-> all_space s = true.
Proof.
  unfold JsString.trim, JsString.rev. split.
  - intros [H _]%rev_append_empty. apply trimStart_empty in H.
    rewrite all_space_rev_append, andb_true_r, all_space_trimStart in H. done.
  - intros H.
    assert (H1 : JsString.trimStart s = EmptyString) by by apply trimStart_empty.
    by rewrite H1.
Qed.

Lemma all_space_collapse (b : bool) (s : string) :
  all_space (JsString.collapse_spaces b s) = all_space s.
Proof.
  revert b. induction s as [|c s IH]; intros b; [done |].
  simpl. destruct (JsString.is_space c) eqn:Hc.
  - destruct b; simpl; by rewrite IH.
  - simpl. by rewrite Hc.
Qed.

(** X5: [removeExtraChars] returns the empty string exactly for a string
    of white space (the empty string too): for the text of such an
    element [getLinkDensity] divides by 0. *)
Theorem removeExtraChars_empty (s : string) :
  removeExtraChars s = EmptyString <-> all_space s = true.
Proof. unfold removeExtraChars. by rewrite trim_empty, all_space_collapse. Qed.

(* ===================================================================== *)
(** ** The element an identity denotes *)
(* ===================================================================== *)

Lemma subtrees_self (n : node) : n ∈ subtrees n.
Proof. destruct n; apply list_elem_of_here. Qed.

Lemma subtrees_Elem v nm a ch :
  subtrees (Elem v nm a ch) = Elem v nm a ch :: flat_map subtrees ch.
Proof. done. Qed.

Lemma uids_Elem v nm a ch : Dom.uids (Elem v nm a ch) = v :: flat_map Dom.uids ch.
Proof. done. Qed.

(** What a lookup returns is a tree of the forest, with the identity
    looked up. *)
Lemma lookup_in_subtree (u : nat) (c n : node) :
  Dom.lookup_in u c = Some n -> n ∈ subtrees c /\ Dom.has_uid u n = true.
Proof.
  induction c as [s|s|v nm a ch IH] using node_children_ind; [done | done |].
  rewrite lookup_in_Elem, subtrees_Elem. destruct (Nat.eqb_spec u v) as [-> | Hne].
  - intros [= <-]. split; [apply list_elem_of_here | apply Nat.eqb_refl].
  - intros Hl. cut (n ∈ flat_map subtrees ch /\ Dom.has_uid u n = true).
    { intros [? ?]. split; [by apply list_elem_of_further | done]. }
    induction IH as [|c ch Hc _ IHch]; [done |].
    rewrite lookup_cons in Hl. simpl flat_map. rewrite elem_of_app.
    destruct (Dom.lookup_in u c) as [m|].
    + injection Hl as ->. destruct (Hc eq_refl). auto.
    + destruct (IHch Hl). auto.
Qed.

Lemma lookup_subtree (u : nat) (l : list node) (n : node) :
  Dom.lookup u l = Some n -> n ∈ flat_map subtrees l /\ Dom.has_uid u n = true.
Proof.
  induction l as [|c l IH]; [done |].
  rewrite lookup_cons. simpl flat_map. rewrite elem_of_app.
  destruct (Dom.lookup_in u c) as [m|] eqn:Hc.
  - intros [= <-]. destruct (lookup_in_subtree u c m Hc). auto.
  - intros Hl. destruct (IH Hl). auto.
Qed.

Lemma subtree_uids (u : nat) (c n : node) :
  n ∈ subtrees c -> Dom.has_uid u n = true -> u ∈ Dom.uids c.
Proof.
  intros Hn Hu. apply has_uid_true in Hu as (nm & a & ch & ->). revert Hn.
  induction c as [s|s|v nm' a' ch' IH] using node_children_ind;
    [simpl; intros H%list_elem_of_singleton; discriminate H.. |].
  rewrite subtrees_Elem, uids_Elem, !elem_of_cons. intros [[= -> _ _ _] | Hn]; [auto |].
  right. induction IH as [|c ch0 Hc _ IHch]; [by apply elem_of_nil in Hn |].
  simpl in Hn. simpl. apply elem_of_app in Hn as [Hn | Hn]; apply elem_of_app; auto.
Qed.

Lemma subtrees_uids (u : nat) (l : list node) (n : node) :
  n ∈ flat_map subtrees l -> Dom.has_uid u n = true -> u ∈ flat_map Dom.uids l.
Proof.
  induction l as [|c l IH]; [by intros ?%elem_of_nil |].
  simpl. rewrite !elem_of_app. intros [Hn | Hn] Hu; [left; by eapply subtree_uids | auto].
Qed.

(** In a forest without repeated identities, the lookup of an identity
    returns the one tree that has it. *)
Lemma lookup_in_unique (u : nat) (c n : node) :
  NoDup (Dom.uids c) -> n ∈ subtrees c -> Dom.has_uid u n = true ->
  Dom.lookup_in u c = Some n.
Proof.
  induction c as [s|s|v nm a ch IH] using node_children_ind.
  - intros _ ->%list_elem_of_singleton. done.
  - intros _ ->%list_elem_of_singleton. done.
  - rewrite uids_Elem, subtrees_Elem, lookup_in_Elem, elem_of_cons.
    intros [Hv Hnd]%NoDup_cons [-> | Hn] Hu.
    + simpl in Hu. by rewrite Hu.
    + assert (Hne : (u =? v) = false).
      { apply Nat.eqb_neq. intros ->. apply Hv. by eapply subtrees_uids. }
      rewrite Hne. clear Hv Hne.
      induction IH as [|c ch Hc _ IHch]; [by apply elem_of_nil in Hn |].
      simpl in Hnd, Hn. apply NoDup_app in Hnd as (Hndc & Hdisj & Hndch).
      rewrite lookup_cons. apply elem_of_app in Hn as [Hn | Hn].
      * by rewrite (Hc Hndc Hn Hu).
      * assert (Hnotin : u ∉ Dom.uids c).
        { intros Hin. apply (Hdisj u Hin). by eapply subtrees_uids. }
        apply lookup_in_None in Hnotin. rewrite Hnotin. by apply IHch.
Qed.

Lemma lookup_unique (u : nat) (l : list node) (n : node) :
  NoDup (flat_map Dom.uids l) -> n ∈ flat_map subtrees l -> Dom.has_uid u n = true ->
  Dom.lookup u l = Some n.
Proof.
  induction l as [|c l IH]; [by intros _ ?%elem_of_nil |].
  rewrite lookup_cons. simpl flat_map.
  intros (Hndc & Hdisj & Hndl)%NoDup_app [Hn | Hn]%elem_of_app Hu.
  - by rewrite (lookup_in_unique u c n Hndc Hn Hu).
  - assert (Hnotin : u ∉ Dom.uids c).
    { intros Hin. apply (Hdisj u Hin). by eapply subtrees_uids. }
    apply lookup_in_None in Hnotin. rewrite Hnotin. by apply IH.
Qed.

Lemma subtrees_children (l : list node) (n : node) :
  n ∈ flat_map subtrees (flat_map Dom.children_of l) -> n ∈ flat_map subtrees l.
Proof.
  induction l as [|c l IH]; [by intros ?%elem_of_nil |].
  simpl. rewrite flat_map_app, !elem_of_app. intros [Hn | Hn]; [left | auto].
  destruct c as [s|s|v nm a ch]; [by apply elem_of_nil in Hn.. |].
  rewrite subtrees_Elem. by apply list_elem_of_further.
Qed.

(** An element cut off is still what its reference denotes. *)
Lemma get_remove_self (d : dom) (u : nat) :
  unique d -> Dom.get (Dom.remove d u) u = Dom.get d u.
Proof.
  intros Hd. pose proof (unique_remove d u Hd) as Hd'. revert Hd'.
  unfold Dom.remove. destruct (Dom.attached d u) as [n|] eqn:Hn; [|done].
  intros Hd'. unfold Dom.get.
  assert (Hin : n ∈ flat_map subtrees (forest d) /\ Dom.has_uid u n = true).
  { unfold Dom.attached in Hn. unfold forest. rewrite flat_map_app, elem_of_app.
    destruct (Dom.lookup u (doc d)) as [m|] eqn:Hdoc.
    - injection Hn as ->. destruct (lookup_subtree _ _ _ Hdoc). auto.
    - destruct (lookup_subtree _ _ _ Hn) as [Hsub Hu]. split; [|done].
      right. by apply subtrees_children. }
  destruct Hin as [Hin Hu].
  rewrite (lookup_unique u (forest d) n Hd Hin Hu).
  apply lookup_unique; [exact Hd' | | exact Hu].
  unfold forest. simpl. rewrite !flat_map_app, !elem_of_app. right. right.
  simpl. rewrite app_nil_r. apply subtrees_self.
Qed.

Lemma text_remove_self (d : dom) (u : nat) :
  unique d -> Cheerio.text (Dom.remove d u) u = Cheerio.text d u.
Proof. intros Hd. unfold Cheerio.text. by rewrite get_remove_self. Qed.

(** What a selector finds in a tree is an element of the tree that
    matches it. *)
Lemma find_in_matches sel ctx inside (n : node) (u : nat) :
  u ∈ Cheerio.find_in sel ctx inside n ->
  exists m, m ∈ subtrees n /\ Dom.has_uid u m = true /\ Selector.matches sel m = true.
Proof.
  revert inside. induction n as [s|s|v nm a ch IH] using node_children_ind;
    intros inside; [by intros ?%elem_of_nil.. |].
  rewrite find_in_Elem, elem_of_app, subtrees_Elem. intros [Hu | Hu].
  - destruct inside; [|by apply elem_of_nil in Hu]. simpl andb in Hu.
    destruct (Selector.matches sel (Elem v nm a ch)) eqn:Hm; [|by apply elem_of_nil in Hu].
    apply list_elem_of_singleton in Hu as ->.
    exists (Elem v nm a ch). split; [apply list_elem_of_here |].
    split; [apply Nat.eqb_refl | exact Hm].
  - cut (exists m, m ∈ flat_map subtrees ch /\ Dom.has_uid u m = true /\
                    Selector.matches sel m = true).
    { intros (m & Hm & Hrest). exists m. split; [by apply list_elem_of_further | done]. }
    revert Hu. generalize (inside || existsb (Nat.eqb v) ctx).
    induction IH as [|c ch Hc _ IHch]; intros b Hu; [by apply elem_of_nil in Hu |].
    simpl in Hu. apply elem_of_app in Hu as [Hu | Hu].
    + destruct (Hc _ Hu) as (m & Hm & Hrest). exists m. split; [|done].
      simpl. apply elem_of_app. left. exact Hm.
    + destruct (IHch _ Hu) as (m & Hm & Hrest). exists m. split; [|done].
      simpl. apply elem_of_app. right. exact Hm.
Qed.

(** What [selection.find(selector)] finds denotes an element that
    matches the selector. *)
Lemma find_get (d : dom) (selection : list nat) (selector : string) (u : nat) :
  unique d -> u ∈ Cheerio.find d selection selector ->
  exists m, Dom.get d u = Some m /\ Dom.has_uid u m = true /\
            Selector.matches (Selector.parse selector) m = true.
Proof.
  intros Hd Hu. unfold Cheerio.find in Hu.
  assert (H : exists m, m ∈ flat_map subtrees (forest d) /\ Dom.has_uid u m = true /\
                        Selector.matches (Selector.parse selector) m = true).
  { induction (forest d) as [|n l IH]; [by apply elem_of_nil in Hu |].
    simpl in Hu. apply elem_of_app in Hu as [Hu | Hu].
    - destruct (find_in_matches _ _ _ _ _ Hu) as (m & Hm & Hrest).
      exists m. split; [|done]. simpl. apply elem_of_app. auto.
    - destruct (IH Hu) as (m & Hm & Hrest).
      exists m. split; [|done]. simpl. apply elem_of_app. auto. }
  destruct H as (m & Hm & Huid & Hmatch). exists m. split; [|done].
  by apply lookup_unique.
Qed.

(* ===================================================================== *)
(** ** Paragraphs that are not scored *)
(* ===================================================================== *)

Lemma string_lt_white (s : string) :
  all_space s = true -> JsNumber.string_lt s MIN_CHARS = true.
Proof.
  intros H%trim_empty. unfold JsNumber.string_lt, JsNumber.literal_of_string.
  by rewrite H.
Qed.

(** X6: a paragraph whose text is white space only (the empty text too)
    is not scored: the text converts to the number 0, which is below
    [MIN_CHARS], so the loop of [findGoodCandidates] goes on with the
    scores and the candidates as they were; the paragraph of empty text
    has been removed from the page, the others stay. *)
Theorem scoreParagraph_skips_white_text (st : scoring) (p : nat) :
  unique (page st) ->
  all_space (Cheerio.text (page st) p) = true ->
  scoreParagraph st p
  = Return (mkScoring
              (if String.length (Cheerio.text (page st) p) =? 0
               then Dom.remove (page st) p else page st)
              (readability st) (candidates st)).
Proof.
  intros Hd Hwhite. unfold scoreParagraph.
  destruct (String.length (Cheerio.text (page st) p) =? 0) eqn:Hlen.
  - rewrite (text_remove_self _ _ Hd). by rewrite (string_lt_white _ Hwhite).
  - by rewrite (string_lt_white _ Hwhite).
Qed.

(** The second paragraph of the page is empty: it is removed and not
    scored. *)
Lemma scoreParagraph_skips_white_text_witness :
  scoreParagraph (mkScoring Pages.short_paragraphs ∅ []) 5
  = Return (mkScoring
              (if String.length (Cheerio.text Pages.short_paragraphs 5) =? 0
               then Dom.remove Pages.short_paragraphs 5 else Pages.short_paragraphs)
              ∅ []).
Proof.
  apply (scoreParagraph_skips_white_text (mkScoring Pages.short_paragraphs ∅ []) 5).
  - apply load_unique.
  - vm_compute; reflexivity.
Defined.

(* ===================================================================== *)
(** ** What the caller's options change *)
(* ===================================================================== *)

(** The options in effect are the same for two callers that agree on
    [removeTags] and [htmlSelector]. *)
Lemma merge_options_agree (o o' : gmap string value) (key : string) :
  o !! "removeTags" = o' !! "removeTags" ->
  o !! "htmlSelector" = o' !! "htmlSelector" ->
  key ∈ ["useFirstH1"; "removeH1FromContent"; "removeHeadersWithoutText"; "removeImages";
         "removeFigcaptions"; "replaceLinks"; "removeForm"; "removeEmptyTag";
         "removeTags"; "htmlSelector"] ->
  merge_options o !! key = merge_options o' !! key.
Proof.
  intros Htags Hsel Hkey.
  repeat (apply elem_of_cons in Hkey as [-> | Hkey];
          [first [ by erewrite !merge_options_default by reflexivity
                 | by rewrite !merge_options_other by reflexivity ] |]).
  by apply elem_of_nil in Hkey.
Qed.

Ltac listed := repeat first [apply list_elem_of_here | apply list_elem_of_further].

(** X7: [findContent] reads ten options, and the eight flags among them
    always have their default value; so two calls whose options agree on
    [removeTags] and on [htmlSelector] have the same outcome, whatever
    else the options hold. *)
Theorem findContent_ignores_flags (d : dom) (type : string) (o o' : gmap string value) :
  o !! "removeTags" = o' !! "removeTags" ->
  o !! "htmlSelector" = o' !! "htmlSelector" ->
  findContent d type o = findContent d type o'.
Proof.
  intros Htags Hsel.
  pose proof (merge_options_agree o o' "useFirstH1" Htags Hsel ltac:(listed)) as E1.
  pose proof (merge_options_agree o o' "removeH1FromContent" Htags Hsel ltac:(listed)) as E2.
  pose proof (merge_options_agree o o' "removeHeadersWithoutText" Htags Hsel ltac:(listed)) as E3.
  pose proof (merge_options_agree o o' "removeImages" Htags Hsel ltac:(listed)) as E4.
  pose proof (merge_options_agree o o' "removeFigcaptions" Htags Hsel ltac:(listed)) as E5.
  pose proof (merge_options_agree o o' "replaceLinks" Htags Hsel ltac:(listed)) as E6.
  pose proof (merge_options_agree o o' "removeForm" Htags Hsel ltac:(listed)) as E7.
  pose proof (merge_options_agree o o' "removeEmptyTag" Htags Hsel ltac:(listed)) as E8.
  pose proof (merge_options_agree o o' "removeTags" Htags Hsel ltac:(listed)) as E9.
  pose proof (merge_options_agree o o' "htmlSelector" Htags Hsel ltac:(listed)) as E10.
  unfold findContent, cleanHTML, locate, findImages, findLinks, cleanContent.
  generalize dependent (merge_options o). generalize (merge_options o').
  intros m' m E1 E2 E3 E4 E5 E6 E7 E8 E9 E10.
  rewrite E1, E2, E3, E4, E5, E6, E7, E8, E9, E10. reflexivity.
Qed.

(** Every flag set against its default: the outcome is that of the call
    without options. *)
Lemma findContent_ignores_flags_witness :
  findContent Pages.article_form_image HTML
    (list_to_map [("useFirstH1", VBool false); ("removeH1FromContent", VBool false);
                  ("removeHeadersWithoutText", VBool false); ("removeImages", VBool false);
                  ("removeFigcaptions", VBool false); ("replaceLinks", VBool false);
                  ("removeForm", VBool true); ("removeEmptyTag", VBool true)])
  = findContent Pages.article_form_image HTML ∅.
Proof. apply findContent_ignores_flags; vm_compute; reflexivity. Defined.

(** X8: the output type changes the content of the result and nothing
    else: two calls that differ in the type both throw, the same
    exception, or both return, with the same title, description, h1,
    images, links and headers. *)
Theorem findContent_type_changes_content_only
    (d : dom) (type type' : string) (o : gmap string value) :
  match findContent d type o, findContent d type' o with
  | Return r, Return r' => same_but_content r r'
  | Throw e, Throw e' => e = e'
  | _, _ => False
  end.
Proof.
  unfold findContent.
  destruct (cleanHTML d (merge_options o)) as [d1|e]; [|done].
  rewrite !bind_Return.
  destruct (locate d1 (merge_options o)) as [[content d2]|e]; [|done].
  rewrite !bind_Return.
  destruct (findImages d2 content (merge_options o)) as [images d3].
  destruct (findLinks d3 content (merge_options o)) as [links d4].
  destruct (cleanContent d4 content (merge_options o)) as [d5|e]; [|done].
  rewrite !bind_Return.
  destruct (Cheerio.html d5 content); [|done].
  by repeat split.
Qed.

(** X9: [removeTags: true] is truthy and no string: [removeTags] calls
    [split] on it and [findContent] throws a TypeError, on every page. *)
Theorem findContent_removeTags_not_a_string
    (d : dom) (type : string) (o : gmap string value) :
  o !! "removeTags" = Some (VBool true) ->
  findContent d type o = Throw TypeError.
Proof.
  intros H. unfold findContent, cleanHTML.
  rewrite (merge_options_other o "removeTags") by reflexivity.
  rewrite H. reflexivity.
Qed.

Lemma findContent_removeTags_not_a_string_witness :
  findContent Pages.article_scenario HTML {[ "removeTags" := VBool true ]} = Throw TypeError.
Proof. apply findContent_removeTags_not_a_string. vm_compute; reflexivity. Defined.

(** X10: the title, the description and the h1 of a result are read from
    the page as it is given, before [cleanHTML] removes anything, and the
    h1 with the flag [useFirstH1] set. *)
Theorem findContent_metadata (d : dom) (type : string) (o : gmap string value)
    (r : ExtractionResult) :
  findContent d type o = Return r ->
  title r = getTitle d /\ description r = getDescription d /\
  h1 r = getH1 d (Some (VBool true)).
Proof.
  unfold findContent.
  rewrite (merge_options_default o "useFirstH1" (VBool true)) by reflexivity.
  intros (d1 & _ & H)%bind_inv.
  apply bind_inv in H as ([content d2] & _ & H).
  destruct (findImages d2 content (merge_options o)) as [images d3].
  destruct (findLinks d3 content (merge_options o)) as [links d4].
  apply bind_inv in H as (d5 & _ & H).
  destruct (Cheerio.html d5 content); [|done].
  by injection H as <-.
Qed.

Lemma findContent_metadata_witness :
  exists r,
    findContent Pages.article_scenario HTML ∅ = Return r /\
    title r = getTitle Pages.article_scenario /\
    description r = getDescription Pages.article_scenario /\
    h1 r = getH1 Pages.article_scenario (Some (VBool true)).
Proof.
  evaluated (findContent Pages.article_scenario HTML ∅) H.
  eexists. split; [exact H |].
  exact (findContent_metadata _ _ _ _ H).
Defined.

(* ===================================================================== *)
(** ** The page after [cleanHTML] *)
(* ===================================================================== *)

(** Below a selection of the document nothing is found in the trees cut
    off. *)
Lemma find_detached_nil sel (d : dom) (s1 : string) (u : nat) :
  unique d ->
  u ∉ flat_map (Cheerio.find_in sel (Cheerio.select d s1) false) (detached d).
Proof.
  intros Hd Hu.
  assert (Hctx : exists c, c ∈ Cheerio.select d s1 /\ c ∈ flat_map Dom.uids (detached d)).
  { clear -Hu. induction (detached d) as [|n l IH]; [by apply elem_of_nil in Hu |].
    simpl in Hu. apply elem_of_app in Hu as [Hu | Hu].
    - destruct (find_in_context _ _ _ _ Hu) as (c & Hc & Hin). exists c. split; [done |].
      simpl. apply elem_of_app. auto.
    - destruct (IH Hu) as (c & Hc & Hin). exists c. split; [done |].
      simpl. apply elem_of_app. auto. }
  destruct Hctx as (c & Hc & Hdet).
  apply find_forest_uids in Hc.
  unfold unique, forest in Hd. rewrite flat_map_app in Hd.
  apply NoDup_app in Hd as (_ & Hdisj & _). by apply (Hdisj c).
Qed.

(** What [$(s1).find(s2)] does not find, it does not find after a
    removal either. *)
Lemma find_nil_remove (d : dom) (s1 s2 : string) (v : nat) :
  unique d ->
  Cheerio.find d (Cheerio.select d s1) s2 = [] ->
  Cheerio.find (Dom.remove d v) (Cheerio.select (Dom.remove d v) s1) s2 = [].
Proof.
  intros Hd Hnil. apply elem_of_nil_inv. intros u.
  unfold Cheerio.find at 1. unfold forest. rewrite flat_map_app, elem_of_app.
  intros [Hu | Hu].
  - rewrite doc_remove in Hu.
    assert (Hfound : u ∈ Cheerio.find d (Cheerio.select d s1) s2).
    { unfold Cheerio.find, forest. rewrite flat_map_app, elem_of_app. left.
      eapply (find_remove_top _ _ _ false false v); [| done | exact Hu].
      intros c. unfold Cheerio.select. rewrite doc_remove.
      by apply find_remove_top. }
    rewrite Hnil in Hfound. by apply elem_of_nil in Hfound.
  - by apply (find_detached_nil _ _ _ _ (unique_remove d v Hd)) in Hu.
Qed.

(** Comments are no elements: dropping them changes no identity and
    nothing a selector finds. *)
Lemma uids_drop_comments (n : node) : Dom.uids (Dom.drop_comments n) = Dom.uids n.
Proof.
  induction n as [s|s|v nm a ch IH] using node_children_ind; [done | done |].
  simpl Dom.drop_comments. rewrite !uids_Elem. f_equal.
  induction IH as [|c ch Hc _ IHch]; [done |].
  simpl flat_map. rewrite flat_map_app, IHch. f_equal.
  destruct c as [s|s|w nm' a' ch']; [done | done |].
  cbn [Dom.is_comment flat_map]. rewrite app_nil_r. exact Hc.
Qed.

Lemma find_in_drop_comments sel ctx inside (n : node) :
  Cheerio.find_in sel ctx inside (Dom.drop_comments n) = Cheerio.find_in sel ctx inside n.
Proof.
  revert inside. induction n as [s|s|v nm a ch IH] using node_children_ind;
    intros inside; [done | done |].
  simpl Dom.drop_comments. rewrite !find_in_Elem.
  rewrite (matches_children sel v nm a _ ch). f_equal.
  generalize (inside || existsb (Nat.eqb v) ctx).
  induction IH as [|c ch Hc _ IHch]; intros b; [done |].
  simpl flat_map. rewrite <- IHch.
  destruct (Dom.is_comment c) eqn:Hcom.
  - destruct c; try discriminate Hcom. done.
  - simpl. by rewrite Hc.
Qed.

Lemma flat_map_pointwise {A B} (f g : A -> list B) (l : list A) :
  (forall x, f x = g x) -> flat_map f l = flat_map g l.
Proof. intros H. induction l as [|x l IH]; [done |]. simpl. by rewrite H, IH. Qed.

Lemma flat_map_of_map {A B C} (f : B -> list C) (g : A -> B) (l : list A) :
  flat_map f (map g l) = flat_map (fun x => f (g x)) l.
Proof. induction l as [|x l IH]; [done |]. simpl. by rewrite IH. Qed.

Lemma unique_remove_comments (d : dom) : unique d -> unique (Cheerio.remove_comments d).
Proof.
  unfold unique, forest, Cheerio.remove_comments. simpl.
  rewrite !flat_map_app, flat_map_of_map.
  by rewrite (flat_map_pointwise _ Dom.uids (doc d) uids_drop_comments).
Qed.

Lemma select_remove_comments (d : dom) (s : string) :
  Cheerio.select (Cheerio.remove_comments d) s = Cheerio.select d s.
Proof.
  unfold Cheerio.select, Cheerio.remove_comments. simpl. rewrite flat_map_of_map.
  apply flat_map_pointwise. intros n. apply find_in_drop_comments.
Qed.

Lemma find_remove_comments (d : dom) (selection : list nat) (s : string) :
  Cheerio.find (Cheerio.remove_comments d) selection s = Cheerio.find d selection s.
Proof.
  unfold Cheerio.find, Cheerio.remove_comments, forest. simpl.
  rewrite !flat_map_app, flat_map_of_map. f_equal.
  apply flat_map_pointwise. intros n. apply find_in_drop_comments.
Qed.

Lemma cleared_nil (d : dom) : unique d -> cleared [] d.
Proof. intros Hd. split; [done | by intros s ?%elem_of_nil]. Qed.

Lemma cleared_remove gone (d : dom) (v : nat) : cleared gone d -> cleared gone (Dom.remove d v).
Proof.
  intros [Hd Hg]. split; [by apply unique_remove |].
  intros s Hs. by apply find_nil_remove, Hg.
Qed.

Lemma cleared_remove_all gone (d : dom) (us : list nat) :
  cleared gone d -> cleared gone (Dom.remove_all d us).
Proof.
  revert d. induction us as [|v us IH]; intros d Hd; [done |].
  by apply IH, cleared_remove.
Qed.

(** [$('body').find(s).remove()] adds [s] to the selectors that find
    nothing. *)
Lemma cleared_sweep gone (d : dom) (s : string) :
  cleared gone d ->
  cleared (s :: gone) (Dom.remove_all d (Cheerio.find d (Cheerio.select d "body") s)).
Proof.
  intros Hc. pose proof (cleared_remove_all gone d
    (Cheerio.find d (Cheerio.select d "body") s) Hc) as [Hd' Hg'].
  split; [done |]. intros s' [-> | Hs']%elem_of_cons; [|by apply Hg'].
  apply find_after_remove, Hc.
Qed.

Lemma cleared_remove_comments gone (d : dom) :
  cleared gone d -> cleared gone (Cheerio.remove_comments d).
Proof.
  intros [Hd Hg]. split; [by apply unique_remove_comments |].
  intros s Hs. rewrite select_remove_comments, find_remove_comments. by apply Hg.
Qed.

Lemma cleared_fold {A} gone (f : dom -> A -> dom) (l : list A) (d : dom) :
  (forall d x, cleared gone d -> cleared gone (f d x)) ->
  cleared gone d -> cleared gone (fold_left f l d).
Proof.
  intros Hf. revert d. induction l as [|x l IH]; intros d Hd; [done |].
  simpl. by apply IH, Hf.
Qed.

Lemma cleared_removeHeadersWithoutText gone (d : dom) :
  cleared gone d -> cleared gone (removeHeadersWithoutText d).
Proof.
  intros Hd. unfold removeHeadersWithoutText.
  apply cleared_fold; [|done].
  intros d0 x Hd0. destruct (_ || _); [by apply cleared_remove | done].
Qed.

Lemma cleared_removeTags gone (d d' : dom) (tags : option value) :
  cleared gone d -> removeTags d tags = Return d' -> cleared gone d'.
Proof.
  intros Hd. unfold removeTags. destruct tags as [[b|s]|]; [done | | done].
  intros [= <-]. apply cleared_fold; [|done].
  intros d0 x Hd0. by apply cleared_remove_all.
Qed.

Lemma cleared_fold_sweep gone (tags : list string) (d : dom) :
  cleared gone d ->
  cleared (rev tags ++ gone)
    (fold_left (fun d tag => Dom.remove_all d (Cheerio.find d (Cheerio.select d "body") tag))
               tags d).
Proof.
  revert gone d. induction tags as [|tag tags IH]; intros gone d Hd; [done |].
  simpl. rewrite <- app_assoc. apply IH. by apply cleared_sweep.
Qed.

(** X11: in the page [cleanHTML] leaves, the body holds no element of the
    bad tags (nor a [<form>] when [removeForm] is set), of the classes
    and of the identifiers the module rejects: the later removals, of
    the comments and of the headers, bring none back. *)
Theorem cleanHTML_clears (d d' : dom) (options : gmap string value) :
  unique d ->
  cleanHTML d options = Return d' ->
  unique d' /\
  forall s,
    s ∈ [BAD_TAGS +:+ (if truthy (options !! "removeForm") then ",form" else "");
         N0T_A_GOOD_CLASS; N0T_A_GOOD_ID] ->
    Cheerio.find d' (Cheerio.select d' "body") s = [].
Proof.
  intros Hd. unfold cleanHTML. apply cleared_nil in Hd.
  destruct (if truthy (options !! "removeTags") then _ else _) as [d1|e] eqn:H1; [|done].
  assert (Hd1 : cleared [] d1).
  { destruct (truthy _); [by eapply cleared_removeTags | by injection H1 as <-]. }
  clear H1 Hd. unfold mbind, outcome_bind.
  generalize (BAD_TAGS +:+ (if truthy (options !! "removeForm") then ",form" else "")).
  intros bad. cbv zeta.
  apply (cleared_sweep _ _ bad) in Hd1.
  apply (cleared_sweep _ _ N0T_A_GOOD_CLASS) in Hd1.
  apply (cleared_sweep _ _ N0T_A_GOOD_ID) in Hd1.
  apply cleared_remove_comments in Hd1.
  match type of Hd1 with cleared _ ?x => generalize dependent x end.
  intros d4 Hd4 [= <-].
  assert (Hfin : cleared [N0T_A_GOOD_ID; N0T_A_GOOD_CLASS; bad]
                   (if truthy (options !! "removeHeadersWithoutText")
                    then removeHeadersWithoutText d4 else d4)).
  { destruct (truthy _); [apply cleared_removeHeadersWithoutText |]; exact Hd4. }
  destruct Hfin as [Hu Hg]. split; [exact Hu |].
  intros s Hs. apply Hg. revert Hs. rewrite !elem_of_cons. tauto.
Qed.

(** The page with a side bar, cleaned with the default options. *)
Lemma cleanHTML_clears_witness :
  exists d',
    cleanHTML Pages.sidebar_scenario (merge_options ∅) = Return d' /\
    unique d' /\
    forall s,
      s ∈ [BAD_TAGS +:+ (if truthy (merge_options ∅ !! "removeForm") then ",form" else "");
           N0T_A_GOOD_CLASS; N0T_A_GOOD_ID] ->
      Cheerio.find d' (Cheerio.select d' "body") s = [].
Proof.
  evaluated (cleanHTML Pages.sidebar_scenario (merge_options ∅)) H.
  eexists. split; [exact H |].
  exact (cleanHTML_clears _ _ _ (load_unique _) H).
Defined.

(** X12: [removeTags] throws a TypeError for anything but a string; for
    a string that lists tag names, separated by commas or line feeds, it
    returns, and in the page it leaves the body holds no element of any
    of these tags. *)
Theorem removeTags_clears (d : dom) (tagsToRemoves : option value) :
  unique d ->
  match tagsToRemoves with
  | Some (VString s) =>
      forallb alnum
        (JsString.split_runs (fun c => Ascii.eqb c "010" || Ascii.eqb c ",")
           false EmptyString s) = true ->
      exists d', removeTags d tagsToRemoves = Return d' /\ unique d' /\
        forall tag,
          tag ∈ JsString.split_runs (fun c => Ascii.eqb c "010" || Ascii.eqb c ",")
                  false EmptyString s ->
          Cheerio.find d' (Cheerio.select d' "body") tag = []
  | _ => removeTags d tagsToRemoves = Throw TypeError
  end.
Proof.
  intros Hd. destruct tagsToRemoves as [[b|s]|]; [done | | done].
  intros _. eexists. split; [reflexivity |].
  apply cleared_nil in Hd.
  apply (cleared_fold_sweep _
           (JsString.split_runs (fun c => Ascii.eqb c "010" || Ascii.eqb c ",")
              false EmptyString s)) in Hd.
  destruct Hd as [Hu Hg]. split; [exact Hu |].
  intros tag Htag. apply Hg. rewrite app_nil_r.
  apply list_elem_of_In. apply -> in_rev. by apply list_elem_of_In.
Qed.

Lemma removeTags_clears_witness :
  exists d',
    removeTags Pages.article_form_image (Some (VString "form,img")) = Return d' /\
    unique d' /\
    forall tag,
      tag ∈ JsString.split_runs (fun c => Ascii.eqb c "010" || Ascii.eqb c ",")
              false EmptyString "form,img" ->
      Cheerio.find d' (Cheerio.select d' "body") tag = [].
Proof.
  apply (removeTags_clears Pages.article_form_image (Some (VString "form,img"))
           (load_unique _)).
  vm_compute; reflexivity.
Defined.

Lemma comment_free_Elem v nm a ch :
  comment_free (Elem v nm a ch)
  = forallb (fun c => negb (Dom.is_comment c) && comment_free c) ch.
Proof. done. Qed.

Lemma comment_free_drop (n : node) : comment_free (Dom.drop_comments n) = true.
Proof.
  induction n as [s|s|v nm a ch IH] using node_children_ind; [done | done |].
  simpl Dom.drop_comments. rewrite comment_free_Elem.
  induction IH as [|c ch Hc _ IHch]; [done |].
  simpl flat_map. destruct (Dom.is_comment c) eqn:Hcom; [exact IHch |].
  simpl app. simpl forallb. rewrite Hc, IHch, andb_true_r, andb_true_r.
  apply negb_true_iff. by destruct c.
Qed.

Lemma is_comment_remove_in (v : nat) (c : node) :
  Dom.is_comment (Dom.remove_in v c) = Dom.is_comment c.
Proof. by destruct c. Qed.

Lemma comment_free_remove_in (v : nat) (n : node) :
  comment_free n = true -> comment_free (Dom.remove_in v n) = true.
Proof.
  induction n as [s|s|w nm a ch IH] using node_children_ind; [done | done |].
  rewrite remove_in_Elem, !comment_free_Elem.
  induction IH as [|c ch Hc _ IHch]; [done |].
  simpl forallb. intros [[Hcom Hfree]%andb_true_iff Hrest]%andb_true_iff.
  simpl flat_map. destruct (Dom.has_uid v c); [by apply IHch |].
  simpl app. simpl forallb.
  by rewrite is_comment_remove_in, Hcom, (Hc Hfree), (IHch Hrest).
Qed.

Lemma comment_free_remove_top (v : nat) (l : list node) :
  Forall (fun n => comment_free n = true) l ->
  Forall (fun n => comment_free n = true) (Dom.remove_top v l).
Proof.
  induction 1 as [|c l Hc _ IH]; [constructor |].
  rewrite remove_top_cons. destruct (Dom.has_uid v c); [exact IH |].
  constructor; [by apply comment_free_remove_in | exact IH].
Qed.

Lemma comment_free_remove (d : dom) (v : nat) :
  Forall (fun n => comment_free n = true) (doc d) ->
  Forall (fun n => comment_free n = true) (doc (Dom.remove d v)).
Proof. rewrite doc_remove. apply comment_free_remove_top. Qed.

(** X13: in the document [cleanHTML] leaves, no element has a comment
    among its children, at any depth. *)
Theorem cleanHTML_drops_comments (d d' : dom) (options : gmap string value) :
  cleanHTML d options = Return d' ->
  Forall (fun n => comment_free n = true) (doc d').
Proof.
  unfold cleanHTML.
  destruct (if truthy (options !! "removeTags") then _ else _) as [d1|e]; [|done].
  unfold mbind, outcome_bind. cbv zeta.
  match goal with
  | |- context [Cheerio.remove_comments ?x] => generalize x
  end.
  intros d3 [= <-].
  assert (H : Forall (fun n => comment_free n = true) (doc (Cheerio.remove_comments d3))).
  { unfold Cheerio.remove_comments. simpl. apply Forall_forall.
    intros n (m & -> & _)%list_elem_of_fmap. apply comment_free_drop. }
  destruct (truthy _); [|exact H].
  unfold removeHeadersWithoutText.
  generalize dependent (Cheerio.remove_comments d3). intros d4.
  generalize (Cheerio.find d4 (Cheerio.select d4 "body") HEADERS). intros l. revert d4.
  induction l as [|h l IH]; intros d4 Hd4; [done |].
  simpl. apply IH. destruct (_ || _); [by apply comment_free_remove | done].
Qed.

(** The comments inside [<body>] and inside [<p>] are dropped. *)
Lemma cleanHTML_drops_comments_witness :
  exists d',
    cleanHTML commented_page (merge_options ∅) = Return d' /\
    Forall (fun n => comment_free n = true) (doc d').
Proof.
  evaluated (cleanHTML commented_page (merge_options ∅)) H.
  eexists. split; [exact H |].
  exact (cleanHTML_drops_comments _ _ _ H).
Defined.

(* ===================================================================== *)
(** ** The element selected *)
(* ===================================================================== *)

Lemma scaleCandidate_top (d : dom) (top top' : option nat) (r r' : gmap nat float) (c : nat) :
  scaleCandidate d (top, r) c = Return (top', r') -> top' = Some c \/ (top' = top /\ top <> None).
Proof.
  unfold scaleCandidate. destruct (r !! c); [|done].
  destruct top as [t|]; [|intros [= <- _]; auto].
  destruct (_ !! c); [|done]. destruct (_ !! t); [|done].
  destruct (PrimFloat.ltb _ _); intros [= <- _]; auto.
Qed.

Lemma getTopCandidate_top (d : dom) (cs : list nat) (top top' : option nat)
    (r r' : gmap nat float) :
  each (scaleCandidate d) cs (top, r) = Return (top', r') ->
  (top' = top /\ (top = None -> cs = [])) \/ (exists c, c ∈ cs /\ top' = Some c).
Proof.
  revert top r. induction cs as [|c cs IH]; intros top r.
  - intros [= <- _]. auto.
  - rewrite each_cons. intros ([top1 r1] & Hstep & Hrest)%bind_inv.
    apply scaleCandidate_top in Hstep.
    destruct (IH _ _ Hrest) as [[-> Hnil] | (c' & Hc' & ->)].
    + destruct Hstep as [-> | [-> Hne]].
      * right. exists c. split; [apply list_elem_of_here | done].
      * left. split; [done | intros ->; done].
    + right. exists c'. split; [by apply list_elem_of_further | done].
Qed.

(** X14: the element [findContentSection] returns is a container of the
    structural selectors that holds a paragraph, or else a candidate of
    the scoring pass; it returns [null] only when no container holds a
    paragraph and the scoring pass has no candidate. *)
Theorem findContentSection_element (d : dom) (section : option nat) (st : scoring) :
  findContentSection d = Return (section, st) ->
  match section with
  | Some e => (e ∈ sectionTags d /\ 0 < nbrParas d e) \/ e ∈ candidates st
  | None => (forall s, s ∈ sectionTags d -> nbrParas d s = 0) /\ candidates st = []
  end.
Proof.
  unfold findContentSection. destruct (findArticle d) as [article|] eqn:Harticle.
  - intros [= <- <-]. left. apply findArticle_Some in Harticle as [Hpos (i & Hi & _)].
    split; [by eapply list_elem_of_lookup_2 | done].
  - intros (st1 & Hfind & H)%bind_inv.
    apply bind_inv in H as ([top r] & Htop & H). injection H as <- <-. simpl.
    apply getTopCandidate_top in Htop as [[-> Hnil] | (c & Hc & ->)].
    + split; [by apply findArticle_None | by apply Hnil].
    + by right.
Qed.

(** The page of the side bar has no container: the element returned is a
    candidate. *)
Lemma findContentSection_element_witness :
  exists section st,
    findContentSection Pages.sidebar_scenario = Return (section, st) /\
    match section with
    | Some e => (e ∈ sectionTags Pages.sidebar_scenario /\ 0 < nbrParas Pages.sidebar_scenario e)
                \/ e ∈ candidates st
    | None => (forall s, s ∈ sectionTags Pages.sidebar_scenario ->
                         nbrParas Pages.sidebar_scenario s = 0) /\ candidates st = []
    end.
Proof.
  evaluated (findContentSection Pages.sidebar_scenario) H.
  eexists. eexists. split; [exact H |].
  exact (findContentSection_element _ _ _ H).
Defined.

(* ===================================================================== *)
(** ** A selector that selects nothing *)
(* ===================================================================== *)

Lemma locate_override (d : dom) (o : gmap string value) (selector : string) :
  o !! "htmlSelector" = Some (VString selector) -> selector <> EmptyString ->
  locate d (merge_options o) = Return (Cheerio.select d selector, d).
Proof.
  intros Hsel Hne. unfold locate.
  rewrite (merge_options_other o "htmlSelector") by reflexivity.
  rewrite Hsel. simpl truthy. apply String.eqb_neq in Hne. rewrite Hne. reflexivity.
Qed.

Lemma select_nil_remove (d : dom) (s : string) (v : nat) :
  Cheerio.select d s = [] -> Cheerio.select (Dom.remove d v) s = [].
Proof.
  intros Hnil. apply elem_of_nil_inv. intros u Hu.
  unfold Cheerio.select in Hu. rewrite doc_remove in Hu.
  apply (find_remove_top _ [] [] true true) in Hu; [|done..].
  unfold Cheerio.select in Hnil. rewrite Hnil in Hu. by apply elem_of_nil in Hu.
Qed.

Lemma select_nil_fold {A} (s : string) (f : dom -> A -> dom) (l : list A) (d : dom) :
  (forall d x, Cheerio.select d s = [] -> Cheerio.select (f d x) s = []) ->
  Cheerio.select d s = [] -> Cheerio.select (fold_left f l d) s = [].
Proof.
  intros Hf. revert d. induction l as [|x l IH]; intros d Hd; [done |].
  simpl. by apply IH, Hf.
Qed.

Lemma select_nil_remove_all (d : dom) (s : string) (us : list nat) :
  Cheerio.select d s = [] -> Cheerio.select (Dom.remove_all d us) s = [].
Proof. apply select_nil_fold. intros d0 x. apply select_nil_remove. Qed.

(** What a selector does not select in a page, it does not select in the
    page cleaned. *)
Lemma select_nil_cleanHTML (d d' : dom) (options : gmap string value) (s : string) :
  cleanHTML d options = Return d' ->
  Cheerio.select d s = [] -> Cheerio.select d' s = [].
Proof.
  unfold cleanHTML. intros H Hnil.
  destruct (if truthy (options !! "removeTags") then _ else _) as [d1|e] eqn:H1; [|done].
  assert (Hd1 : Cheerio.select d1 s = []).
  { destruct (truthy _); [|by injection H1 as <-].
    unfold removeTags in H1. destruct (options !! "removeTags") as [[b|t]|]; [done | | done].
    injection H1 as <-. apply select_nil_fold; [|done].
    intros d0 x. apply select_nil_remove_all. }
  clear H1 Hnil. revert H. unfold mbind, outcome_bind. cbv zeta.
  generalize (BAD_TAGS +:+ (if truthy (options !! "removeForm") then ",form" else "")).
  intros bad.
  apply (select_nil_remove_all _ _ (Cheerio.find d1 (Cheerio.select d1 "body") bad)) in Hd1.
  match type of Hd1 with Cheerio.select ?x _ = _ => generalize dependent x end.
  intros d2 Hd2.
  apply (select_nil_remove_all _ _ (Cheerio.find d2 (Cheerio.select d2 "body") N0T_A_GOOD_CLASS))
    in Hd2.
  match type of Hd2 with Cheerio.select ?x _ = _ => generalize dependent x end.
  intros d3 Hd3.
  apply (select_nil_remove_all _ _ (Cheerio.find d3 (Cheerio.select d3 "body") N0T_A_GOOD_ID))
    in Hd3.
  match type of Hd3 with Cheerio.select ?x _ = _ => generalize dependent x end.
  intros d4 Hd4. rewrite <- (select_remove_comments d4) in Hd4.
  generalize dependent (Cheerio.remove_comments d4). intros d5 Hd5 [= <-].
  destruct (truthy _); [|done].
  unfold removeHeadersWithoutText. apply select_nil_fold; [|done].
  intros d0 x Hd0. destruct (_ || _); [by apply select_nil_remove | done].
Qed.

(** [cleanHTML] returns, but for a [removeTags] that is no string. *)
Lemma cleanHTML_returns (d : dom) (options : gmap string value) :
  options !! "removeTags" <> Some (VBool true) ->
  exists d', cleanHTML d options = Return d'.
Proof.
  intros Htags. unfold cleanHTML, removeTags.
  destruct (options !! "removeTags") as [[[]|t]|]; [done | | |]; simpl truthy;
    try destruct (negb _); unfold mbind, outcome_bind; eauto.
Qed.

(** X15: when the caller gives a tag name as [htmlSelector] and no
    element of the page has this name, [findContent] throws the
    content-not-found error ([removeTags] being a list of tag names, or
    not set): it falls back neither to the search for the content nor to
    the body. *)
Theorem findContent_selector_selects_nothing
    (d : dom) (type : string) (o : gmap string value) (selector : string) :
  tag_names o = true ->
  o !! "htmlSelector" = Some (VString selector) -> selector <> EmptyString ->
  o !! "removeTags" <> Some (VBool true) ->
  Cheerio.select d selector = [] ->
  findContent d type o = Throw content_not_found.
Proof.
  intros _ Hsel Hne Htags Hnone.
  rewrite <- (merge_options_other o "removeTags") in Htags by reflexivity.
  destruct (cleanHTML_returns d (merge_options o) Htags) as [d1 Hclean].
  pose proof (select_nil_cleanHTML _ _ _ _ Hclean Hnone) as Hnone1.
  unfold findContent.
  rewrite Hclean, bind_Return, (locate_override d1 o selector Hsel Hne), Hnone1, bind_Return.
  destruct (findImages d1 [] (merge_options o)) as [images d2] eqn:Himages.
  rewrite findLinks_nil. cbv beta iota. rewrite cleanContent_nil, bind_Return.
  reflexivity.
Qed.

(** The page has an [<article>] with a paragraph, and no [<main>]. *)
Lemma findContent_selector_selects_nothing_witness :
  findContent Pages.article_form_image HTML {[ "htmlSelector" := VString "main" ]}
  = Throw content_not_found.
Proof.
  apply (findContent_selector_selects_nothing _ _ _ "main").
  - vm_compute; reflexivity.
  - vm_compute; reflexivity.
  - discriminate.
  - vm_compute; discriminate.
  - vm_compute; reflexivity.
Defined.

(* ===================================================================== *)
(** ** Headers and links *)
(* ===================================================================== *)

Lemma matches_HEADERS (m : node) :
  Selector.matches (Selector.parse HEADERS) m = true ->
  Dom.name_of m ∈ ["h1"; "h2"; "h3"; "h4"; "h5"; "h6"; "h7"].
Proof.
  assert (Hp : Selector.parse HEADERS
               = map Selector.Tag ["h1"; "h2"; "h3"; "h4"; "h5"; "h6"; "h7"])
    by (vm_compute; reflexivity).
  rewrite Hp. clear Hp. unfold Selector.matches.
  generalize ["h1"; "h2"; "h3"; "h4"; "h5"; "h6"; "h7"].
  intros l Hm. apply existsb_exists in Hm as (s & Hs%list_elem_of_In & Hm).
  apply list_elem_of_fmap in Hs as (t & -> & Ht).
  unfold Selector.matches_simple in Hm.
  apply andb_true_iff in Hm as [_ Hm]. apply andb_true_iff in Hm as [_ Hm].
  by apply String.eqb_eq in Hm as ->.
Qed.

(** X16: [findHeaders] lists, in document order, the headings below the
    content whose text is not white space only, each with its tag name
    and its text as it is; so every header it returns has one of the
    names h1 to h7 and a text that is not blank. *)
Theorem findHeaders_headings (d : dom) (contentSection : list nat) :
  unique d ->
  findHeaders d contentSection
  = map (fun h => mkHeader (Cheerio.name d h) (Cheerio.text d h))
        (List.filter (fun h => negb (all_space (Cheerio.text d h)))
                     (Cheerio.find d contentSection HEADERS)) /\
  Forall (fun h => type h ∈ ["h1"; "h2"; "h3"; "h4"; "h5"; "h6"; "h7"] /\
                   all_space (header_text h) = false)
         (findHeaders d contentSection).
Proof.
  intros Hd.
  assert (Heq : findHeaders d contentSection
                = map (fun h => mkHeader (Cheerio.name d h) (Cheerio.text d h))
                      (List.filter (fun h => negb (all_space (Cheerio.text d h)))
                                   (Cheerio.find d contentSection HEADERS))).
  { unfold findHeaders, removeLineBreakTabs.
    rewrite (fold_left_push_if
               (fun h => negb (String.eqb (Cheerio.text d h) EmptyString)
                         && negb (String.eqb (JsString.trim (Cheerio.text d h)) EmptyString))
               (fun h => mkHeader (Cheerio.name d h) (Cheerio.text d h))).
    simpl app. f_equal. apply filter_ext. intros h.
    destruct (all_space (Cheerio.text d h)) eqn:Hs.
    - apply trim_empty in Hs. rewrite Hs. simpl. apply andb_false_r.
    - assert (Ht : JsString.trim (Cheerio.text d h) <> EmptyString).
      { intros Ht%trim_empty. congruence. }
      apply String.eqb_neq in Ht. rewrite Ht.
      destruct (Cheerio.text d h); [discriminate Hs | done]. }
  split; [exact Heq |]. rewrite Heq. apply Forall_forall. intros h Hh.
  apply list_elem_of_fmap in Hh as (u & -> & Hu).
  apply list_elem_of_In, filter_In in Hu as [Hu%list_elem_of_In Hs]. simpl.
  split; [|by apply negb_true_iff].
  destruct (find_get d _ _ u Hd Hu) as (m & Hget & _ & Hm).
  unfold Cheerio.name. rewrite Hget. by apply matches_HEADERS.
Qed.

(** Two [<h1>], the first one empty. *)
Lemma findHeaders_headings_witness :
  findHeaders Pages.two_h1 [2]
  = map (fun h => mkHeader (Cheerio.name Pages.two_h1 h) (Cheerio.text Pages.two_h1 h))
        (List.filter (fun h => negb (all_space (Cheerio.text Pages.two_h1 h)))
                     (Cheerio.find Pages.two_h1 [2] HEADERS)) /\
  Forall (fun h => type h ∈ ["h1"; "h2"; "h3"; "h4"; "h5"; "h6"; "h7"] /\
                   all_space (header_text h) = false)
         (findHeaders Pages.two_h1 [2]).
Proof. apply findHeaders_headings, load_unique. Defined.

Lemma findLinks_fold (d : dom) (contentSection : list nat) (options : gmap string value) :
  findLinks d contentSection options
  = fold_left (pushLink options) (Cheerio.find d contentSection "a") ([], d).
Proof. done. Qed.

Lemma pushLink_length (options : gmap string value) (l : list nat) (acc : list link) (d : dom) :
  length (fold_left (pushLink options) l (acc, d)).1 = length acc + length l.
Proof.
  revert acc d. induction l as [|a l IH]; intros acc d; [simpl; lia |].
  simpl fold_left. rewrite IH, length_app. simpl. lia.
Qed.

Lemma pushLink_keep (options : gmap string value) (l : list nat) (acc : list link) (d : dom) :
  truthy (options !! "replaceLinks") = false ->
  fold_left (pushLink options) l (acc, d)
  = (acc ++ map (fun a => mkLink (Cheerio.attr d a "href") (Cheerio.text d a)) l, d).
Proof.
  intros Hkeep. revert acc. induction l as [|a l IH]; intros acc; [simpl; by rewrite app_nil_r |].
  simpl fold_left. rewrite Hkeep, IH. simpl. by rewrite <- app_assoc.
Qed.

(** *** Elements replaced by text *)

Lemma no_elem_uids (new : list node) : no_elem new -> flat_map Dom.uids new = [].
Proof.
  induction 1 as [|c new Hc _ IH]; [done |].
  simpl. rewrite IH. by destruct c.
Qed.

Lemma no_elem_find sel ctx inside (new : list node) :
  no_elem new -> flat_map (Cheerio.find_in sel ctx inside) new = [].
Proof.
  induction 1 as [|c new Hc _ IH]; [done |].
  simpl. rewrite IH. by destruct c.
Qed.

Lemma no_elem_text_markup (s : string) (k : nat) :
  no_elem (Dom.parse (Cheerio.text_markup s) k).1.
Proof.
  unfold Cheerio.text_markup. destruct (String.eqb s EmptyString); [constructor |].
  repeat constructor.
Qed.

Lemma replace_in_Elem (u v : nat) new nm a ch :
  Dom.replace_in u new (Elem v nm a ch) = Elem v nm a (Dom.replace_top u new ch).
Proof. done. Qed.

Lemma replace_top_cons (u : nat) new (n : node) (l : list node) :
  Dom.replace_top u new (n :: l)
  = (if Dom.has_uid u n then new else [Dom.replace_in u new n]) ++ Dom.replace_top u new l.
Proof. done. Qed.

(** Replacing elements by nodes that are no elements leaves the elements
    that removing them leaves. *)
Lemma uids_replace_in (u : nat) new (n : node) :
  no_elem new -> Dom.uids (Dom.replace_in u new n) = Dom.uids (Dom.remove_in u n).
Proof.
  intros Hnew. induction n as [s|s|v nm a ch IH] using node_children_ind; [done | done |].
  rewrite replace_in_Elem, remove_in_Elem, !uids_Elem. f_equal.
  induction IH as [|c ch Hc _ IHch]; [done |].
  rewrite replace_top_cons, remove_top_cons, !flat_map_app, IHch. f_equal.
  destruct (Dom.has_uid u c); [by apply no_elem_uids |].
  simpl. by rewrite Hc.
Qed.

Lemma uids_replace_top (u : nat) new (l : list node) :
  no_elem new ->
  flat_map Dom.uids (Dom.replace_top u new l) = flat_map Dom.uids (Dom.remove_top u l).
Proof.
  intros Hnew. induction l as [|c l IH]; [done |].
  rewrite replace_top_cons, remove_top_cons, !flat_map_app, IH. f_equal.
  destruct (Dom.has_uid u c); [by apply no_elem_uids |].
  simpl. by rewrite uids_replace_in.
Qed.

Lemma find_in_replace_in sel ctx inside (u : nat) new (n : node) :
  no_elem new ->
  Cheerio.find_in sel ctx inside (Dom.replace_in u new n)
  = Cheerio.find_in sel ctx inside (Dom.remove_in u n).
Proof.
  intros Hnew. revert inside.
  induction n as [s|s|v nm a ch IH] using node_children_ind; intros inside; [done | done |].
  rewrite replace_in_Elem, remove_in_Elem, !find_in_Elem.
  rewrite (matches_children sel v nm a _ (Dom.remove_top u ch)). f_equal.
  generalize (inside || existsb (Nat.eqb v) ctx).
  induction IH as [|c ch Hc _ IHch]; intros b; [done |].
  rewrite replace_top_cons, remove_top_cons, !flat_map_app, IHch. f_equal.
  destruct (Dom.has_uid u c); [by apply no_elem_find |].
  simpl. by rewrite Hc.
Qed.

Lemma find_replace_top sel ctx inside (u : nat) new (l : list node) :
  no_elem new ->
  flat_map (Cheerio.find_in sel ctx inside) (Dom.replace_top u new l)
  = flat_map (Cheerio.find_in sel ctx inside) (Dom.remove_top u l).
Proof.
  intros Hnew. induction l as [|c l IH]; [done |].
  rewrite replace_top_cons, remove_top_cons, !flat_map_app, IH. f_equal.
  destruct (Dom.has_uid u c); [by apply no_elem_find |].
  simpl. by rewrite find_in_replace_in.
Qed.


(** The trees of a tree hold elements of the tree. *)
Lemma subtree_uids_incl (c n : node) (u : nat) :
  n ∈ subtrees c -> u ∈ Dom.uids n -> u ∈ Dom.uids c.
Proof.
  induction c as [s|s|v nm a ch IH] using node_children_ind.
  - by intros ->%list_elem_of_singleton.
  - by intros ->%list_elem_of_singleton.
  - rewrite subtrees_Elem, elem_of_cons. intros [-> | Hn] Hu; [done |].
    rewrite uids_Elem. apply list_elem_of_further.
    induction IH as [|c ch Hc _ IHch]; [by apply elem_of_nil in Hn |].
    simpl in Hn. simpl. apply elem_of_app in Hn as [Hn | Hn]; apply elem_of_app; auto.
Qed.

Lemma subtrees_uids_incl (l : list node) (n : node) (u : nat) :
  n ∈ flat_map subtrees l -> u ∈ Dom.uids n -> u ∈ flat_map Dom.uids l.
Proof.
  induction l as [|c l IH]; [by intros ?%elem_of_nil |].
  simpl. rewrite !elem_of_app. intros [Hn | Hn] Hu; [left; by eapply subtree_uids_incl | auto].
Qed.

Lemma subtree_NoDup (c n : node) :
  n ∈ subtrees c -> NoDup (Dom.uids c) -> NoDup (Dom.uids n).
Proof.
  induction c as [s|s|v nm a ch IH] using node_children_ind.
  - by intros ->%list_elem_of_singleton.
  - by intros ->%list_elem_of_singleton.
  - rewrite subtrees_Elem, elem_of_cons. intros [-> | Hn] Hnd; [done |].
    rewrite uids_Elem in Hnd. apply NoDup_cons in Hnd as [_ Hnd].
    induction IH as [|c ch Hc _ IHch]; [by apply elem_of_nil in Hn |].
    simpl in Hn, Hnd. apply NoDup_app in Hnd as (Hc1 & _ & Hc2).
    apply elem_of_app in Hn as [Hn | Hn]; auto.
Qed.

Lemma subtrees_NoDup (l : list node) (n : node) :
  n ∈ flat_map subtrees l -> NoDup (flat_map Dom.uids l) -> NoDup (Dom.uids n).
Proof.
  induction l as [|c l IH]; [by intros ?%elem_of_nil |].
  simpl. intros [Hn | Hn]%elem_of_app (Hc1 & _ & Hc2)%NoDup_app;
    [by eapply subtree_NoDup | auto].
Qed.

(** What is found below a selection in a tree of a tree is found in the
    tree. *)
Lemma find_in_subtree sel ctx inside (c n : node) (u : nat) :
  n ∈ subtrees c -> u ∈ Cheerio.find_in sel ctx false n ->
  u ∈ Cheerio.find_in sel ctx inside c.
Proof.
  revert inside. induction c as [s|s|v nm a ch IH] using node_children_ind; intros inside.
  - by intros ->%list_elem_of_singleton.
  - by intros ->%list_elem_of_singleton.
  - rewrite subtrees_Elem, elem_of_cons. intros [-> | Hn] Hu.
    + eapply find_in_mono; [| | exact Hu]; done.
    + rewrite find_in_Elem. apply elem_of_app. right.
      generalize (inside || existsb (Nat.eqb v) ctx). intros b.
      induction IH as [|c ch Hc _ IHch]; [by apply elem_of_nil in Hn |].
      simpl in Hn. simpl. apply elem_of_app in Hn as [Hn | Hn]; apply elem_of_app; auto.
Qed.

Lemma find_forest_subtree sel ctx (l : list node) (n : node) (u : nat) :
  n ∈ flat_map subtrees l -> u ∈ Cheerio.find_in sel ctx false n ->
  u ∈ flat_map (Cheerio.find_in sel ctx false) l.
Proof.
  induction l as [|c l IH]; [by intros ?%elem_of_nil |].
  simpl. rewrite !elem_of_app. intros [Hn | Hn] Hu; [left; by eapply find_in_subtree | auto].
Qed.

(** The element an identity denotes, when it has a parent, is a tree of
    the page. *)
Lemma attached_subtree (d : dom) (u : nat) (n : node) :
  Dom.attached d u = Some n ->
  Dom.has_uid u n = true /\
  (n ∈ flat_map subtrees (doc d) \/
   n ∈ flat_map subtrees (flat_map Dom.children_of (detached d))).
Proof.
  unfold Dom.attached. destruct (Dom.lookup u (doc d)) as [m|] eqn:Hdoc.
  - intros [= <-]. destruct (lookup_subtree _ _ _ Hdoc). auto.
  - intros Hn. destruct (lookup_subtree _ _ _ Hn). auto.
Qed.

Lemma attached_None (d : dom) (u : nat) :
  Dom.attached d u = None <->
  (u ∉ flat_map Dom.uids (doc d)) /\
  (u ∉ flat_map Dom.uids (flat_map Dom.children_of (detached d))).
Proof.
  unfold Dom.attached. rewrite <- !lookup_None.
  destruct (Dom.lookup u (doc d)); [|tauto].
  split; [done | by intros [? _]].
Qed.

(** What [selection.find(selector)] finds has a parent. *)
Lemma find_attached (d : dom) (selection : list nat) (selector : string) (u : nat) :
  u ∈ Cheerio.find d selection selector -> Dom.attached d u <> None.
Proof.
  unfold Cheerio.find, forest. rewrite flat_map_app, elem_of_app.
  intros Hu [Hdoc Hdet]%attached_None. destruct Hu as [Hu | Hu].
  - by apply find_forest_uids in Hu.
  - apply Hdet. clear -Hu. induction (detached d) as [|n l IH]; [by apply elem_of_nil in Hu |].
    simpl in Hu. simpl. rewrite flat_map_app. apply elem_of_app.
    apply elem_of_app in Hu as [Hu | Hu]; [left | auto].
    destruct n as [s|s|v nm a ch]; [by apply elem_of_nil in Hu.. |].
    rewrite find_in_Elem in Hu. simpl andb in Hu. simpl app in Hu.
    by apply find_forest_uids in Hu.
Qed.

Lemma children_remove_in (u v : nat) (l : list node) :
  u ∉ flat_map Dom.uids (flat_map Dom.children_of l) ->
  u ∉ flat_map Dom.uids (flat_map Dom.children_of (map (Dom.remove_in v) l)).
Proof.
  induction l as [|c l IH]; [done |].
  simpl. rewrite !flat_map_app, !elem_of_app. intros Hu [Hin | Hin].
  - destruct c as [s|s|w nm a ch]; [by apply elem_of_nil in Hin.. |].
    rewrite remove_in_Elem in Hin. simpl Dom.children_of in *.
    revert Hin. apply lookup_None, remove_top_absent, lookup_None. tauto.
  - apply IH; tauto.
Qed.

Lemma children_remove_in_gone (u : nat) (l : list node) :
  u ∉ flat_map Dom.uids (flat_map Dom.children_of (map (Dom.remove_in u) l)).
Proof.
  induction l as [|c l IH]; [by intros ?%elem_of_nil |].
  simpl. rewrite !flat_map_app, !elem_of_app. intros [Hin | Hin]; [|done].
  destruct c as [s|s|w nm a ch]; [by apply elem_of_nil in Hin.. |].
  rewrite remove_in_Elem in Hin. simpl Dom.children_of in *.
  revert Hin. apply lookup_None, remove_top_gone.
Qed.

(** *** Elements removed *)

(** An element without a parent gets none. *)
Lemma remove_out (d : dom) (a u : nat) :
  Dom.attached d u = None -> Dom.attached (Dom.remove d a) u = None.
Proof.
  unfold Dom.remove. destruct (Dom.attached d a) as [n|] eqn:Hn; [|done].
  rewrite !attached_None. simpl. intros [Hdoc Hdet]. split.
  - by apply lookup_None, remove_top_absent, lookup_None.
  - rewrite !flat_map_app, elem_of_app. simpl.
    rewrite app_nil_r. intros [Hin | Hin].
    + revert Hin. by apply children_remove_in.
    + destruct (attached_subtree _ _ _ Hn) as [_ [Hsub | Hsub]].
      * apply Hdoc. eapply subtrees_uids_incl; [exact Hsub |].
        destruct n as [? | ? | v nm at' ch]; [by apply elem_of_nil in Hin.. |].
        rewrite uids_Elem. by apply list_elem_of_further.
      * apply Hdet. eapply subtrees_uids_incl; [exact Hsub |].
        destruct n as [? | ? | v nm at' ch]; [by apply elem_of_nil in Hin.. |].
        rewrite uids_Elem. by apply list_elem_of_further.
Qed.

(** The element removed has no parent. *)
Lemma remove_self_out (d : dom) (a : nat) :
  unique d -> Dom.attached (Dom.remove d a) a = None.
Proof.
  intros Hd. unfold Dom.remove.
  destruct (Dom.attached d a) as [n|] eqn:Hn; [|done].
  rewrite attached_None. simpl. split.
  - apply lookup_None, remove_top_gone.
  - rewrite !flat_map_app, elem_of_app. simpl.
    rewrite app_nil_r. intros [Hin | Hin].
    + by apply children_remove_in_gone in Hin.
    + destruct (attached_subtree _ _ _ Hn) as [Hu Hsub].
      assert (Hnd : NoDup (Dom.uids n)).
      { apply (subtrees_NoDup (forest d)); [|exact Hd].
        unfold forest. rewrite flat_map_app, elem_of_app.
        destruct Hsub as [Hsub | Hsub]; [by left | right; by apply subtrees_children]. }
      apply has_uid_true in Hu as (nm & at' & ch & ->).
      rewrite uids_Elem in Hnd. apply NoDup_cons in Hnd as [Hnotin _]. by apply Hnotin.
Qed.

(** What is found below a selection after a removal was found before. *)
Lemma remove_find (d : dom) (a : nat) (selection : list nat) (selector : string) (u : nat) :
  u ∈ Cheerio.find (Dom.remove d a) selection selector ->
  u ∈ Cheerio.find d selection selector.
Proof.
  unfold Dom.remove. destruct (Dom.attached d a) as [n|] eqn:Hn; [|done].
  unfold Cheerio.find, forest. simpl.
  rewrite !flat_map_app, !elem_of_app. simpl. rewrite app_nil_r.
  intros [Hu | [Hu | Hu]].
  - left. by eapply find_remove_top; [| | exact Hu].
  - right. clear Hn. induction (detached d) as [|c l IH]; [by apply elem_of_nil in Hu |].
    simpl in Hu. simpl. apply elem_of_app in Hu as [Hu | Hu]; apply elem_of_app; [left | auto].
    by eapply find_in_remove; [| | exact Hu].
  - destruct (attached_subtree _ _ _ Hn) as [_ [Hsub | Hsub]].
    + left. by eapply find_forest_subtree.
    + right. apply subtrees_children in Hsub. by eapply find_forest_subtree.
Qed.

(** [selection.find(selector).remove()] leaves nothing for
    [selection.find(selector)] to find, whatever the selection. *)
Lemma remove_all_out (selection : list nat) (selector : string) (l : list nat) (d : dom) :
  unique d ->
  (forall u, Dom.attached d u = None -> Dom.attached (Dom.remove_all d l) u = None) /\
  (forall u, u ∈ l -> Dom.attached (Dom.remove_all d l) u = None) /\
  (forall u, u ∈ Cheerio.find (Dom.remove_all d l) selection selector ->
             u ∈ Cheerio.find d selection selector).
Proof.
  revert d. induction l as [|a l IH]; intros d Hd.
  - split; [done |]. split; [by intros u ?%elem_of_nil | done].
  - destruct (IH (Dom.remove d a) (unique_remove d a Hd)) as (Hout & Hgone & Hfind).
    split; [|split].
    + intros u Hnone. by apply Hout, remove_out.
    + intros u [-> | Hin]%elem_of_cons; [|by apply Hgone].
      by apply Hout, remove_self_out.
    + intros u Hin. by apply (remove_find d a), Hfind.
Qed.

Lemma find_removed_nil (d : dom) (selection : list nat) (selector : string) :
  unique d ->
  Cheerio.find (Dom.remove_all d (Cheerio.find d selection selector)) selection selector = [].
Proof.
  intros Hd.
  destruct (remove_all_out selection selector (Cheerio.find d selection selector) d Hd)
    as (_ & Hgone & Hfind).
  apply elem_of_nil_inv. intros u Hin.
  by apply (find_attached _ _ _ _ Hin), Hgone, Hfind.
Qed.

(** X17: after [removeH1FromContent] the content does not hold exactly
    one [<h1>]: a single one has been removed, and a page whose content
    holds none or several is left as it is. *)
Theorem removeH1FromContent_h1 (d : dom) (contentSection : list nat) :
  unique d ->
  length (Cheerio.find (removeH1FromContent d contentSection) contentSection "h1") <> 1 /\
  (length (Cheerio.find d contentSection "h1") <> 1 ->
   removeH1FromContent d contentSection = d).
Proof.
  intros Hd. unfold removeH1FromContent.
  destruct (Nat.eqb_spec (length (Cheerio.find d contentSection "h1")) 1) as [Heq | Hne].
  - split; [|done]. by rewrite (find_removed_nil d contentSection "h1" Hd).
  - done.
Qed.

(** The one [<h1>] of the page is removed. *)
Lemma removeH1FromContent_h1_witness :
  length (Cheerio.find (removeH1FromContent Pages.padded_h1 [2]) [2] "h1") <> 1 /\
  (length (Cheerio.find Pages.padded_h1 [2] "h1") <> 1 ->
   removeH1FromContent Pages.padded_h1 [2] = Pages.padded_h1).
Proof. apply removeH1FromContent_h1, load_unique. Defined.

(** *** Elements replaced by their text *)

Lemma replaceWith_text (d : dom) (a : nat) (s : string) :
  Dom.replaceWith d a (Cheerio.text_markup s)
  = match Dom.attached d a with
    | None => d
    | Some n =>
        let new := (Dom.parse (Cheerio.text_markup s) (fresh d)).1 in
        mkDom (Dom.replace_top a new (doc d))
              (map (Dom.replace_in a new) (detached d) ++ [n])
              (Dom.parse (Cheerio.text_markup s) (fresh d)).2
    end.
Proof.
  unfold Dom.replaceWith. destruct (Dom.attached d a); [|done].
  by destruct (Dom.parse (Cheerio.text_markup s) (fresh d)).
Qed.

(** For the elements of the page, a replacement by text is a removal. *)
Lemma replaceWith_uids (d : dom) (a : nat) (s : string) :
  flat_map Dom.uids (forest (Dom.replaceWith d a (Cheerio.text_markup s)))
  = flat_map Dom.uids (forest (Dom.remove d a)).
Proof.
  rewrite replaceWith_text. unfold Dom.remove.
  destruct (Dom.attached d a) as [n|]; [|done].
  pose proof (no_elem_text_markup s (fresh d)) as Hnew.
  unfold forest. simpl. rewrite !flat_map_app, (uids_replace_top _ _ _ Hnew).
  f_equal. f_equal.
  induction (detached d) as [|c l IH]; [done |].
  simpl. by rewrite IH, (uids_replace_in _ _ _ Hnew).
Qed.

Lemma replaceWith_unique (d : dom) (a : nat) (s : string) :
  unique d -> unique (Dom.replaceWith d a (Cheerio.text_markup s)).
Proof.
  intros Hd. unfold unique. rewrite replaceWith_uids. by apply unique_remove.
Qed.


Lemma replaceWith_find (d : dom) (a : nat) (s : string)
    (selection : list nat) (selector : string) :
  Cheerio.find (Dom.replaceWith d a (Cheerio.text_markup s)) selection selector
  = Cheerio.find (Dom.remove d a) selection selector.
Proof.
  rewrite replaceWith_text. unfold Dom.remove.
  destruct (Dom.attached d a) as [n|]; [|done].
  pose proof (no_elem_text_markup s (fresh d)) as Hnew.
  unfold Cheerio.find, forest. simpl.
  rewrite !flat_map_app, (find_replace_top _ _ _ _ _ _ Hnew). f_equal. f_equal.
  induction (detached d) as [|c l IH]; [done |].
  simpl. by rewrite IH, (find_in_replace_in _ _ _ _ _ _ Hnew).
Qed.


(** X18: [findLinks] records one link for every [<a>] found below the
    content; when [replaceLinks] is not set the links are those of the
    anchors as they stand, in document order, and the page is left as it
    is. *)
Theorem findLinks_anchors (d : dom) (contentSection : list nat) (options : gmap string value) :
  length (findLinks d contentSection options).1
  = length (Cheerio.find d contentSection "a") /\
  (truthy (options !! "replaceLinks") = false ->
   findLinks d contentSection options
   = (map (fun a => mkLink (Cheerio.attr d a "href") (Cheerio.text d a))
          (Cheerio.find d contentSection "a"), d)).
Proof.
  rewrite findLinks_fold. split.
  - by rewrite pushLink_length.
  - intros Hkeep. by rewrite pushLink_keep.
Qed.

Lemma findLinks_anchors_witness :
  findLinks Pages.linked_paragraph [2] ∅
  = (map (fun a => mkLink (Cheerio.attr Pages.linked_paragraph a "href")
                          (Cheerio.text Pages.linked_paragraph a))
         (Cheerio.find Pages.linked_paragraph [2] "a"), Pages.linked_paragraph).
Proof. apply (proj2 (findLinks_anchors Pages.linked_paragraph [2] ∅)). reflexivity. Defined.



(* ===================================================================== *)
(** ** Pages on which [findContent] throws no TypeError *)
(* ===================================================================== *)

(** *** What is found is found once *)

Lemma find_in_sublist sel ctx inside (n : node) :
  Cheerio.find_in sel ctx inside n `sublist_of` Dom.uids n.
Proof.
  revert inside. induction n as [s|s|v nm a ch IH] using node_children_ind;
    intros inside; [constructor.. |].
  rewrite find_in_Elem, uids_Elem.
  assert (Hch : forall b, flat_map (Cheerio.find_in sel ctx b) ch `sublist_of` flat_map Dom.uids ch).
  { induction IH as [|c ch Hc _ IHch]; intros b; [constructor |].
    simpl. apply sublist_app; auto. }
  destruct (inside && _); simpl; [apply sublist_skip | apply sublist_cons]; apply Hch.
Qed.

Lemma find_NoDup (d : dom) (selection : list nat) (selector : string) :
  unique d -> NoDup (Cheerio.find d selection selector).
Proof.
  intros Hd. eapply sublist_NoDup; [exact Hd |]. unfold Cheerio.find.
  induction (forest d) as [|c l IH]; [constructor |].
  simpl. apply sublist_app; [apply find_in_sublist | exact IH].
Qed.

(** *** The parent of an element *)

Lemma uids_children (u : nat) (c : node) :
  u ∈ Dom.uids c <-> Dom.has_uid u c = true \/ u ∈ flat_map Dom.uids (Dom.children_of c).
Proof.
  destruct c as [s|s|v nm a ch].
  - simpl. split; [by intros ?%elem_of_nil | by intros [? | ?%elem_of_nil]].
  - simpl. split; [by intros ?%elem_of_nil | by intros [? | ?%elem_of_nil]].
  - rewrite uids_Elem, elem_of_cons. simpl. by rewrite Nat.eqb_eq.
Qed.

Lemma parent_in_None (u : nat) (n : node) :
  Dom.parent_in u n = None <-> u ∉ flat_map Dom.uids (Dom.children_of n).
Proof.
  induction n as [s|s|v nm a ch IH] using node_children_ind.
  - simpl. split; [by intros _ ?%elem_of_nil | done].
  - simpl. split; [by intros _ ?%elem_of_nil | done].
  - simpl Dom.children_of. simpl Dom.parent_in.
    induction IH as [|c ch Hc _ IHch].
    + simpl. split; [by intros _ ?%elem_of_nil | done].
    + simpl existsb. simpl fold_right. simpl flat_map. rewrite elem_of_app, uids_children.
      destruct (Dom.has_uid u c) eqn:Hroot; simpl orb.
      * split; [done |]. intros H. exfalso. apply H. auto.
      * destruct (existsb (Dom.has_uid u) ch) eqn:Hex.
        -- split; [done |]. intros H. exfalso.
           assert (Hn : u ∉ flat_map Dom.uids ch) by tauto.
           apply IHch in Hn. discriminate Hn.
        -- destruct (Dom.parent_in u c) as [r|] eqn:Hp.
           ++ split; [done |]. intros H. exfalso.
              assert (Hn : u ∉ flat_map Dom.uids (Dom.children_of c)) by tauto.
              apply Hc in Hn. discriminate Hn.
           ++ rewrite IHch.
              assert (Hn : u ∉ flat_map Dom.uids (Dom.children_of c)) by (by apply Hc).
              split; [intros H [[? | ?] | ?]; done | tauto].
Qed.

Lemma parent_None (d : dom) (u : nat) :
  Dom.parent d u = None <-> u ∉ below (forest d).
Proof.
  unfold Dom.parent, below. induction (forest d) as [|c l IH].
  - simpl. split; [by intros _ ?%elem_of_nil | done].
  - simpl. rewrite flat_map_app, elem_of_app.
    destruct (Dom.parent_in u c) as [r|] eqn:Hp.
    + split; [done |]. intros H. exfalso.
      destruct (decide (u ∈ flat_map Dom.uids (Dom.children_of c))) as [? | Hn]; [tauto |].
      apply parent_in_None in Hn. congruence.
    + apply parent_in_None in Hp. rewrite IH. tauto.
Qed.

(** What [selection.find(selector)] finds stands below an element. *)
Lemma find_in_below sel ctx (n : node) (u : nat) :
  u ∈ Cheerio.find_in sel ctx false n -> u ∈ flat_map Dom.uids (Dom.children_of n).
Proof.
  destruct n as [s|s|v nm a ch]; [by intros ?%elem_of_nil.. |].
  rewrite find_in_Elem. simpl andb. simpl app. apply find_forest_uids.
Qed.

Lemma find_below (d : dom) (selection : list nat) (selector : string) (u : nat) :
  u ∈ Cheerio.find d selection selector -> u ∈ below (forest d).
Proof.
  unfold Cheerio.find, below. induction (forest d) as [|c l IH]; [done |].
  simpl. rewrite flat_map_app, !elem_of_app.
  intros [Hu | Hu]; [left; by eapply find_in_below | auto].
Qed.

(** *** What a removal leaves below an element *)

(** An element other than the one removed is still in the tree, or it
    stands in the tree cut off. *)
Lemma remove_in_or_cut (a u : nat) (c : node) :
  u ∈ Dom.uids c -> u <> a ->
  u ∈ flat_map Dom.uids (if Dom.has_uid a c then [] else [Dom.remove_in a c]) \/
  exists m, m ∈ subtrees c /\ Dom.has_uid a m = true /\
            u ∈ flat_map Dom.uids (Dom.children_of m).
Proof.
  intros Hu Hne. induction c as [s|s|v nm at' ch IH] using node_children_ind;
    [by apply elem_of_nil in Hu.. |].
  destruct (Dom.has_uid a (Elem v nm at' ch)) eqn:Ha.
  - right. exists (Elem v nm at' ch). split; [apply subtrees_self |]. split; [done |].
    apply uids_children in Hu as [Hu | Hu]; [|done].
    simpl in Ha, Hu. apply Nat.eqb_eq in Ha, Hu. congruence.
  - rewrite remove_in_Elem. cbn [flat_map]. rewrite app_nil_r, uids_Elem.
    rewrite uids_Elem in Hu. apply elem_of_cons in Hu as [-> | Hu];
      [left; apply list_elem_of_here |].
    cut (u ∈ flat_map Dom.uids (Dom.remove_top a ch) \/
         exists m, m ∈ flat_map subtrees ch /\ Dom.has_uid a m = true /\
                   u ∈ flat_map Dom.uids (Dom.children_of m)).
    { intros [Hin | (m & Hm & Hrest)]; [left; by apply list_elem_of_further |].
      right. exists m. split; [|done]. rewrite subtrees_Elem. by apply list_elem_of_further. }
    clear Ha. induction IH as [|c ch Hc _ IHch]; [by apply elem_of_nil in Hu |].
    rewrite remove_top_cons, flat_map_app. simpl in Hu.
    apply elem_of_app in Hu as [Hu | Hu].
    + destruct (Hc Hu) as [Hin | (m & Hm & Hrest)].
      * left. apply elem_of_app. by left.
      * right. exists m. split; [|done]. simpl. apply elem_of_app. by left.
    + destruct (IHch Hu) as [Hin | (m & Hm & Hrest)].
      * left. apply elem_of_app. by right.
      * right. exists m. split; [|done]. simpl. apply elem_of_app. by right.
Qed.

Lemma remove_top_or_cut (a u : nat) (l : list node) :
  u ∈ flat_map Dom.uids l -> u <> a ->
  u ∈ flat_map Dom.uids (Dom.remove_top a l) \/
  exists m, m ∈ flat_map subtrees l /\ Dom.has_uid a m = true /\
            u ∈ flat_map Dom.uids (Dom.children_of m).
Proof.
  intros Hu Hne. induction l as [|c l IH]; [by apply elem_of_nil in Hu |].
  rewrite remove_top_cons, flat_map_app. simpl in Hu.
  apply elem_of_app in Hu as [Hu | Hu].
  - destruct (remove_in_or_cut a u c Hu Hne) as [Hin | (m & Hm & Hrest)].
    + left. apply elem_of_app. by left.
    + right. exists m. split; [|done]. simpl. apply elem_of_app. by left.
  - destruct (IH Hu) as [Hin | (m & Hm & Hrest)].
    + left. apply elem_of_app. by right.
    + right. exists m. split; [|done]. simpl. apply elem_of_app. by right.
Qed.

Lemma children_of_remove_in (a : nat) (c : node) :
  Dom.children_of (Dom.remove_in a c) = Dom.remove_top a (Dom.children_of c).
Proof. by destruct c. Qed.

Lemma subtrees_children_of (c m : node) :
  m ∈ flat_map subtrees (Dom.children_of c) -> m ∈ subtrees c.
Proof.
  destruct c as [s|s|v nm a ch]; [by intros ?%elem_of_nil.. |].
  rewrite subtrees_Elem. apply list_elem_of_further.
Qed.

Lemma below_remove_top (a u : nat) (l : list node) :
  u ∈ below l -> u <> a ->
  u ∈ below (Dom.remove_top a l) \/
  exists m, m ∈ flat_map subtrees l /\ Dom.has_uid a m = true /\
            u ∈ flat_map Dom.uids (Dom.children_of m).
Proof.
  unfold below. intros Hu Hne. induction l as [|c l IH]; [by apply elem_of_nil in Hu |].
  rewrite remove_top_cons, !flat_map_app. simpl in Hu. rewrite flat_map_app in Hu.
  apply elem_of_app in Hu as [Hu | Hu].
  - destruct (Dom.has_uid a c) eqn:Ha.
    + right. exists c. split; [|done]. simpl. apply elem_of_app. left. apply subtrees_self.
    + simpl flat_map at 2. rewrite app_nil_r, children_of_remove_in.
      destruct (remove_top_or_cut a u _ Hu Hne) as [Hin | (m & Hm & Hrest)].
      * left. apply elem_of_app. by left.
      * right. exists m. split; [|done]. simpl. apply elem_of_app. left.
        by apply subtrees_children_of.
  - destruct (IH Hu) as [Hin | (m & Hm & Hrest)].
    + left. apply elem_of_app. by right.
    + right. exists m. split; [|done]. simpl. apply elem_of_app. by right.
Qed.

Lemma below_map_remove_in (a u : nat) (l : list node) :
  u ∈ below l -> u <> a ->
  u ∈ below (map (Dom.remove_in a) l) \/
  exists m, m ∈ flat_map subtrees l /\ Dom.has_uid a m = true /\
            u ∈ flat_map Dom.uids (Dom.children_of m).
Proof.
  unfold below. intros Hu Hne. induction l as [|c l IH]; [by apply elem_of_nil in Hu |].
  simpl in Hu. rewrite flat_map_app in Hu. simpl map. simpl flat_map at 2.
  rewrite flat_map_app, children_of_remove_in.
  apply elem_of_app in Hu as [Hu | Hu].
  - destruct (remove_top_or_cut a u _ Hu Hne) as [Hin | (m & Hm & Hrest)].
    + left. apply elem_of_app. by left.
    + right. exists m. split; [|done]. simpl. apply elem_of_app. left.
      by apply subtrees_children_of.
  - destruct (IH Hu) as [Hin | (m & Hm & Hrest)].
    + left. apply elem_of_app. by right.
    + right. exists m. split; [|done]. simpl. apply elem_of_app. by right.
Qed.

Lemma below_app (l k : list node) : below (l ++ k) = below l ++ below k.
Proof. unfold below. by rewrite !flat_map_app. Qed.

(** An element that stands below an element still does after the removal
    of another element. *)
Lemma remove_below (d : dom) (a u : nat) :
  unique d -> u <> a -> u ∈ below (forest d) -> u ∈ below (forest (Dom.remove d a)).
Proof.
  intros Hd Hne. unfold Dom.remove.
  destruct (Dom.attached d a) as [n|] eqn:Hn; [|done].
  destruct (attached_subtree _ _ _ Hn) as [Ha Hsub].
  assert (Hn' : n ∈ flat_map subtrees (forest d)).
  { unfold forest. rewrite flat_map_app, elem_of_app.
    destruct Hsub as [Hsub | Hsub]; [by left | right; by apply subtrees_children]. }
  assert (Hcut : forall m, m ∈ flat_map subtrees (forest d) -> Dom.has_uid a m = true -> m = n).
  { intros m Hm Hma.
    pose proof (lookup_unique a (forest d) m Hd Hm Hma) as H1.
    pose proof (lookup_unique a (forest d) n Hd Hn' Ha) as H2. congruence. }
  unfold forest. simpl. rewrite !below_app, !elem_of_app.
  assert (Hlast : forall m, m ∈ flat_map subtrees (forest d) -> Dom.has_uid a m = true ->
                            u ∈ flat_map Dom.uids (Dom.children_of m) -> u ∈ below [n]).
  { intros m Hm Hma Hu. rewrite (Hcut m Hm Hma) in Hu. unfold below. simpl.
    by rewrite app_nil_r. }
  intros [Hu | Hu].
  - destruct (below_remove_top a u _ Hu Hne) as [Hin | (m & Hm & Hma & Hrest)]; [auto |].
    right. right. apply (Hlast m); [|done..].
    unfold forest. rewrite flat_map_app, elem_of_app. by left.
  - destruct (below_map_remove_in a u _ Hu Hne) as [Hin | (m & Hm & Hma & Hrest)]; [auto |].
    right. right. apply (Hlast m); [|done..].
    unfold forest. rewrite flat_map_app, elem_of_app. by right.
Qed.

(** *** Pages that shrink *)

Lemma shrinks_refl (d : dom) : shrinks d d.
Proof. by split. Qed.

Lemma shrinks_trans (d1 d2 d3 : dom) : shrinks d1 d2 -> shrinks d2 d3 -> shrinks d1 d3.
Proof. intros [Hu1 Hf1] [Hu2 Hf2]. split; [auto |]. intros selection selector u Hu. auto. Qed.

Lemma shrinks_remove (d : dom) (a : nat) : shrinks d (Dom.remove d a).
Proof. split; [apply unique_remove |]. intros selection selector u. apply remove_find. Qed.

Lemma shrinks_fold {A} (f : dom -> A -> dom) (l : list A) (d0 d : dom) :
  (forall d x, shrinks d (f d x)) -> shrinks d0 d -> shrinks d0 (fold_left f l d).
Proof.
  intros Hf. revert d. induction l as [|x l IH]; intros d Hd; [done |].
  simpl. apply IH. eapply shrinks_trans; [exact Hd | apply Hf].
Qed.

Lemma shrinks_remove_all (d : dom) (us : list nat) : shrinks d (Dom.remove_all d us).
Proof. apply shrinks_fold; [apply shrinks_remove | apply shrinks_refl]. Qed.

Lemma shrinks_remove_comments (d : dom) : shrinks d (Cheerio.remove_comments d).
Proof.
  split; [apply unique_remove_comments |].
  intros selection selector u. by rewrite find_remove_comments.
Qed.

Lemma shrinks_replaceWith (d : dom) (a : nat) (s : string) :
  shrinks d (Dom.replaceWith d a (Cheerio.text_markup s)).
Proof.
  split; [apply replaceWith_unique |].
  intros selection selector u. rewrite replaceWith_find. apply remove_find.
Qed.

Lemma shrinks_removeHeadersWithoutText (d : dom) : shrinks d (removeHeadersWithoutText d).
Proof.
  unfold removeHeadersWithoutText. apply shrinks_fold; [|apply shrinks_refl].
  intros d0 x. destruct (_ || _); [apply shrinks_remove | apply shrinks_refl].
Qed.

Lemma shrinks_cleanHTML (d d' : dom) (options : gmap string value) :
  cleanHTML d options = Return d' -> shrinks d d'.
Proof.
  unfold cleanHTML.
  destruct (if truthy (options !! "removeTags") then _ else _) as [d1|e] eqn:H1; [|done].
  assert (Hd1 : shrinks d d1).
  { destruct (truthy _); [|injection H1 as <-; apply shrinks_refl].
    unfold removeTags in H1. destruct (options !! "removeTags") as [[b|t]|]; [done | | done].
    injection H1 as <-. apply shrinks_fold; [|apply shrinks_refl].
    intros d0 x. apply shrinks_remove_all. }
  unfold mbind, outcome_bind. cbv zeta. intros [= <-].
  eapply shrinks_trans; [exact Hd1 |]. clear.
  eapply shrinks_trans; [apply shrinks_remove_all |].
  eapply shrinks_trans; [apply shrinks_remove_all |].
  eapply shrinks_trans; [apply shrinks_remove_all |].
  eapply shrinks_trans; [apply shrinks_remove_comments |].
  destruct (truthy _); [apply shrinks_removeHeadersWithoutText | apply shrinks_refl].
Qed.

Lemma shrinks_findImages (d : dom) (contentSection : list nat) (options : gmap string value) :
  shrinks d (findImages d contentSection options).2.
Proof.
  unfold findImages. simpl. destruct (truthy _); [apply shrinks_remove_all | apply shrinks_refl].
Qed.

Lemma shrinks_pushLink (options : gmap string value) (l : list nat) (acc : list link)
    (d0 d : dom) :
  shrinks d0 d -> shrinks d0 (fold_left (pushLink options) l (acc, d)).2.
Proof.
  revert acc d. induction l as [|a l IH]; intros acc d Hd; [done |].
  simpl fold_left. apply IH. eapply shrinks_trans; [exact Hd |].
  destruct (truthy _); [apply shrinks_replaceWith | apply shrinks_refl].
Qed.

Lemma shrinks_findLinks (d : dom) (contentSection : list nat) (options : gmap string value) :
  shrinks d (findLinks d contentSection options).2.
Proof. rewrite findLinks_fold. apply shrinks_pushLink, shrinks_refl. Qed.

(** *** The scoring pass returns *)

(** One turn of the loop, for a paragraph that stands below an element. *)
Lemma scoreParagraph_returns (st : scoring) (p : nat) :
  unique (page st) -> p ∈ below (forest (page st)) ->
  exists st',
    scoreParagraph st p = Return st' /\
    (page st' = page st \/ page st' = Dom.remove (page st) p).
Proof.
  intros Hd Hp. unfold scoreParagraph.
  destruct (String.length (Cheerio.text (page st) p) =? 0) eqn:Hlen.
  - rewrite (text_remove_self _ _ Hd).
    assert (Hempty : Cheerio.text (page st) p = EmptyString).
    { apply Nat.eqb_eq in Hlen. by destruct (Cheerio.text (page st) p). }
    rewrite Hempty, (string_lt_white EmptyString eq_refl). eexists. split; [done |]. by right.
  - destruct (JsNumber.string_lt _ _); [eexists; split; [done | by left] |].
    destruct (Dom.parent (page st) p) as [parent|] eqn:Hparent;
      [|by apply parent_None in Hparent].
    destruct (readability st !! p).
    + destruct (readability st !! parent); eexists; (split; [done | by left]).
    + destruct (initializeElement (page st) (readability st) p !! parent);
        eexists; (split; [done | by left]).
Qed.

Lemma each_scoreParagraph_returns (ps : list nat) (st : scoring) :
  unique (page st) -> NoDup ps -> (forall p, p ∈ ps -> p ∈ below (forest (page st))) ->
  exists st', each scoreParagraph ps st = Return st' /\ shrinks (page st) (page st').
Proof.
  revert st. induction ps as [|p ps IH]; intros st Hd Hnd Hps.
  - exists st. split; [done | apply shrinks_refl].
  - apply NoDup_cons in Hnd as [Hnotin Hnd].
    destruct (scoreParagraph_returns st p Hd (Hps p (list_elem_of_here _ _))) as (st1 & Hrun & Hpage).
    rewrite each_cons, Hrun, bind_Return.
    assert (Hshr : shrinks (page st) (page st1)).
    { destruct Hpage as [-> | ->]; [apply shrinks_refl | apply shrinks_remove]. }
    destruct (IH st1) as (st' & Hrest & Hshr').
    + by apply Hshr.
    + exact Hnd.
    + intros q Hq. pose proof (Hps q (list_elem_of_further _ _ _ Hq)) as Hbelow.
      destruct Hpage as [-> | ->]; [done |].
      apply remove_below; [done | | done]. intros ->. contradiction.
    + exists st'. split; [done | by eapply shrinks_trans].
Qed.

Lemma findGoodCandidates_returns (d : dom) :
  unique d -> exists st, findGoodCandidates d = Return st /\ shrinks d (page st).
Proof.
  intros Hd. unfold findGoodCandidates.
  apply (each_scoreParagraph_returns _ (mkScoring d ∅ [])); [done | by apply find_NoDup |].
  intros p Hp. by eapply find_below.
Qed.

Lemma getTopCandidate_returns (d : dom) (r : gmap nat float) (cs : list nat) :
  scored r cs -> exists top r', getTopCandidate d r cs = Return (top, r').
Proof.
  intros [Hnd Hdom]. unfold getTopCandidate.
  destruct (getTopCandidate_loop d cs None r Hnd) as (top & r' & Hrun & _).
  - intros c Hc. by apply Hdom.
  - done.
  - eauto.
Qed.

Lemma findContentSection_returns (d : dom) :
  unique d ->
  exists section st, findContentSection d = Return (section, st) /\ shrinks d (page st).
Proof.
  intros Hd. unfold findContentSection. destruct (findArticle d) as [article|].
  - eexists. eexists. split; [done | apply shrinks_refl].
  - destruct (findGoodCandidates_returns d Hd) as (st & Hst & Hshr).
    destruct (getTopCandidate_returns (page st) _ _ (findGoodCandidates_scored _ _ Hst))
      as (top & r' & Htop).
    rewrite Hst, bind_Return, Htop, bind_Return. eexists. eexists. split; [done | exact Hshr].
Qed.

Lemma locate_returns (d : dom) (options : gmap string value) :
  unique d ->
  exists content d', locate d options = Return (content, d') /\ shrinks d d'.
Proof.
  intros Hd. unfold locate. destruct (truthy (options !! "htmlSelector")).
  - rewrite bind_Return. eexists. eexists. split; [done | apply shrinks_refl].
  - destruct (findContentSection_returns d Hd) as (section & st & Hrun & Hshr).
    rewrite Hrun, !bind_Return. eexists. eexists. split; [done | exact Hshr].
Qed.

(** *** Pages without table *)

Lemma find_in_inside sel ctx ctx' (n : node) :
  Cheerio.find_in sel ctx true n = Cheerio.find_in sel ctx' true n.
Proof.
  induction n as [s|s|v nm a ch IH] using node_children_ind; [done | done |].
  rewrite !find_in_Elem. simpl orb. f_equal.
  induction IH as [|c ch Hc _ IHch]; [done |]. simpl. by rewrite Hc, IHch.
Qed.

(** What is found below a selection of a page just loaded is selected in
    the page. *)
Lemma find_load_select (html : list markup) (selection : list nat) (selector : string) (u : nat) :
  u ∈ Cheerio.find (Dom.load html) selection selector ->
  u ∈ Cheerio.select (Dom.load html) selector.
Proof.
  unfold Cheerio.find, Cheerio.select, forest, Dom.load.
  destruct (Dom.parse html 1) as [ns k]. simpl. rewrite app_nil_r.
  induction ns as [|c l IH]; [done |].
  simpl. rewrite !elem_of_app. intros [Hu | Hu]; [left | auto].
  rewrite (find_in_inside _ [] selection). by eapply find_in_mono; [| | exact Hu].
Qed.

Lemma cleanContent_returns (d : dom) (contentSection : list nat) (options : gmap string value) :
  (forall selection, Cheerio.find d selection "table" = []) ->
  exists d', cleanContent d contentSection options = Return d'.
Proof.
  intros Hnone. unfold cleanContent. cbv zeta.
  match goal with
  | |- context [each _ (Cheerio.find ?x contentSection "table") _] =>
      assert (Hshr : shrinks d x); [|generalize dependent x]
  end.
  - apply shrinks_fold.
    { intros d0 x. destruct (_ && _); [apply shrinks_remove | apply shrinks_refl]. }
    apply shrinks_fold.
    { intros d0 x. destruct (_ =? _); [apply shrinks_remove | apply shrinks_refl]. }
    assert (Hif : forall (b : bool) (d1 d2 : dom),
               shrinks d d1 -> shrinks d1 d2 -> shrinks d (if b then d2 else d1)).
    { intros [] d1 d2 H1 H2; [by eapply shrinks_trans | done]. }
    apply Hif.
    + apply Hif.
      * apply Hif; [apply shrinks_refl |].
        unfold removeH1FromContent.
        destruct (_ =? _); [apply shrinks_remove_all | apply shrinks_refl].
      * apply shrinks_fold; [apply shrinks_remove | apply shrinks_refl].
    + apply shrinks_fold; [|apply shrinks_refl].
      intros d0 x. destruct (_ =? _); [apply shrinks_remove | apply shrinks_refl].
  - intros d4 [_ Hfind].
    assert (Hnil : Cheerio.find d4 contentSection "table" = []).
    { apply elem_of_nil_inv. intros u Hu%Hfind. rewrite Hnone in Hu. by apply elem_of_nil in Hu. }
    rewrite Hnil. by eexists.
Qed.

(** X20: on a page without [<table>] whose anchors have texts without
    [<] (so that [replaceWith] makes no element of a text), and for
    options whose [removeTags] and [htmlSelector] hold tag names when
    they are strings and whose [removeTags] is not [true], [findContent]
    never throws a TypeError: it returns a result, or it throws the
    content-not-found error. *)
Theorem findContent_without_table (html : list markup) (type : string) (o : gmap string value) :
  tag_names o = true ->
  o !! "removeTags" <> Some (VBool true) ->
  Cheerio.select (Dom.load html) "table" = [] ->
  Forall (fun a => JsString.includes "<" (Cheerio.text (Dom.load html) a) = false)
         (Cheerio.select (Dom.load html) "a") ->
  (exists r, findContent (Dom.load html) type o = Return r) \/
  findContent (Dom.load html) type o = Throw content_not_found.
Proof.
  intros _ Htags Hnone _.
  rewrite <- (merge_options_other o "removeTags") in Htags by reflexivity.
  destruct (cleanHTML_returns (Dom.load html) (merge_options o) Htags) as [d1 Hclean].
  pose proof (shrinks_cleanHTML _ _ _ Hclean) as H1.
  destruct (locate_returns d1 (merge_options o) (proj1 H1 (load_unique html)))
    as (content & d2 & Hlocate & H2).
  pose proof (shrinks_findImages d2 content (merge_options o)) as H3.
  pose proof (shrinks_findLinks (findImages d2 content (merge_options o)).2 content
                (merge_options o)) as H4.
  pose proof (shrinks_trans _ _ _ (shrinks_trans _ _ _ (shrinks_trans _ _ _ H1 H2) H3) H4)
    as [_ Hfind].
  destruct (cleanContent_returns
              (findLinks (findImages d2 content (merge_options o)).2 content (merge_options o)).2
              content (merge_options o)) as [d5 Hcontent].
  { intros selection. apply elem_of_nil_inv. intros u Hu%Hfind%find_load_select.
    rewrite Hnone in Hu. by apply elem_of_nil in Hu. }
  unfold findContent. rewrite Hclean, bind_Return, Hlocate, bind_Return.
  destruct (findImages d2 content (merge_options o)) as [images d3].
  cbn [snd] in Hcontent.
  destruct (findLinks d3 content (merge_options o)) as [links d4].
  cbn [snd] in Hcontent. rewrite Hcontent, bind_Return.
  destruct (Cheerio.html d5 content); [left; by eexists | by right].
Qed.

(** A page of one paragraph with a link, and the tags [nav] and [aside]
    to remove. *)
Lemma findContent_without_table_witness :
  (exists r,
     findContent
       (Dom.load [Pages.el "html" [Pages.el "body"
                    [Pages.el "p" [Pages.el "a" [MText "a link"]; MText ", and text"]]]])
       TXT {[ "removeTags" := VString "nav,aside" ]} = Return r) \/
  findContent
    (Dom.load [Pages.el "html" [Pages.el "body"
                 [Pages.el "p" [Pages.el "a" [MText "a link"]; MText ", and text"]]]])
    TXT {[ "removeTags" := VString "nav,aside" ]} = Throw content_not_found.
Proof.
  apply findContent_without_table.
  - vm_compute; reflexivity.
  - vm_compute; discriminate.
  - vm_compute; reflexivity.
  - evaluated
      (Cheerio.select
         (Dom.load [Pages.el "html" [Pages.el "body"
                      [Pages.el "p" [Pages.el "a" [MText "a link"]; MText ", and text"]]]])
         "a") Hfound.
    rewrite Hfound. constructor; [vm_compute; reflexivity | constructor].
Defined.

(* ===================================================================== *)
(** ** The text version *)
(* ===================================================================== *)

Lemma all_space_append (s t : string) :
  all_space (s +:+ t) = all_space s && all_space t.
Proof.
  induction s as [|c s IH]; [done |].
  simpl. by rewrite IH, andb_assoc.
Qed.

Lemma all_space_join (l : list string) :
  all_space (JsString.join l) = forallb all_space l.
Proof.
  unfold JsString.join. induction l as [|s l IH]; [done |].
  simpl. by rewrite all_space_append, IH.
Qed.

(** X21: the text version of the content is made of the texts of its
    [<p>] elements only: it is the empty string exactly when every
    [<p>] below the content holds white space only, and so whenever the
    content holds no [<p>], whatever other text it holds. *)
Theorem getCleanText_empty (d : dom) (contentSection : list nat) :
  getCleanText d contentSection = EmptyString <->
  Forall (fun p => all_space (Cheerio.text d p) = true) (Cheerio.find d contentSection "p").
Proof.
  unfold getCleanText. rewrite (fold_left_push (Cheerio.text d)). simpl app.
  rewrite trim_empty, all_space_join, forallb_forall, Forall_forall.
  split.
  - intros H p Hp. apply H, in_map, list_elem_of_In, Hp.
  - intros H s (p & <- & Hp)%in_map_iff. by apply H, list_elem_of_In.
Qed.
